(** * The B2B lobby server

    A shallow embedding of the server. Its real-time part is the module
    that defines [scheduleTrackAdvance], [advanceToNextTrack] and the six
    Socket.IO handlers, with the three process-wide stores it mutates
    ([lobbies], [lobbyAdvanceTimers], [lobbyProcessingLocks]), the pending
    [setTimeout] handles of the event loop, the wall clock read by
    [Date.now()] and the messages it emits. Beside it stand the route
    [/search] with the adapters it asks (the parser of YouTube durations,
    the shaping of the YouTube and SoundCloud answers, the token cache of
    the Spotify adapter) and the handler of [musica_terminou] of the older
    copy of the module.

    Handlers run to completion, one after the other. Times are integers in
    milliseconds, durations integers in seconds (as the YouTube adapter's
    [parseYouTubeDuration] produces them). Console output and the
    membership of Socket.IO rooms are left out: an emit is recorded with
    its addressee. A pending timer may fire at any moment from the instant
    it is due. What the network answers to an adapter is an argument of
    the adapter. *)

From stdpp Require Import gmap strings list pretty.
From Stdlib Require Import ZArith Lia Ascii.

Local Open Scope Z_scope.

(** ** Data model *)

Inductive UserRole := dj | spectator.

Inductive Source := spotify | youtube | soundcloud.

(** [interface Track]. An optional or nullable field is an [option]. *)
Record Track := mkTrack {
  track_id : string;
  title : string;
  artist : string;
  uri : string;
  albumArt : option string;
  previewUrl : option string;
  source : option Source;
  streamUrl : option string;
  startTime : option Z;
  duration : option Z
}.

(** [interface User]; [user_id] is the socket id. *)
Record User := mkUser {
  user_id : string;
  name : string;
  role : UserRole
}.

Record Lobby := mkLobby {
  lobby_id : string;
  users : list User;
  queue : list Track
}.

(** What a [setTimeout] callback of this program does when it fires: the
    callback armed by [scheduleTrackAdvance], or the lock release armed in
    the [finally] of [advanceToNextTrack]. *)
Inductive Callback :=
| AdvanceCb (lobbyId : string)
| UnlockCb (lobbyId : string).

(** A live timer of the event loop: its handle (the [NodeJS.Timeout]), the
    instant it is due and its callback. *)
Record Timer := mkTimer {
  handle : nat;
  due : Z;
  action : Callback
}.

(** Addressees of an emit: [socket.emit], [io.to(room).emit] and
    [socket.to(room).emit]. *)
Inductive Target :=
| ToSocket (socketId : string)
| ToRoom (room : string)
| ToRoomExcept (room : string) (socketId : string).

Inductive Message :=
| erro_lobby (text : string)
| lobby_criado (lobby : Lobby)
| lobby_entrou (lobby : Lobby)
| usuario_entrou (user : User)
| usuario_saiu (user : User)
| fila_atualizada (q : list Track).

(** The whole mutable state of the process.
    - [lobbies] is the [Record<string, Lobby>], kept in key insertion order
      (the order in which [for ... in] visits keys such as UUIDs); the key
      of a lobby is its [lobby_id].
    - [lobbyAdvanceTimers] and [lobbyProcessingLocks] are the two [Map]s.
    - [pending] holds the timers that were set and have neither fired nor
      been cleared; [nextHandle] is the next fresh handle.
    - [outbox] is every message emitted so far, oldest first.
    - [now] is the instant the wall clock shows, and [clock] lists the
      values the next calls of [Date.now()] return; when it is exhausted
      [now] is returned again. *)
Record World := mkWorld {
  lobbies : list Lobby;
  lobbyAdvanceTimers : gmap string nat;
  lobbyProcessingLocks : gmap string bool;
  pending : list Timer;
  nextHandle : nat;
  outbox : list (Target * Message);
  clock : list Z;
  now : Z
}.

Definition initial : World :=
  mkWorld [] ∅ ∅ [] 0%nat [] [] 0.

(** ** Primitive state updates *)

Definition setLobbies (f : list Lobby → list Lobby) (w : World) : World :=
  mkWorld (f (lobbies w)) (lobbyAdvanceTimers w) (lobbyProcessingLocks w)
          (pending w) (nextHandle w) (outbox w) (clock w) (now w).

Definition setAdvanceTimers (f : gmap string nat → gmap string nat) (w : World) : World :=
  mkWorld (lobbies w) (f (lobbyAdvanceTimers w)) (lobbyProcessingLocks w)
          (pending w) (nextHandle w) (outbox w) (clock w) (now w).

Definition setLocks (f : gmap string bool → gmap string bool) (w : World) : World :=
  mkWorld (lobbies w) (lobbyAdvanceTimers w) (f (lobbyProcessingLocks w))
          (pending w) (nextHandle w) (outbox w) (clock w) (now w).

Definition setPending (f : list Timer → list Timer) (w : World) : World :=
  mkWorld (lobbies w) (lobbyAdvanceTimers w) (lobbyProcessingLocks w)
          (f (pending w)) (nextHandle w) (outbox w) (clock w) (now w).

(** Time passes: the wall clock shows the first of [ts], and the calls of
    [Date.now()] to come will return [ts] one after the other. *)
Definition setClock (ts : list Z) (w : World) : World :=
  mkWorld (lobbies w) (lobbyAdvanceTimers w) (lobbyProcessingLocks w)
          (pending w) (nextHandle w) (outbox w) ts (hd (now w) ts).

(** [emit]: one more message in the outbox. *)
Definition emit (to : Target) (m : Message) (w : World) : World :=
  mkWorld (lobbies w) (lobbyAdvanceTimers w) (lobbyProcessingLocks w)
          (pending w) (nextHandle w) (outbox w ++ [(to, m)]) (clock w) (now w).

(** [Date.now()]: the next value of the clock, which becomes [now]. *)
Definition Date_now (w : World) : Z * World :=
  let t := hd (now w) (clock w) in
  (t, mkWorld (lobbies w) (lobbyAdvanceTimers w) (lobbyProcessingLocks w)
              (pending w) (nextHandle w) (outbox w) (tail (clock w)) t).

(** [setTimeout(callback, delay)] of Node: a delay outside
    [1 .. TIMEOUT_MAX] is replaced by 1. The timer gets a fresh handle and
    is due that long after [now]. *)
Definition TIMEOUT_MAX : Z := 2147483647.

Definition setTimeout (cb : Callback) (delay : Z) (w : World) : nat * World :=
  let after := if (1 <=? delay) && (delay <=? TIMEOUT_MAX) then delay else 1 in
  (nextHandle w,
   mkWorld (lobbies w) (lobbyAdvanceTimers w) (lobbyProcessingLocks w)
           (pending w ++ [mkTimer (nextHandle w) (now w + after) cb])
           (S (nextHandle w)) (outbox w) (clock w) (now w)).

(** [clearTimeout(handle)]: the timer is no longer pending (nothing happens
    when it already fired or was cleared). *)
Definition clearTimeout (h : nat) : World → World :=
  setPending (List.filter (λ t, negb (Nat.eqb (handle t) h))).

(** *** The registry [lobbies] *)

Definition hasId (lobbyId : string) (l : Lobby) : bool :=
  String.eqb (lobby_id l) lobbyId.

(** [lobbies[lobbyId]] *)
Definition findLobby (lobbyId : string) (w : World) : option Lobby :=
  List.find (hasId lobbyId) (lobbies w).

(** [lobbies[l.id] = l]: an existing key keeps its place, a new key goes
    last. *)
Fixpoint putLobby (l : Lobby) (ls : list Lobby) : list Lobby :=
  match ls with
  | [] => [l]
  | l' :: ls' => if hasId (lobby_id l) l' then l :: ls' else l' :: putLobby l ls'
  end.

(** [delete lobbies[lobbyId]] *)
Definition deleteLobby (lobbyId : string) : World → World :=
  setLobbies (List.filter (λ l, negb (hasId lobbyId l))).

(** An assignment to a field of the lobby object registered as [lobbyId]. *)
Definition updateLobby (lobbyId : string) (f : Lobby → Lobby) : World → World :=
  setLobbies (List.map (λ l, if hasId lobbyId l then f l else l)).

Definition withQueue (f : list Track → list Track) (l : Lobby) : Lobby :=
  mkLobby (lobby_id l) (users l) (f (queue l)).

Definition withUsers (f : list User → list User) (l : Lobby) : Lobby :=
  mkLobby (lobby_id l) (f (users l)) (queue l).

(** The queue of a lobby, empty when there is no such lobby. *)
Definition queueOf (lobbyId : string) (w : World) : list Track :=
  match findLobby lobbyId w with
  | Some l => queue l
  | None => []
  end.

(** An assignment to a field of the track object [lobby.queue[0]]. The
    track objects are shared between a handler's [track] variable and the
    queue array, so a write through either is a write to the queue slot. *)
Definition onHead (f : Track → Track) (q : list Track) : list Track :=
  match q with
  | [] => []
  | t :: q' => f t :: q'
  end.

Definition alterHead (lobbyId : string) (f : Track → Track) : World → World :=
  updateLobby lobbyId (withQueue (onHead f)).

Definition withStartTime (t : Z) (tr : Track) : Track :=
  mkTrack (track_id tr) (title tr) (artist tr) (uri tr) (albumArt tr)
          (previewUrl tr) (source tr) (streamUrl tr) (Some t) (duration tr).

Definition withDuration (d : Z) (tr : Track) : Track :=
  mkTrack (track_id tr) (title tr) (artist tr) (uri tr) (albumArt tr)
          (previewUrl tr) (source tr) (streamUrl tr) (startTime tr) (Some d).

(** [!track.duration || track.duration <= 0] *)
Definition lacksDuration (tr : Track) : bool :=
  match duration tr with
  | None => true
  | Some d => d <=? 0
  end.

(** [!track.startTime]: undefined, or the number zero. *)
Definition lacksStartTime (tr : Track) : bool :=
  match startTime tr with
  | None => true
  | Some t => t =? 0
  end.

(** [lobbyProcessingLocks.get(lobbyId)] as a condition. *)
Definition isLocked (lobbyId : string) (w : World) : bool :=
  match lobbyProcessingLocks w !! lobbyId with
  | Some b => b
  | None => false
  end.

(** ** The advance scheduler and the advance operation *)

(** The block that opens [scheduleTrackAdvance], found again in the
    [disconnect] handler: the handle stored for the lobby, if any, is
    cleared and its entry deleted. *)
Definition cancelTimer (lobbyId : string) (w : World) : World :=
  match lobbyAdvanceTimers w !! lobbyId with
  | Some existingTimer =>
      setAdvanceTimers (delete lobbyId) (clearTimeout existingTimer w)
  | None => w
  end.

(** The two repairs at the top of [scheduleTrackAdvance]; each returns the
    value the field has afterwards. *)
Definition ensureDuration (lobbyId : string) (track : Track) (w : World) : Z * World :=
  if lacksDuration track
  then (240, alterHead lobbyId (withDuration 240) w)
  else (default 240 (duration track), w).

Definition ensureStartTime (lobbyId : string) (track : Track) (w : World) : Z * World :=
  if lacksStartTime track
  then let (t, w') := Date_now w in (t, alterHead lobbyId (withStartTime t) w')
  else (default 0 (startTime track), w).

(** [scheduleTrackAdvance(lobbyId, track)] and [advanceToNextTrack(lobbyId)]
    call each other. Each body is written once, with the function it calls
    as its first argument; the two are then tied together by recursion on
    [fuel], a bound on the depth of the mutual calls ([None]: the bound was
    reached). [fuel_suffices] below shows that depth [callDepth] is never
    exceeded.

    At each of its three call sites [track] is the object
    [lobbies[lobbyId].queue[0]], so the model takes the track from there
    and writes its fields there (no call site leaves that slot empty). *)
Definition scheduleBody (advanceToNextTrack : string → World → option World)
  (lobbyId : string) (w : World) : option World :=
  let w1 := cancelTimer lobbyId w in
  match head (queueOf lobbyId w1) with
  | None => Some w1
  | Some track =>
      let (d, w2) := ensureDuration lobbyId track w1 in
      let (st, w3) := ensureStartTime lobbyId track w2 in
      let durationMs := d * 1000 in
      let (t, w4) := Date_now w3 in
      let elapsed := t - st in
      let remaining := Z.max 0 (durationMs - elapsed) in
      if remaining <=? 0
      then advanceToNextTrack lobbyId w4
      else
        let (timer, w5) := setTimeout (AdvanceCb lobbyId) remaining w4 in
        Some (setAdvanceTimers <[lobbyId := timer]> w5)
  end.

Definition advanceBody (scheduleTrackAdvance : string → World → option World)
  (lobbyId : string) (w : World) : option World :=
  match findLobby lobbyId w with
  | None => Some w
  | Some lobby =>
      if isLocked lobbyId w then Some w
      else
        match queue lobby with
        | [] => Some w
        | trackRemovido :: rest =>
            let w1 := setLocks <[lobbyId := true]> w in
            let w2 := updateLobby lobbyId (withQueue tail) w1 in
            let tried :=
              match rest with
              | [] => Some w2
              | _ :: _ =>
                  let (t, w3) := Date_now w2 in
                  scheduleTrackAdvance lobbyId
                    (alterHead lobbyId (withStartTime t) w3)
              end in
            match tried with
            | None => None
            | Some w4 =>
                let w5 := emit (ToRoom lobbyId)
                            (fila_atualizada (queueOf lobbyId w4)) w4 in
                Some (snd (setTimeout (UnlockCb lobbyId) 1000 w5))
            end
        end
  end.

Fixpoint scheduleTrackAdvance (fuel : nat) : string → World → option World :=
  match fuel with
  | O => λ _ _, None
  | S fuel' => scheduleBody (advanceToNextTrack fuel')
  end
with advanceToNextTrack (fuel : nat) : string → World → option World :=
  match fuel with
  | O => λ _ _, None
  | S fuel' => advanceBody (scheduleTrackAdvance fuel')
  end.

Definition callDepth : nat := 4.

(** The two functions as the handlers call them. *)
Definition schedule (lobbyId : string) (w : World) : World :=
  default w (scheduleTrackAdvance callDepth lobbyId w).

Definition advance (lobbyId : string) (w : World) : World :=
  default w (advanceToNextTrack callDepth lobbyId w).

(** ** The socket handlers *)

(** [String.prototype.trim]. A string is held as the bytes of its text in
    UTF-8, which is how the literals of this file are read. What [trim]
    strips are the white space and the line terminators of ECMAScript: TAB,
    LF, VT, FF, CR, SP, NBSP, U+1680, U+2000 to U+200A, U+2028, U+2029,
    U+202F, U+205F, U+3000 and U+FEFF. *)
Definition whiteSpace : list N :=
  [9; 10; 11; 12; 13; 32; 160; 5760;
   8192; 8193; 8194; 8195; 8196; 8197; 8198; 8199; 8200; 8201; 8202;
   8232; 8233; 8239; 8287; 12288; 65279]%N.

(** The bytes of a code point in UTF-8. *)
Definition utf8 (c : N) : string :=
  let byte := Ascii.ascii_of_N in
  let low n := byte (128 + N.modulo n 64)%N in
  if (c <? 128)%N then String (byte c) ""
  else if (c <? 2048)%N then
    String (byte (192 + N.div c 64)%N) (String (low c) "")
  else if (c <? 65536)%N then
    String (byte (224 + N.div c 4096)%N)
      (String (low (N.div c 64)) (String (low c) ""))
  else
    String (byte (240 + N.div c 262144)%N)
      (String (low (N.div c 4096)) (String (low (N.div c 64)) (String (low c) ""))).

(** What follows [p] in a string that starts with [p]. *)
Fixpoint dropPrefix (p s : string) : option string :=
  match p with
  | EmptyString => Some s
  | String a p' =>
      match s with
      | String b s' => if Ascii.eqb a b then dropPrefix p' s' else None
      | EmptyString => None
      end
  end.

(** What follows the white space character a string starts with, if it
    starts with one. *)
Definition leadingSpace (s : string) : option string :=
  fold_right
    (λ c r, match dropPrefix (utf8 c) s with Some s' => Some s' | None => r end)
    None whiteSpace.

(** At most [n] white space characters are taken from the front. *)
Fixpoint trimStartFrom (n : nat) (s : string) : string :=
  match n with
  | O => s
  | S n' =>
      match leadingSpace s with
      | Some s' => trimStartFrom n' s'
      | None => s
      end
  end.

Definition trimStart (s : string) : string := trimStartFrom (String.length s) s.

(** A string of white space only. *)
Definition allSpace (s : string) : bool := String.eqb (trimStart s) "".

(** The string up to the white space it ends with. *)
Fixpoint trimEnd (s : string) : string :=
  match s with
  | EmptyString => EmptyString
  | String c s' => if allSpace s then EmptyString else String c (trimEnd s')
  end.

Definition trim (s : string) : string := trimEnd (trimStart s).

(** [!s || !s.trim()] *)
Definition blank (s : string) : bool :=
  String.eqb s "" || String.eqb (trim s) "".

Definition isDj (r : UserRole) : bool :=
  match r with dj => true | spectator => false end.

Fixpoint findIn (socketId : string) (ls : list Lobby) : option (Lobby * User) :=
  match ls with
  | [] => None
  | l :: ls' =>
      match List.find (λ u, String.eqb (user_id u) socketId) (users l) with
      | Some u => Some (l, u)
      | None => findIn socketId ls'
      end
  end.

Definition findLobbyAndUser (socketId : string) (w : World) : option (Lobby * User) :=
  findIn socketId (lobbies w).

(** [lobbyId] is the value [uuidv4()] returns in this call. *)
Definition criar_lobby (socketId lobbyId userName : string) (w : World) : World :=
  if blank userName
  then emit (ToSocket socketId) (erro_lobby "Nome de usuário inválido.") w
  else
    let newUser := mkUser socketId (trim userName) dj in
    let lobby := mkLobby lobbyId [newUser] [] in
    emit (ToSocket socketId) (lobby_criado lobby) (setLobbies (putLobby lobby) w).

(** The names every object inherits from [Object.prototype]. *)
Definition inherited : list string :=
  ["constructor"; "__defineGetter__"; "__defineSetter__"; "hasOwnProperty";
   "__lookupGetter__"; "__lookupSetter__"; "isPrototypeOf";
   "propertyIsEnumerable"; "toString"; "valueOf"; "__proto__";
   "toLocaleString"].

(** When no lobby is registered under the id, [lobbies[id]] is [undefined]
    unless the id is an inherited name: then it is a member of
    [Object.prototype], [lobby.users] is undefined, and the handler ends on
    the [TypeError] of [lobby.users.filter] (logged by the process-wide
    handler) having changed and sent nothing. *)
Definition entrar_lobby (socketId lobbyId userName : string) (w : World) : World :=
  if blank lobbyId
  then emit (ToSocket socketId) (erro_lobby "ID do lobby inválido.") w
  else if blank userName
  then emit (ToSocket socketId) (erro_lobby "Nome de usuário inválido.") w
  else
    match findLobby (trim lobbyId) w with
    | Some lobby =>
        let djCount := length (List.filter (λ u, isDj (role u)) (users lobby)) in
        let role := if Nat.ltb djCount 2 then dj else spectator in
        let newUser := mkUser socketId (trim userName) role in
        let push := withUsers (λ us, us ++ [newUser]) in
        let w1 := updateLobby (lobby_id lobby) push w in
        let w2 := emit (ToRoomExcept lobbyId socketId) (usuario_entrou newUser) w1 in
        emit (ToSocket socketId) (lobby_entrou (push lobby)) w2
    | None =>
        if List.existsb (String.eqb (trim lobbyId)) inherited then w
        else emit (ToSocket socketId) (erro_lobby "O lobby não foi encontrado.") w
    end.

Definition adicionar_faixa (socketId : string) (track : Track) (w : World) : World :=
  match findLobbyAndUser socketId w with
  | None =>
      emit (ToSocket socketId) (erro_lobby "Você não está em nenhum lobby.") w
  | Some (lobby, user) =>
      if negb (isDj (role user))
      then emit (ToSocket socketId) (erro_lobby "Apenas DJs podem adicionar músicas.") w
      else if List.existsb (λ t, String.eqb (track_id t) (track_id track)) (queue lobby)
      then emit (ToSocket socketId) (erro_lobby "Esta música já está na fila.") w
      else
        let lobbyId := lobby_id lobby in
        let w1 := updateLobby lobbyId (withQueue (λ q, q ++ [track])) w in
        let w2 :=
          if Nat.eqb (length (queue lobby ++ [track])) 1
          then let (t, w') := Date_now w1 in
               schedule lobbyId (alterHead lobbyId (withStartTime t) w')
          else w1 in
        emit (ToRoom lobbyId) (fila_atualizada (queueOf lobbyId w2)) w2
  end.

Definition musica_terminou (socketId : string) (w : World) : World :=
  match findLobbyAndUser socketId w with
  | None => w
  | Some (lobby, _) =>
      match lobbyAdvanceTimers w !! lobby_id lobby with
      | None => advance (lobby_id lobby) w
      | Some _ => w
      end
  end.

Definition remover_faixa (socketId trackId : string) (w : World) : World :=
  match findLobbyAndUser socketId w with
  | None => w
  | Some (lobby, user) =>
      if negb (isDj (role user)) then w
      else
        let lobbyId := lobby_id lobby in
        let wasFirstTrack :=
          match queue lobby with
          | t :: _ => String.eqb (track_id t) trackId
          | [] => false
          end in
        let keep := List.filter (λ t, negb (String.eqb (track_id t) trackId)) in
        let w1 := updateLobby lobbyId (withQueue keep) w in
        let w2 :=
          if wasFirstTrack && Nat.ltb 0 (length (keep (queue lobby)))
          then
            let (t, w') := Date_now w1 in
            let w'' := alterHead lobbyId (withStartTime t) w' in
            let w''' :=
              match lobbyAdvanceTimers w'' !! lobbyId with
              | Some existingTimer => clearTimeout existingTimer w''
              | None => w''
              end in
            schedule lobbyId w'''
          else w1 in
        emit (ToRoom lobbyId) (fila_atualizada (queueOf lobbyId w2)) w2
  end.

Definition disconnect (socketId : string) (w : World) : World :=
  match findLobbyAndUser socketId w with
  | None => w
  | Some (lobby, user) =>
      let lobbyId := lobby_id lobby in
      let others := List.filter (λ u, negb (String.eqb (user_id u) (user_id user))) in
      let w1 := updateLobby lobbyId (withUsers others) w in
      let w2 := emit (ToRoomExcept lobbyId socketId) (usuario_saiu user) w1 in
      let w3 := cancelTimer lobbyId w2 in
      if Nat.eqb (length (others (users lobby))) 0
      then deleteLobby lobbyId w3
      else w3
  end.

(** ** The event loop *)

(** A pending timer fires, which it does not before it is due: it stops
    being pending and its callback runs. The callback of an advance timer
    is [advanceToNextTrack(lobbyId); lobbyAdvanceTimers.delete(lobbyId)],
    the other one is [lobbyProcessingLocks.delete(lobbyId)]. *)
Definition timerFires (h : nat) (w : World) : World :=
  match List.find (λ t, Nat.eqb (handle t) h) (pending w) with
  | None => w
  | Some t =>
      if now w <? due t then w
      else
        let w1 := clearTimeout h w in
        match action t with
        | AdvanceCb lobbyId => setAdvanceTimers (delete lobbyId) (advance lobbyId w1)
        | UnlockCb lobbyId => setLocks (delete lobbyId) w1
        end
  end.

(** What the process reacts to: the six socket messages (with the id of
    the socket they arrive on), a timer that fires, and the passing of
    time. *)
Inductive Event :=
| Criar (socketId lobbyId userName : string)
| Entrar (socketId lobbyId userName : string)
| Adicionar (socketId : string) (track : Track)
| Terminou (socketId : string)
| Remover (socketId trackId : string)
| Disconnect (socketId : string)
| Fires (h : nat)
| Clock (ts : list Z).

Definition step (e : Event) (w : World) : World :=
  match e with
  | Criar s l n => criar_lobby s l n w
  | Entrar s l n => entrar_lobby s l n w
  | Adicionar s t => adicionar_faixa s t w
  | Terminou s => musica_terminou s w
  | Remover s i => remover_faixa s i w
  | Disconnect s => disconnect s w
  | Fires h => timerFires h w
  | Clock ts => setClock ts w
  end.

Definition exec (run : list Event) (w : World) : World :=
  fold_left (λ w e, step e w) run w.

(** The events that are not a timer firing. *)
Definition notTimer (e : Event) : bool :=
  match e with
  | Fires _ => false
  | _ => true
  end.

(** ** The handler of [musica_terminou] before the server had its own timers

    The older copy of the module has no [scheduleTrackAdvance] and no
    [advanceToNextTrack]: its handler of [musica_terminou] dequeues by
    itself, under the same lock. *)
Module Legacy.

Definition musica_terminou (socketId : string) (w : World) : World :=
  match findLobbyAndUser socketId w with
  | None => w
  | Some (lobby, _) =>
      let lobbyId := lobby_id lobby in
      if isLocked lobbyId w then w
      else
        match queue lobby with
        | [] => w
        | trackRemovido :: rest =>
            let w1 := setLocks <[lobbyId := true]> w in
            let w2 := updateLobby lobbyId (withQueue tail) w1 in
            let w3 :=
              match rest with
              | [] => w2
              | _ :: _ =>
                  let (t, w') := Date_now w2 in
                  alterHead lobbyId (withStartTime t) w'
              end in
            let w4 := emit (ToRoom lobbyId) (fila_atualizada (queueOf lobbyId w3)) w3 in
            snd (setTimeout (UnlockCb lobbyId) 1000 w4)
        end
  end.

End Legacy.

(** ** The YouTube adapter *)

(** The class [\d] of a regular expression without the [u] flag. *)
Definition isDigit (c : Ascii.ascii) : bool :=
  let n := Ascii.nat_of_ascii c in
  Nat.leb 48 n && Nat.leb n 57.

(** [\d+] at the front of a string: the longest run of digits, and what
    follows it. *)
Fixpoint digitRun (s : string) : string * string :=
  match s with
  | String c s' =>
      if isDigit c
      then let (ds, rest) := digitRun s' in (String c ds, rest)
      else (EmptyString, s)
  | EmptyString => (EmptyString, EmptyString)
  end.

(** [(?:(\d+)X)?] at the front of a string: the digits captured and what
    follows the group when the run of digits is not empty and [X] comes
    next; otherwise the group matches nothing. (Giving up digits of the
    run cannot help: the character after a shorter run is a digit.) *)
Definition unitGroup (x : Ascii.ascii) (s : string) : option string * string :=
  match digitRun s with
  | (String d ds, String c rest) =>
      if Ascii.eqb c x then (Some (String d ds), rest) else (None, s)
  | _ => (None, s)
  end.

(** The text after the leftmost ["PT"], where [match] tries the three
    optional groups; none of them can fail, so no later ["PT"] is tried. *)
Fixpoint afterPT (s : string) : option string :=
  match s with
  | EmptyString => None
  | String c s' =>
      match s' with
      | String c' rest =>
          if Ascii.eqb c "P"%char && Ascii.eqb c' "T"%char then Some rest else afterPT s'
      | EmptyString => None
      end
  end.

(** [parseInt(s, 10)] of a string that starts with a digit: the digits up
    to the first character that is none. Numbers are exact (those of JS
    are, below [2 ^ 53]). *)
Fixpoint parseIntFrom (acc : N) (s : string) : N :=
  match s with
  | String c s' =>
      if isDigit c
      then parseIntFrom (10 * acc + N.of_nat (Ascii.nat_of_ascii c - 48)) s'
      else acc
  | EmptyString => acc
  end.

Definition parseInt (s : string) : N := parseIntFrom 0 s.

Definition parseYouTubeDuration (duration : string) : N :=
  match afterPT duration with
  | None => 0
  | Some r0 =>
      let (h, r1) := unitGroup "H"%char r0 in
      let (m, r2) := unitGroup "M"%char r1 in
      let (s, _) := unitGroup "S"%char r2 in
      let hours := parseInt (default "0" h) in
      let minutes := parseInt (default "0" m) in
      let seconds := parseInt (default "0" s) in
      (hours * 3600 + minutes * 60 + seconds)%N
  end.

(** An ISO 8601 duration as the YouTube Data API writes the length of a
    video: the units that are zero are left out, and a video of a day or
    more has its days before the ["T"]. *)
Definition isoUnit (n : N) (unit : string) : string :=
  if (n =? 0)%N then "" else pretty n +:+ unit.

Definition isoTime (h m s : N) : string :=
  "PT" +:+ isoUnit h "H" +:+ isoUnit m "M" +:+ isoUnit s "S".

Definition isoDays (d h m s : N) : string :=
  "P" +:+ pretty d +:+ "DT" +:+ isoUnit h "H" +:+ isoUnit m "M" +:+ isoUnit s "S".

(** Strings of digits, and strings without a [P]. *)
Fixpoint allDigits (s : string) : bool :=
  match s with
  | String c s' => isDigit c && allDigits s'
  | EmptyString => true
  end.

Fixpoint noP (s : string) : bool :=
  match s with
  | String c s' => negb (Ascii.eqb c "P") && noP s'
  | EmptyString => true
  end.

(** A value used as a condition: a string is falsy when absent or empty. *)
Definition truthy (s : option string) : bool :=
  match s with
  | Some (String _ _) => true
  | _ => false
  end.

(** [a || b] on strings that may be absent. *)
Definition orElse (a b : option string) : option string :=
  if truthy a then a else b.

(** An item of the answer to [search], and one of the answer to [videos]:
    the fields the adapter reads. *)
Record YouTubeItem := mkYouTubeItem {
  videoId : string;
  snippetTitle : string;
  channelTitle : string;
  thumbnailMedium : option string;
  thumbnailDefault : option string
}.

Record YouTubeVideo := mkYouTubeVideo {
  video_id : string;
  contentDuration : option string
}.

(** The answers the adapter gets to its two requests ([None]: the request
    failed). *)
Record YouTubeApi := mkYouTubeApi {
  youtubeSearch : string → option (list YouTubeItem);
  youtubeVideos : string → option (list YouTubeVideo)
}.

(** The [forEach] that fills [durationMap]. *)
Definition durationMap (videoDetails : list YouTubeVideo) : gmap string N :=
  fold_left
    (λ m video,
       let durationSeconds := parseYouTubeDuration (default "" (contentDuration video)) in
       if (0 <? durationSeconds)%N then <[video_id video := durationSeconds]> m else m)
    videoDetails ∅.

(** [durationMap.get(id) || null] *)
Definition durationOf (m : gmap string N) (id : string) : option Z :=
  match m !! id with
  | Some d => if (d =? 0)%N then None else Some (Z.of_N d)
  | None => None
  end.

Definition youtubeTrack (m : gmap string N) (item : YouTubeItem) : Track :=
  mkTrack (videoId item) (snippetTitle item) (channelTitle item)
          ("https://www.youtube.com/watch?v=" +:+ videoId item)
          (orElse (thumbnailMedium item) (thumbnailDefault item))
          None (Some youtube) None None (durationOf m (videoId item)).

(** [xs.join(sep)] *)
Fixpoint join (sep : string) (xs : list string) : string :=
  match xs with
  | [] => ""
  | [x] => x
  | x :: xs' => x +:+ sep +:+ join sep xs'
  end.

Definition searchYouTubeVideos (YOUTUBE_API_KEY : option string) (api : YouTubeApi)
  (query : string) : list Track :=
  if negb (truthy YOUTUBE_API_KEY) then []
  else
    match youtubeSearch api query with
    | None => []
    | Some items =>
        let videoIds := join "," (List.map videoId items) in
        let videoDetails := default [] (youtubeVideos api videoIds) in
        List.map (youtubeTrack (durationMap videoDetails)) items
    end.

(** ** The SoundCloud adapter *)

(** A track of the answer of SoundCloud: the fields the adapter reads
    ([sc_username] is [user?.username], [sc_avatar_url] is
    [user?.avatar_url]). *)
Record SoundCloudTrack := mkSoundCloudTrack {
  sc_id : N;
  sc_title : string;
  sc_username : option string;
  sc_permalink_url : option string;
  sc_uri : string;
  sc_artwork_url : option string;
  sc_avatar_url : option string;
  sc_stream_url : option string
}.

(** [n.toString()] of a number that is a natural: its decimal digits as
    long as [n] is a safe integer, that is below [2 ^ 53]. The text of a
    larger one (the shortest digits that read back as the same double, in
    exponent notation from [1e21] on) is not worked out here: it is
    [beyond n], an argument. *)
Definition Number_toString (beyond : N → string) (n : N) : string :=
  if (n <? 2 ^ 53)%N then pretty n else beyond n.

Definition soundcloudTrack (beyond : N → string) (clientId : string)
  (track : SoundCloudTrack) : Track :=
  mkTrack (Number_toString beyond (sc_id track)) (sc_title track)
          (default "Artista Desconhecido" (orElse (sc_username track) None))
          (default (sc_uri track) (orElse (sc_permalink_url track) None))
          (orElse (sc_artwork_url track) (sc_avatar_url track))
          None (Some soundcloud)
          (if truthy (sc_stream_url track)
           then Some (default "" (sc_stream_url track) +:+ "?client_id=" +:+ clientId)
           else None)
          None None.

Definition searchSoundCloudTracks (beyond : N → string)
  (SOUNDCLOUD_CLIENT_ID : option string)
  (api : string → option (list SoundCloudTrack)) (query : string) : list Track :=
  if negb (truthy SOUNDCLOUD_CLIENT_ID) then []
  else
    match api query with
    | None => []
    | Some collection =>
        List.map (soundcloudTrack beyond (default "" SOUNDCLOUD_CLIENT_ID)) collection
    end.

(** ** The route [/search] *)

(** The two variables of [process.env] that the route reads. *)
Record Env := mkEnv {
  YOUTUBE_API_KEY : option string;
  SOUNDCLOUD_CLIENT_ID : option string
}.

(** What the three adapters have to work with in one request;
    [spotifySearch] is what [searchTracks] returns, and [numberText] the
    text of the numbers that are not safe integers (see
    [Number_toString]). *)
Record Providers := mkProviders {
  youtubeApi : YouTubeApi;
  spotifySearch : string → list Track;
  soundcloudApi : string → option (list SoundCloudTrack);
  numberText : N → string
}.

(** The answers of the route: status 400 with a text, the array of results,
    or the object [{ results: [], warnings, message }]. (The status 500 of
    the [catch] takes an adapter that throws, and each adapter catches its
    own errors.) *)
Inductive SearchResponse :=
| BadRequest (text : string)
| Results (results : list Track)
| NoResults (warnings : list string) (message : option string).

(** A text between double quotes. *)
Definition quoted (s : string) : string :=
  String (ascii_of_nat 34) s +:+ String (ascii_of_nat 34) "".

(** [{ ...track, source }] *)
Definition withSource (src : Source) (tr : Track) : Track :=
  mkTrack (track_id tr) (title tr) (artist tr) (uri tr) (albumArt tr)
          (previewUrl tr) (Some src) (streamUrl tr) (startTime tr) (duration tr).

Definition isNil {A} (xs : list A) : bool :=
  match xs with [] => true | _ => false end.

(** [source === name || source === 'all'] *)
Definition wants (name source : string) : bool :=
  String.eqb source name || String.eqb source "all".

Definition search (env : Env) (net : Providers) (q source : option string) : SearchResponse :=
  let source := default "youtube" (orElse source None) in
  if negb (truthy q)
  then BadRequest ("O parâmetro " +:+ quoted "q" +:+ " é obrigatório.")
  else
    let query := default "" q in
    let '(results, warnings) :=
      if wants "youtube" source
      then
        let youtubeResults := searchYouTubeVideos (YOUTUBE_API_KEY env) (youtubeApi net) query in
        (youtubeResults,
         if isNil youtubeResults
         then if negb (truthy (YOUTUBE_API_KEY env))
              then ["YouTube: API key não configurada. Configure YOUTUBE_API_KEY no .env"]
              else ["YouTube: Nenhum resultado encontrado. Verifique se a API key está válida e se a API está habilitada no Google Cloud Console."]
         else [])
      else ([], []) in
    let results :=
      if wants "spotify" source
      then results ++ List.map (withSource spotify) (spotifySearch net query)
      else results in
    let '(results, warnings) :=
      if wants "soundcloud" source
      then
        let soundcloudResults :=
          searchSoundCloudTracks (numberText net) (SOUNDCLOUD_CLIENT_ID env)
            (soundcloudApi net) query in
        (results ++ soundcloudResults,
         if isNil soundcloudResults && negb (truthy (SOUNDCLOUD_CLIENT_ID env))
         then warnings ++ ["SoundCloud: Client ID não configurado. Configure SOUNDCLOUD_CLIENT_ID no .env"]
         else warnings)
      else (results, warnings) in
    if negb (isNil warnings) && isNil results
    then NoResults warnings
           (Some "Nenhuma API configurada. Configure pelo menos uma API key no arquivo .env")
    else if negb (isNil results) then Results results
    else NoResults warnings None.

(** The results the route asks the adapters for, in the order in which it
    puts them together. *)
Definition found (env : Env) (net : Providers) (query source : string) : list Track :=
  (if wants "youtube" source
   then searchYouTubeVideos (YOUTUBE_API_KEY env) (youtubeApi net) query else []) ++
  (if wants "spotify" source
   then List.map (withSource spotify) (spotifySearch net query) else []) ++
  (if wants "soundcloud" source
   then searchSoundCloudTracks (numberText net) (SOUNDCLOUD_CLIENT_ID env)
          (soundcloudApi net) query
   else []).

(** ** The token of the Spotify adapter *)




(** ** Views of the state *)

(** The ids queued in a lobby, head first. *)
Definition queueIds (l : string) (w : World) : list string :=
  List.map track_id (queueOf l w).

(** The advance timers of a lobby that are pending. *)
Definition advanceTimersOf (lobbyId : string) (w : World) : list Timer :=
  List.filter
    (λ t, match action t with
          | AdvanceCb l => String.eqb l lobbyId
          | UnlockCb _ => false
          end)
    (pending w).

(** The duration the scheduler works with, and the track as the scheduler
    leaves it: 240 seconds replace a duration that is absent or not
    positive. *)
Definition effectiveDuration (tr : Track) : Z :=
  if lacksDuration tr then 240 else default 240 (duration tr).

Definition repairDuration (tr : Track) : Track :=
  if lacksDuration tr then withDuration 240 tr else tr.

Definition distinctIds (q : list Track) : Prop :=
  List.NoDup (List.map track_id q).

(** No two lobbies are registered under one id, and no queue holds an id
    twice. *)
Definition sound (w : World) : Prop :=
  List.NoDup (List.map lobby_id (lobbies w)) ∧
  Forall (λ L, distinctIds (queue L)) (lobbies w).

(** The ids under which a lobby is registered, and who is in which lobby. *)
Definition registered (w : World) : list string :=
  List.map lobby_id (lobbies w).

Definition members (w : World) : list (string * list User) :=
  List.map (λ L, (lobby_id L, users L)) (lobbies w).

Definition usersOf (l : string) (w : World) : option (list User) :=
  users <$> findLobby l w.

(** The lobbies announced to those who entered one: to the creator in
    [lobby_criado], to a newcomer in [lobby_entrou]. *)
Definition joinAnnounced (m : Target * Message) : option Lobby :=
  match snd m with
  | lobby_criado L | lobby_entrou L => Some L
  | _ => None
  end.

Definition announced (w : World) : list Lobby :=
  omap joinAnnounced (outbox w).

(** Two worlds with the same users in the same lobbies and the same
    announcements. *)
Definition sameMembership (w0 w : World) : Prop :=
  members w = members w0 ∧ announced w = announced w0.

(** The role of the one who has just entered: the last user of the lobby
    announced. *)
Definition grant (l : string) (L : Lobby) : option UserRole :=
  if hasId l L then role <$> last (users L) else None.

(** The roles granted in lobby [l] so far, in the order of the joins. *)
Definition rolesGranted (l : string) (w : World) : list UserRole :=
  omap (grant l) (announced w).

(** The rule of the specification: the first two to join are djs, the
    others spectators ([k] counts from zero). *)
Definition joinRule (k : nat) : UserRole :=
  if Nat.ltb k 2 then dj else spectator.

Definition follows (rs : list UserRole) : Prop :=
  ∀ k r, rs !! k = Some r → r = joinRule k.

Definition joinRuleHolds (run : list Event) (l : string) : Prop :=
  follows (rolesGranted l (exec run initial)).

(** The djs among users. *)
Definition djsIn (us : list User) : nat :=
  length (List.filter (λ u, isDj (role u)) us).

(** What links the roles granted in a lobby to the users it holds, as long
    as none of its djs leaves: the roles follow the rule, and every dj
    granted is still there. *)
Definition roleInv (l : string) (w : World) : Prop :=
  follows (rolesGranted l w) ∧
  match usersOf l w with
  | Some us =>
      djsIn us = Nat.min 2 (length (rolesGranted l w)) ∧ (1 ≤ djsIn us)%nat
  | None => rolesGranted l w = []
  end.

(** The ids that [uuidv4] produced in a run. *)
Definition criados (run : list Event) : list string :=
  omap (λ e, match e with Criar _ l _ => Some l | _ => None end) run.

(** A dj of lobby [l] leaves it at some point of the run played from [w]:
    some [disconnect] finds its socket in [l], where a user of that socket
    is a dj. *)
Fixpoint djLeaves (l : string) (run : list Event) (w : World) : bool :=
  match run with
  | [] => false
  | e :: run' =>
      match e with
      | Disconnect s =>
          match findLobbyAndUser s w with
          | Some (L, _) =>
              hasId l L &&
              List.existsb (λ u, String.eqb (user_id u) s && isDj (role u)) (users L)
          | None => false
          end
      | _ => false
      end || djLeaves l run' (step e w)
  end.

(** The djs of a lobby. *)
Definition djCount (L : Lobby) : nat :=
  length (List.filter (λ u, isDj (role u)) (users L)).

(** A track that plays: it has a start time and a positive duration. *)
Definition playing (tr : Track) : bool :=
  match startTime tr with
  | Some _ => negb (lacksDuration tr)
  | None => false
  end.

(** The head of a queue, if there is one, plays. *)
Definition headPlaying (q : list Track) : bool :=
  match q with
  | [] => true
  | tr :: _ => playing tr
  end.

(** The timers pending that release the lock of a lobby. *)
Definition isRelease (lobbyId : string) (t : Timer) : bool :=
  match action t with
  | UnlockCb l => String.eqb l lobbyId
  | AdvanceCb _ => false
  end.

Definition releaseTimers (lobbyId : string) (w : World) : list Timer :=
  List.filter (isRelease lobbyId) (pending w).

(** Handles are handed out in increasing order, no two pending timers
    share one, and the handle stored for a lobby is that of one of its
    advance timers. *)
Definition disciplined (w : World) : Prop :=
  (∀ t, In t (pending w) → (handle t < nextHandle w)%nat) ∧
  List.NoDup (List.map handle (pending w)) ∧
  (∀ l h, lobbyAdvanceTimers w !! l = Some h →
     (h < nextHandle w)%nat ∧
     ∀ t, In t (pending w) → handle t = h → action t = AdvanceCb l).

(** A lobby is locked exactly when one release of its lock is pending,
    and has no release pending otherwise. *)
Definition coolingDown (l : string) (w : World) : Prop :=
  length (releaseTimers l w) = if isLocked l w then 1%nat else 0%nat.

(** In the course of [advanceToNextTrack] for [l]: the lock of [l] is set
    and its release not yet armed; every other lobby is as between two
    handlers. *)
Definition midAdvance (l : string) (w : World) : Prop :=
  disciplined w ∧ isLocked l w = true ∧ releaseTimers l w = [] ∧
  ∀ l0, l0 ≠ l → coolingDown l0 w.

(** Between two handlers. *)
Definition settled (w : World) : Prop :=
  disciplined w ∧ ∀ l, coolingDown l w.

(** A name as the handlers store it: not empty, no white space character
    at its front or at its end, and left as it is by [trim]. *)
Definition trimmed (s : string) : Prop :=
  s ≠ "" ∧
  (∀ c rest, In c whiteSpace → s ≠ utf8 c +:+ rest ∧ s ≠ rest +:+ utf8 c) ∧
  trim s = s.

(** A user that is not the one of the socket. *)
Definition notOf (socketId : string) (u : User) : Prop := user_id u ≠ socketId.

(** The pending timers once the handle stored for a lobby, if any, has been
    cleared. *)
Definition withoutStored (lobbyId : string) (w : World) : list Timer :=
  match lobbyAdvanceTimers w !! lobbyId with
  | Some h => List.filter (λ t, negb (Nat.eqb (handle t) h)) (pending w)
  | None => pending w
  end.

(** The queue that a message tells the room of a lobby, and the last queue
    the room was told. *)
Definition queueSent (l : string) (m : Target * Message) : option (list Track) :=
  match m with
  | (ToRoom r, fila_atualizada q) => if String.eqb r l then Some q else None
  | _ => None
  end.

Definition lastBroadcast (l : string) (w : World) : option (list Track) :=
  last (omap (queueSent l) (outbox w)).

(** The room has been told the queue as it is (nothing, when the queue
    has always been empty). *)
Definition told (l : string) (w : World) : Prop :=
  default [] (lastBroadcast l w) = queueOf l w.

(** ** Scenarios *)

(** An instant of the wall clock (14 November 2023, in milliseconds). *)
Definition t0 : Z := 1700000000000.

(** A lobby id as [uuidv4] makes them, and socket ids as Socket.IO does. *)
Definition sala : string := "3b241101-e2bb-4255-8caf-4136c566a962".
Definition aliceId : string := "Yk3F0cV1pQe8TzRbAAAB".
Definition bobId : string := "q7WmZ2xLr0HnD5uEAAAD".
Definition carolId : string := "f1GsT9aKo3JvB6yNAAAF".
Definition daveId : string := "m4PcX8eUw2LiR0tQAAAH".

Definition alice : User := mkUser aliceId "Alice" dj.
Definition bob : User := mkUser bobId "Bob" dj.
Definition carol : User := mkUser carolId "Carol" spectator.

(** A track as a client sends it: no [startTime], and the duration the
    search gave, if any. *)
Definition faixa (i : string) (d : option Z) : Track :=
  mkTrack i "Faixa" "Artista" ("https://www.youtube.com/watch?v=" +:+ i)
          None None (Some youtube) None None d.

(** Alice creates a lobby and queues one track of 30 seconds. *)
Definition armedWorld : World :=
  exec [Criar aliceId sala "Alice"; Clock [t0 + 1000; t0 + 1000];
        Adicionar aliceId (faixa "T1" (Some 30))] initial.

(** Two tracks; the second lasts one second. *)
Definition twoTracks : World :=
  exec [Criar aliceId sala "Alice"; Clock [t0 + 1000; t0 + 1000];
        Adicionar aliceId (faixa "T1" (Some 5));
        Adicionar aliceId (faixa "T2" (Some 1))] initial.

(** One track of ten seconds, removed one second after it started. *)
Definition removedRun : list Event :=
  [Criar aliceId sala "Alice"; Clock [t0 + 1000; t0 + 1000];
   Adicionar aliceId (faixa "T1" (Some 10));
   Clock [t0 + 2000; t0 + 2000]; Remover aliceId "T1"].

(** The timer of the first of two tracks fires; a third track is queued
    and the second one, now playing, is removed. *)
Definition orphanRun : list Event :=
  [Criar aliceId sala "Alice"; Clock [t0 + 1000; t0 + 1000];
   Adicionar aliceId (faixa "T1" (Some 5));
   Adicionar aliceId (faixa "T2" (Some 5));
   Clock [t0 + 6000; t0 + 6000]; Fires 0;
   Adicionar aliceId (faixa "T3" (Some 5));
   Clock [t0 + 6500; t0 + 6500]; Remover aliceId "T2"].

(** Alice and Bob share a lobby in which a track of 30 seconds plays. *)
Definition duo : World :=
  exec [Criar aliceId sala "Alice"; Entrar bobId sala "Bob";
        Clock [t0 + 1000; t0 + 1000];
        Adicionar aliceId (faixa "T1" (Some 30))] initial.

(** Alice, Bob and Carol, who came third; one track plays. *)
Definition trio : World :=
  exec [Criar aliceId sala "Alice"; Entrar bobId sala "Bob";
        Entrar carolId sala "Carol"; Clock [t0 + 1000; t0 + 1000];
        Adicionar aliceId (faixa "T1" (Some 30))] initial.

(** Bob, the second dj, leaves before Dave joins. *)
Definition leaveJoinRun : list Event :=
  [Criar aliceId sala "Alice"; Entrar bobId sala "Bob";
   Entrar carolId sala "Carol"; Disconnect bobId; Entrar daveId sala "Dave"].

(** Alice, Bob, Carol and Dave enter one after the other while tracks are
    queued and removed, the first timer fires and a fallback arrives. *)
Definition busyJoinRun : list Event :=
  [Criar aliceId sala "Alice"; Clock [t0 + 1000; t0 + 1000];
   Adicionar aliceId (faixa "T1" (Some 5)); Entrar bobId sala "Bob";
   Adicionar bobId (faixa "T2" (Some 5));
   Clock [t0 + 6000; t0 + 6000]; Fires 0;
   Entrar carolId (" " +:+ sala +:+ " ") "Carol"; Remover bobId "T2";
   Terminou carolId; Entrar daveId sala "Dave"].

(** Alice opens a second lobby while she is in her first. *)
Definition salaDois : string := "9f8b7c6d-5e4f-4a3b-8c2d-1e0f9a8b7c6d".

Definition twoLobbiesRun : list Event :=
  [Criar aliceId sala "Alice"; Criar aliceId salaDois "Alice"].

(** Three tracks, the second of which is removed while the first plays. *)
Definition threeTracksRun : list Event :=
  [Criar aliceId sala "Alice"; Clock [t0 + 1000; t0 + 1000];
   Adicionar aliceId (faixa "T1" (Some 30));
   Adicionar aliceId (faixa "T2" (Some 30));
   Adicionar aliceId (faixa "T3" None)].

(** Two tracks, and the clock at the end of the first. *)
Definition dueRun : list Event :=
  [Criar aliceId sala "Alice"; Clock [t0 + 1000; t0 + 1000];
   Adicionar aliceId (faixa "T1" (Some 5));
   Adicionar aliceId (faixa "T2" (Some 1));
   Clock [t0 + 6000; t0 + 6000]].

(** Two tracks that have both run out when the scheduler looks at the
    clock. *)
Definition bothOver : World := setClock [t0 + 6000; t0 + 6000; t0 + 7000] twoTracks.

(** A YouTube API that does not answer. *)
Definition silentYouTube : YouTubeApi := mkYouTubeApi (λ _, None) (λ _, None).

(** The id of Alice's lobby as Carol pastes it, after a no-break space
    and before a blank. *)
Definition salaPadded : string := utf8 160 +:+ sala +:+ " ".

(** The timer of the first of two tracks has fired and the lock it left
    has been released; 1.2 seconds after the second track started, a
    client is about to signal that its track has ended. *)
Definition staleFallbackRun : list Event :=
  [Criar aliceId sala "Alice"; Clock [t0 + 1000; t0 + 1000];
   Adicionar aliceId (faixa "T1" (Some 5));
   Adicionar aliceId (faixa "T2" (Some 5));
   Clock [t0 + 6000; t0 + 6000]; Fires 0;
   Clock [t0 + 7000]; Fires 2; Clock [t0 + 7200]].

(** Carol, a spectator, leaves and comes back after Dave, who has left the
    lobby he had opened for himself. *)
Definition spectatorLeavesRun : list Event :=
  [Criar aliceId sala "Alice"; Criar daveId salaDois "Dave";
   Entrar bobId sala "Bob"; Entrar carolId sala "Carol";
   Disconnect carolId; Disconnect daveId;
   Entrar daveId sala "Dave"; Entrar carolId sala "Carol"].

(** * Properties *)

(** ** The mutual recursion is two calls deep *)

Lemma locks_Date_now w :
  lobbyProcessingLocks (snd (Date_now w)) = lobbyProcessingLocks w.
Proof. reflexivity. Qed.

Lemma locks_ensureDuration l tr w :
  lobbyProcessingLocks (snd (ensureDuration l tr w)) = lobbyProcessingLocks w.
Proof. unfold ensureDuration. destruct (lacksDuration tr); reflexivity. Qed.

Lemma locks_ensureStartTime l tr w :
  lobbyProcessingLocks (snd (ensureStartTime l tr w)) = lobbyProcessingLocks w.
Proof.
  unfold ensureStartTime. destruct (lacksStartTime tr); [|reflexivity].
  generalize (locks_Date_now w). destruct (Date_now w); simpl. auto.
Qed.

Lemma locks_cancel l w :
  lobbyProcessingLocks (cancelTimer l w) = lobbyProcessingLocks w.
Proof. unfold cancelTimer. destruct (lobbyAdvanceTimers w !! l); reflexivity. Qed.

(** The scheduler hands to [advanceToNextTrack] a world with the locks it
    was given. *)
Lemma scheduleBody_ext adv adv' l w :
  (∀ w', lobbyProcessingLocks w' = lobbyProcessingLocks w → adv l w' = adv' l w') →
  scheduleBody adv l w = scheduleBody adv' l w.
Proof.
  intros Hadv. unfold scheduleBody.
  pose proof (locks_cancel l w) as H1. revert H1.
  generalize (cancelTimer l w).
  intros w1 H1. destruct (head (queueOf l w1)) as [tr|]; [|reflexivity].
  pose proof (locks_ensureDuration l tr w1) as H2.
  destruct (ensureDuration l tr w1) as [d w2]; simpl in H2.
  pose proof (locks_ensureStartTime l tr w2) as H3.
  destruct (ensureStartTime l tr w2) as [st w3]; simpl in H3.
  pose proof (locks_Date_now w3) as H4.
  destruct (Date_now w3) as [t w4]; simpl in H4.
  destruct (Z.max 0 (d * 1000 - (t - st)) <=? 0); [|reflexivity].
  apply Hadv. congruence.
Qed.

Lemma isLocked_insert l w :
  isLocked l (setLocks <[l := true]> w) = true.
Proof. unfold isLocked; simpl. by rewrite lookup_insert_eq. Qed.

(** [advanceToNextTrack] calls the scheduler only on a world in which the
    lobby's lock is set. *)
Lemma advanceBody_ext sched sched' l w :
  (∀ w', isLocked l w' = true → sched l w' = sched' l w') →
  advanceBody sched l w = advanceBody sched' l w.
Proof.
  intros Hs. unfold advanceBody.
  destruct (findLobby l w) as [lobby|]; [|reflexivity].
  destruct (isLocked l w); [reflexivity|].
  destruct (queue lobby) as [|removed rest]; [reflexivity|].
  destruct rest as [|next rest]; [reflexivity|].
  pose proof (locks_Date_now (updateLobby l (withQueue tail) (setLocks <[l := true]> w))) as H.
  destruct (Date_now _) as [t w3]; simpl in H.
  rewrite (Hs (alterHead l (withStartTime t) w3)); [reflexivity|].
  unfold isLocked. simpl. rewrite H. simpl. by rewrite lookup_insert_eq.
Qed.

Lemma advance_locked n l w :
  isLocked l w = true → advanceToNextTrack (S n) l w = Some w.
Proof.
  intros H. simpl. unfold advanceBody.
  destruct (findLobby l w); [|reflexivity]. by rewrite H.
Qed.

Lemma schedule_locked n l w :
  isLocked l w = true →
  scheduleTrackAdvance (S (S n)) l w = scheduleTrackAdvance 2 l w.
Proof.
  intros H. simpl. apply scheduleBody_ext. intros w' Hw'.
  assert (isLocked l w' = true) as H' by (unfold isLocked in *; by rewrite Hw').
  change (advanceToNextTrack (S n) l w' = advanceToNextTrack 1 l w').
  by rewrite !advance_locked.
Qed.

Lemma advance_depth n l w :
  advanceToNextTrack (S (S (S n))) l w = advanceToNextTrack 3 l w.
Proof.
  simpl. apply advanceBody_ext. intros w' H.
  change (scheduleTrackAdvance (S (S n)) l w' = scheduleTrackAdvance 2 l w').
  by apply schedule_locked.
Qed.

Lemma schedule_depth n l w :
  scheduleTrackAdvance (S (S (S (S n)))) l w = scheduleTrackAdvance 4 l w.
Proof.
  simpl. apply scheduleBody_ext. intros w' _.
  change (advanceToNextTrack (S (S (S n))) l w' = advanceToNextTrack 3 l w').
  apply advance_depth.
Qed.

Lemma scheduleBody_Some adv l w :
  (∀ w', lobbyProcessingLocks w' = lobbyProcessingLocks w → is_Some (adv l w')) →
  is_Some (scheduleBody adv l w).
Proof.
  intros Hadv.
  rewrite (scheduleBody_ext adv (λ l' w', Some (default w' (adv l' w'))) l w).
  - unfold scheduleBody.
    destruct (head (queueOf l _)); [|eauto].
    destruct (ensureDuration _ _ _), (ensureStartTime _ _ _), (Date_now _).
    destruct (_ <=? 0); [eauto|]. destruct (setTimeout _ _ _). eauto.
  - intros w' Hw'. destruct (Hadv w' Hw') as [x ->]. reflexivity.
Qed.

Lemma advanceBody_Some sched l w :
  (∀ w', isLocked l w' = true → is_Some (sched l w')) →
  is_Some (advanceBody sched l w).
Proof.
  intros Hs.
  rewrite (advanceBody_ext sched (λ l' w', Some (default w' (sched l' w'))) l w).
  - unfold advanceBody.
    destruct (findLobby l w); [|eauto]. destruct (isLocked l w); [eauto|].
    destruct (queue _) as [|? [|? ?]]; eauto.
  - intros w' Hw'. destruct (Hs w' Hw') as [x ->]. reflexivity.
Qed.

Lemma schedule_locked_Some l w :
  isLocked l w = true → is_Some (scheduleTrackAdvance 2 l w).
Proof.
  intros H. simpl. apply scheduleBody_Some. intros w' Hw'.
  change (is_Some (advanceToNextTrack 1 l w')). rewrite advance_locked; [eauto|].
  unfold isLocked in *. by rewrite Hw'.
Qed.

Lemma advance_Some l w : is_Some (advanceToNextTrack 3 l w).
Proof.
  simpl. apply advanceBody_Some. intros w' H.
  by apply (schedule_locked_Some l w').
Qed.

Lemma schedule_Some l w : is_Some (scheduleTrackAdvance 4 l w).
Proof.
  simpl. apply scheduleBody_Some. intros w' _. apply (advance_Some l w').
Qed.

(** Both functions return, and what they return does not depend on the
    bound once it is at least [callDepth]: [schedule] and [advance] are the
    functions of the source. *)
Theorem fuel_suffices (n : nat) (l : string) (w : World) :
  scheduleTrackAdvance (callDepth + n) l w = Some (schedule l w) ∧
  advanceToNextTrack (callDepth + n) l w = Some (advance l w).
Proof.
  unfold schedule, advance, callDepth. split.
  - change (4 + n)%nat with (S (S (S (S n)))). rewrite schedule_depth.
    destruct (schedule_Some l w) as [x Hx]. by rewrite Hx.
  - change (4 + n)%nat with (S (S (S (S n)))). rewrite !advance_depth.
    destruct (advance_Some l w) as [x Hx].
    rewrite (advance_depth 1 l w), Hx. reflexivity.
Qed.

(** ** The registry under field assignments *)

Lemma hasId_eq l L : hasId l L = true ↔ lobby_id L = l.
Proof. unfold hasId. apply String.eqb_eq. Qed.

Lemma findLobby_id l w L : findLobby l w = Some L → lobby_id L = l.
Proof.
  unfold findLobby. intros H. apply List.find_some in H as [_ H].
  by apply hasId_eq.
Qed.

Lemma find_update l l' f ls :
  (∀ L, lobby_id (f L) = lobby_id L) →
  List.find (hasId l) (List.map (λ L, if hasId l' L then f L else L) ls) =
  (λ L, if hasId l' L then f L else L) <$> List.find (hasId l) ls.
Proof.
  intros Hf. induction ls as [|L ls IH]; [reflexivity|]. simpl.
  assert (hasId l (if hasId l' L then f L else L) = hasId l L) as ->.
  { unfold hasId at 1 3. destruct (hasId l' L); by rewrite ?Hf. }
  destruct (hasId l L); [reflexivity|apply IH].
Qed.

Lemma findLobby_update l l' f w :
  (∀ L, lobby_id (f L) = lobby_id L) →
  findLobby l (updateLobby l' f w) =
  (λ L, if hasId l' L then f L else L) <$> findLobby l w.
Proof. intros Hf. unfold findLobby. simpl. by apply find_update. Qed.

Lemma queueOf_update l g w :
  g [] = [] → queueOf l (updateLobby l (withQueue g) w) = g (queueOf l w).
Proof.
  intros Hg. unfold queueOf. rewrite findLobby_update by reflexivity.
  destruct (findLobby l w) as [L|] eqn:E; simpl; [|by rewrite Hg].
  apply findLobby_id, hasId_eq in E. by rewrite E.
Qed.

Lemma queueOf_update_found l g w L :
  findLobby l w = Some L →
  queueOf l (updateLobby l (withQueue g) w) = g (queue L).
Proof.
  intros E. unfold queueOf. rewrite findLobby_update by reflexivity.
  rewrite E. simpl. apply findLobby_id, hasId_eq in E. by rewrite E.
Qed.

Lemma queueOf_update_ne l l' g w :
  l ≠ l' → queueOf l (updateLobby l' (withQueue g) w) = queueOf l w.
Proof.
  intros Hne. unfold queueOf. rewrite findLobby_update by reflexivity.
  destruct (findLobby l w) as [L|] eqn:E; simpl; [|reflexivity].
  apply findLobby_id in E.
  destruct (hasId l' L) eqn:E'; [|reflexivity].
  apply hasId_eq in E'. congruence.
Qed.

Lemma ids_update l f ls :
  (∀ L, lobby_id (f L) = lobby_id L) →
  List.map lobby_id (List.map (λ L, if hasId l L then f L else L) ls) =
  List.map lobby_id ls.
Proof.
  intros Hf. rewrite List.map_map. apply List.map_ext. intros L.
  destruct (hasId l L); by rewrite ?Hf.
Qed.

(** ** A property kept by every primitive is kept by the two functions *)

Section Preservation.
Variable P : World → Prop.

Hypothesis P_timers : ∀ f w, P w → P (setAdvanceTimers f w).
Hypothesis P_pending : ∀ f w, P w → P (setPending f w).
Hypothesis P_now : ∀ w, P w → P (snd (Date_now w)).
Hypothesis P_setTimeout : ∀ cb d w, P w → P (snd (setTimeout cb d w)).
Hypothesis P_lock : ∀ l w, P w → P (setLocks <[l := true]> w).
Hypothesis P_field :
  ∀ l f w, (∀ tr, track_id (f tr) = track_id tr) → P w → P (alterHead l f w).
Hypothesis P_dequeue : ∀ l w, P w → P (updateLobby l (withQueue tail) w).
Hypothesis P_broadcast :
  ∀ l q w, P w → P (emit (ToRoom l) (fila_atualizada q) w).

Lemma cancel_preserves l w : P w → P (cancelTimer l w).
Proof.
  intros H. unfold cancelTimer.
  destruct (lobbyAdvanceTimers w !! l); [|assumption].
  apply P_timers. by apply P_pending.
Qed.

Lemma ensureDuration_preserves l tr w :
  P w → P (snd (ensureDuration l tr w)).
Proof.
  intros H. unfold ensureDuration. destruct (lacksDuration tr); simpl; auto.
Qed.

Lemma ensureStartTime_preserves l tr w :
  P w → P (snd (ensureStartTime l tr w)).
Proof.
  intros H. unfold ensureStartTime. destruct (lacksStartTime tr); simpl; auto.
  apply P_field; [reflexivity|]. by apply (P_now w).
Qed.

Lemma scheduleBody_preserves adv l w w' :
  (∀ w1 w2, P w1 → adv l w1 = Some w2 → P w2) →
  P w → scheduleBody adv l w = Some w' → P w'.
Proof.
  intros Hadv H. unfold scheduleBody.
  pose proof (cancel_preserves l w H) as H1. revert H1.
  generalize (cancelTimer l w).
  intros w1 H1. destruct (head (queueOf l w1)) as [tr|]; [|congruence].
  pose proof (ensureDuration_preserves l tr w1 H1) as H2.
  destruct (ensureDuration l tr w1) as [d w2]; simpl in H2.
  pose proof (ensureStartTime_preserves l tr w2 H2) as H3.
  destruct (ensureStartTime l tr w2) as [st w3]; simpl in H3.
  pose proof (P_now w3 H3) as H4.
  destruct (Date_now w3) as [t w4]; simpl in H4.
  destruct (Z.max 0 (d * 1000 - (t - st)) <=? 0); [by apply Hadv|].
  pose proof (P_setTimeout (AdvanceCb l) (Z.max 0 (d * 1000 - (t - st))) w4 H4) as H5.
  destruct (setTimeout _ _ w4) as [timer w5]; simpl in H5.
  intros [= <-]. by apply P_timers.
Qed.

Lemma advanceBody_preserves sched l w w' :
  (∀ w1 w2, P w1 → sched l w1 = Some w2 → P w2) →
  P w → advanceBody sched l w = Some w' → P w'.
Proof.
  intros Hs H. unfold advanceBody.
  destruct (findLobby l w) as [lobby|]; [|congruence].
  destruct (isLocked l w); [congruence|].
  destruct (queue lobby) as [|removed rest]; [congruence|].
  assert (P (updateLobby l (withQueue tail) (setLocks <[l := true]> w))) as H2
    by auto.
  revert H2. generalize (updateLobby l (withQueue tail) (setLocks <[l := true]> w)).
  intros w2 H2.
  assert (∀ w4, P w4 →
            P (snd (setTimeout (UnlockCb l) 1000
                      (emit (ToRoom l) (fila_atualizada (queueOf l w4)) w4)))) as Hfin
    by auto.
  destruct rest as [|next rest].
  - intros [= <-]. by apply Hfin.
  - pose proof (P_now w2 H2) as H3.
    destruct (Date_now w2) as [t w3]; simpl in H3.
    destruct (sched l (alterHead l (withStartTime t) w3)) as [w4|] eqn:E;
      [|congruence].
    intros [= <-]. apply Hfin. eapply Hs; [|exact E]. by apply P_field.
Qed.

Lemma fuel_preserves n :
  ∀ l w w', P w →
    (scheduleTrackAdvance n l w = Some w' → P w') ∧
    (advanceToNextTrack n l w = Some w' → P w').
Proof.
  induction n as [|n IH]; intros l w w' H; [split; discriminate|].
  split; simpl.
  - apply scheduleBody_preserves; [|assumption].
    intros w1 w2 H1 E. by apply (proj2 (IH l w1 w2 H1)).
  - apply advanceBody_preserves; [|assumption].
    intros w1 w2 H1 E. by apply (proj1 (IH l w1 w2 H1)).
Qed.

Lemma schedule_preserves l w : P w → P (schedule l w).
Proof.
  intros H. unfold schedule.
  destruct (scheduleTrackAdvance callDepth l w) as [w'|] eqn:E; [|assumption].
  by apply (proj1 (fuel_preserves callDepth l w w' H)).
Qed.

Lemma advance_preserves l w : P w → P (advance l w).
Proof.
  intros H. unfold advance.
  destruct (advanceToNextTrack callDepth l w) as [w'|] eqn:E; [|assumption].
  by apply (proj2 (fuel_preserves callDepth l w w' H)).
Qed.
End Preservation.

(** ** The advance guard *)

Lemma isLocked_set l0 l w :
  isLocked l0 w = true → isLocked l0 (setLocks <[l := true]> w) = true.
Proof.
  unfold isLocked; simpl. intros H.
  destruct (decide (l = l0)) as [->|Hne].
  - by rewrite lookup_insert_eq.
  - by rewrite lookup_insert_ne.
Qed.

(** Neither function releases a lock. *)
Lemma fuel_keeps_lock l0 n l w w' :
  isLocked l0 w = true →
  (scheduleTrackAdvance n l w = Some w' → isLocked l0 w' = true) ∧
  (advanceToNextTrack n l w = Some w' → isLocked l0 w' = true).
Proof.
  apply (fuel_preserves (λ w, isLocked l0 w = true)); try (intros; assumption).
  intros. by apply isLocked_set.
Qed.

Lemma advance_locked_id l w : isLocked l w = true → advance l w = w.
Proof. intros H. unfold advance, callDepth. by rewrite advance_locked. Qed.

(** An advance that changes anything leaves the lobby locked. *)
Lemma advance_cases l w : advance l w = w ∨ isLocked l (advance l w) = true.
Proof.
  unfold advance.
  destruct (advanceToNextTrack callDepth l w) as [w'|] eqn:E; [|by left].
  change (advanceBody (scheduleTrackAdvance 3) l w = Some w') in E.
  change (w' = w ∨ isLocked l w' = true).
  unfold advanceBody in E.
  destruct (findLobby l w) as [lobby|]; [|left; congruence].
  destruct (isLocked l w); [left; congruence|].
  destruct (queue lobby) as [|removed rest]; [left; congruence|].
  right. destruct rest as [|next rest].
  - injection E as <-.
    change (isLocked l (setLocks <[l := true]> w) = true). apply isLocked_insert.
  - cbv zeta in E.
    destruct (Date_now _) as [t w3] eqn:Enow.
    destruct (scheduleTrackAdvance 3 l _) as [w4|] eqn:Es; [|discriminate].
    injection E as <-. change (isLocked l w4 = true).
    refine (proj1 (fuel_keeps_lock l 3 l _ w4 _) Es).
    apply (f_equal snd) in Enow. simpl in Enow. subst w3. apply isLocked_insert.
Qed.

(** Inside an advance the scheduler's own call of [advanceToNextTrack]
    meets the lock that the advance has just set, and returns at once. *)
Lemma advance_blocked l w :
  advanceToNextTrack callDepth l w =
  advanceBody (scheduleBody (λ _ w', Some w')) l w.
Proof.
  change (advanceBody (scheduleTrackAdvance 3) l w =
          advanceBody (scheduleBody (λ _ w', Some w')) l w).
  apply advanceBody_ext. intros w' H.
  change (scheduleBody (advanceToNextTrack 2) l w' =
          scheduleBody (λ _ w'', Some w'') l w').
  apply scheduleBody_ext. intros w'' Hw''. apply advance_locked.
  unfold isLocked in *. by rewrite Hw''.
Qed.

Lemma onHead_ids f q :
  (∀ tr, track_id (f tr) = track_id tr) →
  List.map track_id (onHead f q) = List.map track_id q.
Proof. intros Hf. destruct q; simpl; by rewrite ?Hf. Qed.

Lemma queueIds_alterHead l0 l f w :
  (∀ tr, track_id (f tr) = track_id tr) →
  queueIds l0 (alterHead l f w) = queueIds l0 w.
Proof.
  intros Hf. unfold queueIds, alterHead.
  destruct (decide (l0 = l)) as [->|Hne].
  - rewrite queueOf_update by reflexivity. by apply onHead_ids.
  - by rewrite queueOf_update_ne.
Qed.

(** With its call of [advanceToNextTrack] blocked, the scheduler leaves the
    ids queued in every lobby as they are. *)
Lemma blocked_schedule_ids l0 l w w' :
  scheduleBody (λ _ w'', Some w'') l w = Some w' →
  queueIds l0 w' = queueIds l0 w.
Proof.
  apply (scheduleBody_preserves (λ w'', queueIds l0 w'' = queueIds l0 w));
    try (intros; assumption); try reflexivity.
  - intros l1 f w1 Hf H. by rewrite queueIds_alterHead.
  - intros w1 w2 H [= <-]. exact H.
Qed.

Lemma queueIds_dequeue l w :
  queueIds l (updateLobby l (withQueue tail) w) = tail (queueIds l w).
Proof.
  unfold queueIds. rewrite queueOf_update by reflexivity.
  by destruct (queueOf l w).
Qed.

(** One call of [advanceToNextTrack] changes nothing or removes exactly the
    head of the lobby's queue. *)
Lemma advance_ids l w :
  advance l w = w ∨ queueIds l (advance l w) = tail (queueIds l w).
Proof.
  unfold advance. rewrite advance_blocked. unfold advanceBody.
  destruct (findLobby l w) as [lobby|]; [|by left].
  destruct (isLocked l w); [by left|].
  destruct (queue lobby) as [|removed rest]; [by left|].
  pose proof (queueIds_dequeue l (setLocks <[l := true]> w)) as Hq.
  change (queueIds l (setLocks <[l := true]> w)) with (queueIds l w) in Hq.
  revert Hq. generalize (updateLobby l (withQueue tail) (setLocks <[l := true]> w)).
  intros w2 Hq. destruct rest as [|next rest].
  - right. exact Hq.
  - cbv zeta.
    assert (queueIds l (snd (Date_now w2)) = queueIds l w2) as Hn by reflexivity.
    destruct (Date_now w2) as [t w3]; simpl in Hn.
    destruct (scheduleBody _ l _) as [w4|] eqn:Es; [right|by left].
    apply (blocked_schedule_ids l) in Es.
    rewrite queueIds_alterHead in Es by reflexivity.
    change (queueIds l w4 = tail (queueIds l w)). by rewrite Es, Hn.
Qed.

(** ** The handlers that work on a queue

    What the clock, the timers, the locks, a change of some queue, an error
    message and a broadcast of the queue all keep is kept by
    [adicionar_faixa], [musica_terminou], [remover_faixa] and a firing
    timer. *)

Section QueueHandlers.
Variable P : World → Prop.

Hypothesis P_timers : ∀ f w, P w → P (setAdvanceTimers f w).
Hypothesis P_pending : ∀ f w, P w → P (setPending f w).
Hypothesis P_now : ∀ w, P w → P (snd (Date_now w)).
Hypothesis P_setTimeout : ∀ cb d w, P w → P (snd (setTimeout cb d w)).
Hypothesis P_lock : ∀ l w, P w → P (setLocks <[l := true]> w).
Hypothesis P_unlock : ∀ l w, P w → P (setLocks (delete l) w).
Hypothesis P_queue : ∀ l g w, P w → P (updateLobby l (withQueue g) w).
Hypothesis P_error : ∀ to text w, P w → P (emit to (erro_lobby text) w).
Hypothesis P_broadcast : ∀ to q w, P w → P (emit to (fila_atualizada q) w).

Lemma schedule_queue l w : P w → P (schedule l w).
Proof.
  apply schedule_preserves; auto; intros; by apply P_queue.
Qed.

Lemma advance_queue l w : P w → P (advance l w).
Proof.
  apply advance_preserves; auto; intros; by apply P_queue.
Qed.

Lemma adicionar_faixa_queue s tr w : P w → P (adicionar_faixa s tr w).
Proof.
  intros H. unfold adicionar_faixa.
  destruct (findLobbyAndUser s w) as [[lobby user]|]; auto.
  destruct (negb (isDj (role user))); auto.
  destruct (List.existsb _ (queue lobby)); auto.
  apply P_broadcast. destruct (Nat.eqb _ 1); [|by apply P_queue].
  apply schedule_queue, P_queue.
  apply (P_now (updateLobby _ _ w)). by apply P_queue.
Qed.

Lemma musica_terminou_queue s w : P w → P (musica_terminou s w).
Proof.
  intros H. unfold musica_terminou.
  destruct (findLobbyAndUser s w) as [[lobby user]|]; auto.
  destruct (lobbyAdvanceTimers w !! lobby_id lobby); auto.
  by apply advance_queue.
Qed.

Lemma remover_faixa_queue s i w : P w → P (remover_faixa s i w).
Proof.
  intros H. unfold remover_faixa.
  destruct (findLobbyAndUser s w) as [[lobby user]|]; auto.
  destruct (negb (isDj (role user))); auto.
  apply P_broadcast. destruct (_ && _); [|by apply P_queue].
  destruct (Date_now _) as [t w'] eqn:En.
  assert (P w') as H'.
  { apply (f_equal snd) in En. simpl in En. subst w'.
    apply (P_now (updateLobby _ _ w)). by apply P_queue. }
  apply schedule_queue.
  destruct (lobbyAdvanceTimers _ !! _); [apply P_pending|]; by apply P_queue.
Qed.

Lemma timerFires_queue h w : P w → P (timerFires h w).
Proof.
  intros H. unfold timerFires.
  destruct (List.find _ (pending w)) as [t|]; auto.
  destruct (now w <? due t); auto.
  destruct (action t) as [l|l]; [|apply P_unlock; by apply P_pending].
  apply P_timers, advance_queue. by apply P_pending.
Qed.
End QueueHandlers.

(** ** Properties that do not look at the registry

    A property kept by the clock, the timers, the setting of a lock, the
    outbox and any change of [lobbies] is kept by the six socket handlers:
    none of them releases a lock. *)

Section SocketHandlers.
Variable P : World → Prop.

Hypothesis P_timers : ∀ f w, P w → P (setAdvanceTimers f w).
Hypothesis P_pending : ∀ f w, P w → P (setPending f w).
Hypothesis P_now : ∀ w, P w → P (snd (Date_now w)).
Hypothesis P_setTimeout : ∀ cb d w, P w → P (snd (setTimeout cb d w)).
Hypothesis P_lock : ∀ l w, P w → P (setLocks <[l := true]> w).
Hypothesis P_lobbies : ∀ f w, P w → P (setLobbies f w).
Hypothesis P_emit : ∀ to m w, P w → P (emit to m w).

Lemma schedule_frame l w : P w → P (schedule l w).
Proof.
  apply schedule_queue; auto; intros; first [by apply P_lobbies|by apply P_emit].
Qed.

Lemma advance_frame l w : P w → P (advance l w).
Proof.
  apply advance_queue; auto; intros; first [by apply P_lobbies|by apply P_emit].
Qed.

Lemma criar_lobby_frame s l n w : P w → P (criar_lobby s l n w).
Proof. intros H. unfold criar_lobby. destruct (blank n); auto. Qed.

Lemma entrar_lobby_frame s l n w : P w → P (entrar_lobby s l n w).
Proof.
  intros H. unfold entrar_lobby.
  destruct (blank l); auto. destruct (blank n); auto.
  destruct (findLobby (trim l) w); [|destruct (List.existsb _ inherited); auto].
  apply P_emit, P_emit. by apply P_lobbies.
Qed.

Lemma adicionar_faixa_frame s tr w : P w → P (adicionar_faixa s tr w).
Proof.
  apply adicionar_faixa_queue; auto; intros; first [by apply P_lobbies|by apply P_emit].
Qed.

Lemma musica_terminou_frame s w : P w → P (musica_terminou s w).
Proof.
  apply musica_terminou_queue; auto; intros; first [by apply P_lobbies|by apply P_emit].
Qed.

Lemma remover_faixa_frame s i w : P w → P (remover_faixa s i w).
Proof.
  apply remover_faixa_queue; auto; intros; first [by apply P_lobbies|by apply P_emit].
Qed.

Lemma disconnect_frame s w : P w → P (disconnect s w).
Proof.
  intros H. unfold disconnect.
  destruct (findLobbyAndUser s w) as [[lobby user]|]; auto.
  assert (∀ w', P w' → P (cancelTimer (lobby_id lobby) w')) as Hc.
  { intros w' H'. unfold cancelTimer.
    destruct (lobbyAdvanceTimers w' !! lobby_id lobby); auto.
    apply P_timers. by apply P_pending. }
  destruct (Nat.eqb _ 0); [apply P_lobbies|]; apply Hc, P_emit;
    by apply P_lobbies.
Qed.
End SocketHandlers.

(** A lock stays set as long as no timer fires. *)
Lemma step_keeps_lock l e w :
  notTimer e = true → isLocked l w = true → isLocked l (step e w) = true.
Proof.
  intros He H.
  assert (∀ l' w', isLocked l w' = true →
            isLocked l (setLocks <[l' := true]> w') = true) as Hset
    by (intros; by apply isLocked_set).
  destruct e; simpl; try discriminate.
  - apply (criar_lobby_frame (λ w, isLocked l w = true)); auto.
  - apply (entrar_lobby_frame (λ w, isLocked l w = true)); auto.
  - apply (adicionar_faixa_frame (λ w, isLocked l w = true)); auto.
  - apply (musica_terminou_frame (λ w, isLocked l w = true)); auto.
  - apply (remover_faixa_frame (λ w, isLocked l w = true)); auto.
  - apply (disconnect_frame (λ w, isLocked l w = true)); auto.
  - exact H.
Qed.

Lemma exec_keeps_lock l run w :
  forallb notTimer run = true → isLocked l w = true →
  isLocked l (exec run w) = true.
Proof.
  revert w. induction run as [|e run IH]; intros w Hrun H; [exact H|].
  simpl in Hrun. apply andb_prop in Hrun as [He Hrun].
  simpl. apply IH; [exact Hrun|]. by apply step_keeps_lock.
Qed.

(** C1. When the lobby's lock in [lobbyProcessingLocks] is set,
    [advanceToNextTrack(lobbyId)] returns the world as it found it: the
    queue, both maps, the pending timers and the outbox are the same.
    Hence a second call that follows a first one does nothing, the two
    calls together remove at most the head of the queue, and after a call
    that had an effect every later call for the lobby does nothing as long
    as no timer has fired (the lock is released by a timer, one second
    later), whatever the sockets send in between. *)
Theorem advance_guard_absorbs_duplicate (lobbyId : string) (w : World) :
  (isLocked lobbyId w = true → advance lobbyId w = w) ∧
  advance lobbyId (advance lobbyId w) = advance lobbyId w ∧
  (queueIds lobbyId (advance lobbyId (advance lobbyId w)) = queueIds lobbyId w ∨
   queueIds lobbyId (advance lobbyId (advance lobbyId w)) =
     tail (queueIds lobbyId w)) ∧
  (∀ run, forallb notTimer run = true → advance lobbyId w ≠ w →
     advance lobbyId (exec run (advance lobbyId w)) = exec run (advance lobbyId w)).
Proof.
  assert (advance lobbyId (advance lobbyId w) = advance lobbyId w) as Hidem.
  { destruct (advance_cases lobbyId w) as [E|E].
    - by rewrite !E.
    - by apply advance_locked_id. }
  split; [apply advance_locked_id|]. split; [exact Hidem|].
  split.
  - rewrite Hidem. destruct (advance_ids lobbyId w) as [E|E].
    + left. by rewrite E.
    + by right.
  - intros run Hrun Hne. apply advance_locked_id, exec_keeps_lock; [exact Hrun|].
    by destruct (advance_cases lobbyId w).
Qed.

(** ** The fallback signal *)

(** What the handler of [musica_terminou] looks at is the handle stored
    for the lobby in [lobbyAdvanceTimers]: with one stored, the signal
    changes nothing (no state change, nothing emitted); with none, it is
    exactly a call of [advanceToNextTrack] for that lobby. A timer that is
    pending while its handle is not stored is not seen. *)
Lemma fallback_tests_the_stored_handle
  (socketId : string) (w : World) (lobby : Lobby) (user : User) :
  findLobbyAndUser socketId w = Some (lobby, user) →
  (is_Some (lobbyAdvanceTimers w !! lobby_id lobby) →
     musica_terminou socketId w = w) ∧
  (lobbyAdvanceTimers w !! lobby_id lobby = None →
     musica_terminou socketId w = advance (lobby_id lobby) w).
Proof.
  intros Hfind. unfold musica_terminou. rewrite Hfind. split.
  - intros [h Hh]. by rewrite Hh.
  - intros Hnone. by rewrite Hnone.
Qed.

(** ** Arming a timer *)

Lemma queueOf_cancel l0 l w : queueOf l0 (cancelTimer l w) = queueOf l0 w.
Proof. unfold cancelTimer. destruct (lobbyAdvanceTimers w !! l); reflexivity. Qed.

Lemma reading_cancel l w : fst (Date_now (cancelTimer l w)) = fst (Date_now w).
Proof. unfold cancelTimer. destruct (lobbyAdvanceTimers w !! l); reflexivity. Qed.

Lemma nextHandle_cancel l w : nextHandle (cancelTimer l w) = nextHandle w.
Proof. unfold cancelTimer. destruct (lobbyAdvanceTimers w !! l); reflexivity. Qed.

Lemma schedule_arms l w tr st :
  head (queueOf l w) = Some tr →
  startTime tr = Some st → st ≠ 0 →
  fst (Date_now w) - st < effectiveDuration tr * 1000 →
  schedule l w =
  setAdvanceTimers <[l := nextHandle w]>
    (snd (setTimeout (AdvanceCb l) (effectiveDuration tr * 1000 - (fst (Date_now w) - st))
       (snd (Date_now (snd (ensureDuration l tr (cancelTimer l w))))))).
Proof.
  intros Hhead Hst Hnz Hlt. unfold schedule, callDepth.
  change (scheduleTrackAdvance 4) with (scheduleBody (advanceToNextTrack 3)).
  unfold scheduleBody.
  rewrite queueOf_cancel, Hhead.
  assert (lacksStartTime tr = false) as Hl.
  { unfold lacksStartTime. rewrite Hst. by apply Z.eqb_neq. }
  unfold ensureStartTime. rewrite Hl, Hst.
  pose proof (reading_cancel l w) as Ht.
  pose proof (nextHandle_cancel l w) as Hn.
  revert Ht Hn. generalize (cancelTimer l w). intros w1 Ht Hn.
  assert (∀ d w2,
    fst (Date_now w2) = fst (Date_now w) → nextHandle w2 = nextHandle w →
    d = effectiveDuration tr →
    default w
      (let (t, w4) := Date_now w2 in
       if 0 `max` (d * 1000 - (t - default 0 (Some st))) <=? 0
       then advanceToNextTrack 3 l w4
       else
         let (timer, w5) :=
           setTimeout (AdvanceCb l)
             (0 `max` (d * 1000 - (t - default 0 (Some st)))) w4 in
         Some (setAdvanceTimers <[l:=timer]> w5)) =
    setAdvanceTimers <[l:=nextHandle w]>
      (snd (setTimeout (AdvanceCb l)
         (effectiveDuration tr * 1000 - (fst (Date_now w) - st))
         (snd (Date_now w2))))) as Hgen.
  { intros d w2 Ht2 Hn2 ->. 
    destruct (Date_now w2) as [t w4] eqn:En.
    assert (nextHandle w4 = nextHandle w) as Hn4.
    { apply (f_equal snd) in En. simpl in En. subst w4. exact Hn2. }
    cbn [fst] in Ht2. subst t. cbn [default].
    unfold id. rewrite Z.max_r by lia.
    destruct (Z.leb_spec (effectiveDuration tr * 1000 - ((Date_now w).1 - st)) 0) as [Hle|_];
      [lia|].
    unfold setTimeout. cbn [fst snd default]. by rewrite Hn4. }
  unfold ensureDuration, effectiveDuration in *.
  destruct (lacksDuration tr); apply Hgen; auto.
Qed.

Lemma queueOf_ensureDuration l tr w :
  queueOf l (snd (ensureDuration l tr w)) =
  if lacksDuration tr then onHead (withDuration 240) (queueOf l w) else queueOf l w.
Proof.
  unfold ensureDuration. destruct (lacksDuration tr); [|reflexivity].
  apply queueOf_update. reflexivity.
Qed.

Lemma schedule_arms_obs l w tr st :
  head (queueOf l w) = Some tr →
  startTime tr = Some st → st ≠ 0 →
  fst (Date_now w) - st < effectiveDuration tr * 1000 →
  effectiveDuration tr * 1000 - (fst (Date_now w) - st) ≤ TIMEOUT_MAX →
  queueOf l (schedule l w) = onHead repairDuration (queueOf l w) ∧
  lobbyAdvanceTimers (schedule l w) !! l = Some (nextHandle w) ∧
  In (mkTimer (nextHandle w) (st + effectiveDuration tr * 1000) (AdvanceCb l))
     (pending (schedule l w)).
Proof.
  intros Hhead Hst Hnz Hlt Hmax. rewrite (schedule_arms l w tr st) by assumption.
  split; [|split].
  - change (queueOf l (snd (ensureDuration l tr (cancelTimer l w))) =
            onHead repairDuration (queueOf l w)).
    rewrite queueOf_ensureDuration, queueOf_cancel.
    destruct (queueOf l w) as [|tr' q]; [discriminate|].
    injection Hhead as ->. unfold repairDuration. simpl.
    by destruct (lacksDuration tr).
  - simpl. apply lookup_insert_eq.
  - cbn [pending setAdvanceTimers setTimeout snd].
    apply in_or_app. right. left.
    assert (nextHandle (snd (Date_now (snd (ensureDuration l tr (cancelTimer l w))))) =
            nextHandle w) as ->.
    { rewrite <- (nextHandle_cancel l w). unfold ensureDuration.
      by destruct (lacksDuration tr). }
    assert (now (snd (Date_now (snd (ensureDuration l tr (cancelTimer l w))))) =
            fst (Date_now w)) as ->.
    { rewrite <- (reading_cancel l w). unfold ensureDuration.
      by destruct (lacksDuration tr). }
    assert ((1 <=? effectiveDuration tr * 1000 - (fst (Date_now w) - st)) &&
            (effectiveDuration tr * 1000 - (fst (Date_now w) - st) <=? TIMEOUT_MAX) = true)
      as ->.
    { apply andb_true_intro. split; apply Z.leb_le; lia. }
    f_equal. lia.
Qed.

Lemma lacks_withStartTime t tr :
  effectiveDuration (withStartTime t tr) = effectiveDuration tr ∧
  repairDuration (withStartTime t tr) = withStartTime t (repairDuration tr).
Proof.
  unfold effectiveDuration, repairDuration.
  change (lacksDuration (withStartTime t tr)) with (lacksDuration tr).
  by destruct (lacksDuration tr).
Qed.

(** ** Queued ids are distinct *)

Lemma sound_initial : sound initial.
Proof. split; constructor. Qed.

Lemma sound_update_queue l g w :
  (∀ L, In L (lobbies w) → lobby_id L = l →
        distinctIds (queue L) → distinctIds (g (queue L))) →
  sound w → sound (updateLobby l (withQueue g) w).
Proof.
  intros Hg [Hreg Hq]. split; simpl.
  - by rewrite ids_update.
  - apply List.Forall_forall. intros L' HL'.
    apply List.in_map_iff in HL' as (L & <- & HL).
    pose proof (proj1 (List.Forall_forall _ _) Hq L HL) as HqL.
    destruct (hasId l L) eqn:E; [|exact HqL].
    apply hasId_eq in E. by apply Hg.
Qed.

Lemma sound_update_users l g w :
  sound w → sound (updateLobby l (withUsers g) w).
Proof.
  intros [Hreg Hq]. split; simpl.
  - by rewrite ids_update.
  - apply List.Forall_forall. intros L' HL'.
    apply List.in_map_iff in HL' as (L & <- & HL).
    pose proof (proj1 (List.Forall_forall _ _) Hq L HL) as HqL.
    by destruct (hasId l L).
Qed.

Lemma putLobby_In L L' ls : In L' (putLobby L ls) → L' = L ∨ In L' ls.
Proof.
  induction ls as [|L0 ls IH]; simpl.
  - intros [<-|[]]. by left.
  - destruct (hasId (lobby_id L) L0); simpl.
    + intros [<-|H]; auto.
    + intros [<-|H]; auto. destruct (IH H); auto.
Qed.

Lemma putLobby_ids L ls :
  List.NoDup (List.map lobby_id ls) →
  List.NoDup (List.map lobby_id (putLobby L ls)).
Proof.
  induction ls as [|L0 ls IH]; simpl; intros Hnd.
  - constructor; [intros []|constructor].
  - apply List.NoDup_cons_iff in Hnd as [Hnot Hnd].
    destruct (hasId (lobby_id L) L0) eqn:E; simpl.
    + apply hasId_eq in E. constructor; [by rewrite <- E|exact Hnd].
    + constructor; [|by apply IH].
      intros Hin. apply List.in_map_iff in Hin as (L' & Hid & HL').
      apply putLobby_In in HL' as [->|HL'].
      * assert (hasId (lobby_id L) L0 = true) by (by apply hasId_eq).
        congruence.
      * apply Hnot. apply List.in_map_iff. eauto.
Qed.

Lemma sound_put L w :
  distinctIds (queue L) → sound w → sound (setLobbies (putLobby L) w).
Proof.
  intros HL [Hreg Hq]. split; simpl.
  - by apply putLobby_ids.
  - apply List.Forall_forall. intros L' HL'.
    apply putLobby_In in HL' as [->|HL']; [exact HL|].
    by apply (proj1 (List.Forall_forall _ _) Hq).
Qed.

Lemma NoDup_map_filter {A B} (f : A → B) (p : A → bool) (ls : list A) :
  List.NoDup (List.map f ls) → List.NoDup (List.map f (List.filter p ls)).
Proof.
  induction ls as [|a ls IH]; simpl; intros Hnd; [constructor|].
  apply List.NoDup_cons_iff in Hnd as [Hnot Hnd].
  destruct (p a); simpl; [|by apply IH].
  constructor; [|by apply IH].
  intros Hin. apply Hnot. apply List.in_map_iff in Hin as (x & Hx & Hin).
  apply List.filter_In in Hin as [Hin _]. apply List.in_map_iff. eauto.
Qed.

Lemma sound_delete l w : sound w → sound (deleteLobby l w).
Proof.
  intros [Hreg Hq]. split; simpl.
  - by apply NoDup_map_filter.
  - apply List.Forall_forall. intros L HL. apply List.filter_In in HL as [HL _].
    by apply (proj1 (List.Forall_forall _ _) Hq).
Qed.

Lemma distinct_tail q : distinctIds q → distinctIds (tail q).
Proof.
  unfold distinctIds. destruct q as [|t q]; simpl; [auto|].
  intros H. by apply List.NoDup_cons_iff in H as [_ H].
Qed.

Lemma sound_alterHead l f w :
  (∀ tr, track_id (f tr) = track_id tr) → sound w → sound (alterHead l f w).
Proof.
  intros Hf. apply sound_update_queue. intros L _ _.
  unfold distinctIds. by rewrite onHead_ids.
Qed.

Lemma sound_schedule l w : sound w → sound (schedule l w).
Proof.
  apply schedule_preserves; try (intros; assumption).
  - intros. by apply sound_alterHead.
  - intros l' w' H. apply sound_update_queue; [|exact H].
    intros L _ _. apply distinct_tail.
Qed.

Lemma sound_advance l w : sound w → sound (advance l w).
Proof.
  apply advance_preserves; try (intros; assumption).
  - intros. by apply sound_alterHead.
  - intros l' w' H. apply sound_update_queue; [|exact H].
    intros L _ _. apply distinct_tail.
Qed.

Lemma findIn_In s ls L u : findIn s ls = Some (L, u) → In L ls.
Proof.
  induction ls as [|L0 ls IH]; simpl; [discriminate|].
  destruct (List.find _ (users L0)).
  - intros [= <- <-]. by left.
  - intros H. right. by apply IH.
Qed.

Lemma same_id_same_lobby ls (a b : Lobby) :
  List.NoDup (List.map lobby_id ls) →
  In a ls → In b ls → lobby_id a = lobby_id b → a = b.
Proof.
  induction ls as [|L ls IH]; simpl; [intros _ []|].
  intros Hnd. apply List.NoDup_cons_iff in Hnd as [Hnot Hnd].
  intros [->|Ha] [->|Hb] Hid; auto.
  - exfalso. apply Hnot. rewrite Hid. by apply List.in_map.
  - exfalso. apply Hnot. rewrite <- Hid. by apply List.in_map.
Qed.

Lemma distinct_snoc q tr :
  List.existsb (λ t, String.eqb (track_id t) (track_id tr)) q = false →
  distinctIds q → distinctIds (q ++ [tr]).
Proof.
  unfold distinctIds. intros Hnew Hq. rewrite List.map_app. simpl.
  apply List.NoDup_app; [exact Hq|constructor; [intros []|constructor]|].
  intros i Hi [<-|[]].
  apply List.in_map_iff in Hi as (t & Ht & Hin).
  assert (List.existsb (λ t, String.eqb (track_id t) (track_id tr)) q = true)
    as Habs.
  { apply List.existsb_exists. exists t. split; [exact Hin|].
    by apply String.eqb_eq. }
  congruence.
Qed.

Lemma sound_criar_lobby s l n w : sound w → sound (criar_lobby s l n w).
Proof.
  intros H. unfold criar_lobby. destruct (blank n); [exact H|].
  apply (sound_put (mkLobby l [mkUser s (trim n) dj] []) w); [constructor|exact H].
Qed.

Lemma sound_entrar_lobby s l n w : sound w → sound (entrar_lobby s l n w).
Proof.
  intros H. unfold entrar_lobby.
  destruct (blank l); [exact H|]. destruct (blank n); [exact H|].
  destruct (findLobby (trim l) w) as [lobby|];
    [|by destruct (List.existsb _ inherited)].
  exact (sound_update_users (lobby_id lobby) _ w H).
Qed.

Lemma sound_adicionar_faixa s tr w : sound w → sound (adicionar_faixa s tr w).
Proof.
  intros H. unfold adicionar_faixa.
  destruct (findLobbyAndUser s w) as [[lobby user]|] eqn:Hfind; [|exact H].
  destruct (negb (isDj (role user))); [exact H|].
  destruct (List.existsb _ (queue lobby)) eqn:Hnew; [exact H|].
  cbv zeta.
  assert (sound (updateLobby (lobby_id lobby) (withQueue (λ q, q ++ [tr])) w)) as H1.
  { apply sound_update_queue; [|exact H].
    intros L HL Hid _.
    assert (L = lobby) as ->.
    { apply (same_id_same_lobby (lobbies w)); [apply H|exact HL| |exact Hid].
      by apply findIn_In in Hfind. }
    apply distinct_snoc; [exact Hnew|].
    apply (proj1 (List.Forall_forall _ _) (proj2 H)). by apply findIn_In in Hfind. }
  destruct (Nat.eqb _ 1); [|exact H1].
  apply (sound_schedule (lobby_id lobby)
           (alterHead (lobby_id lobby) (withStartTime _) (snd (Date_now _)))).
  apply sound_alterHead; [reflexivity|exact H1].
Qed.

Lemma sound_musica_terminou s w : sound w → sound (musica_terminou s w).
Proof.
  intros H. unfold musica_terminou.
  destruct (findLobbyAndUser s w) as [[lobby user]|]; [|exact H].
  destruct (lobbyAdvanceTimers w !! lobby_id lobby); [exact H|].
  by apply sound_advance.
Qed.

Lemma distinct_filter p q : distinctIds q → distinctIds (List.filter p q).
Proof. apply NoDup_map_filter. Qed.

Lemma sound_remover_faixa s i w : sound w → sound (remover_faixa s i w).
Proof.
  intros H. unfold remover_faixa.
  destruct (findLobbyAndUser s w) as [[lobby user]|]; [|exact H].
  destruct (negb (isDj (role user))); [exact H|].
  cbv zeta.
  assert (sound (updateLobby (lobby_id lobby)
            (withQueue (List.filter (λ t, negb (String.eqb (track_id t) i)))) w)) as H1.
  { apply sound_update_queue; [|exact H]. intros L _ _. apply distinct_filter. }
  destruct (_ && _); [|exact H1].
  destruct (Date_now _) as [t w'] eqn:En.
  assert (sound w') as H'.
  { apply (f_equal snd) in En. simpl in En. by subst w'. }
  change (sound (schedule (lobby_id lobby)
            match lobbyAdvanceTimers (alterHead (lobby_id lobby) (withStartTime t) w')
                    !! lobby_id lobby with
            | Some existingTimer =>
                clearTimeout existingTimer
                  (alterHead (lobby_id lobby) (withStartTime t) w')
            | None => alterHead (lobby_id lobby) (withStartTime t) w'
            end)).
  apply sound_schedule.
  assert (sound (alterHead (lobby_id lobby) (withStartTime t) w')) as H2
    by (by apply sound_alterHead).
  by destruct (lobbyAdvanceTimers _ !! _).
Qed.

Lemma sound_cancelTimer l w : sound w → sound (cancelTimer l w).
Proof. unfold cancelTimer. by destruct (lobbyAdvanceTimers w !! l). Qed.

Lemma sound_disconnect s w : sound w → sound (disconnect s w).
Proof.
  intros H. unfold disconnect.
  destruct (findLobbyAndUser s w) as [[lobby user]|]; [|exact H].
  cbv zeta.
  assert (sound (cancelTimer (lobby_id lobby)
            (emit (ToRoomExcept (lobby_id lobby) s) (usuario_saiu user)
               (updateLobby (lobby_id lobby)
                  (withUsers (List.filter
                     (λ u, negb (String.eqb (user_id u) (user_id user))))) w)))) as H1.
  { apply sound_cancelTimer.
    exact (sound_update_users (lobby_id lobby) _ w H). }
  destruct (Nat.eqb _ 0); [|exact H1]. by apply sound_delete.
Qed.

Lemma sound_timerFires h w : sound w → sound (timerFires h w).
Proof.
  intros H. unfold timerFires.
  destruct (List.find _ (pending w)) as [t|]; [|exact H].
  destruct (now w <? due t); [exact H|].
  destruct (action t) as [l|l]; [|exact H].
  exact (sound_advance l (clearTimeout h w) H).
Qed.

Lemma sound_step e w : sound w → sound (step e w).
Proof.
  intros H. destruct e; simpl.
  - by apply sound_criar_lobby.
  - by apply sound_entrar_lobby.
  - by apply sound_adicionar_faixa.
  - by apply sound_musica_terminou.
  - by apply sound_remover_faixa.
  - by apply sound_disconnect.
  - by apply sound_timerFires.
  - exact H.
Qed.

Lemma sound_exec run w : sound w → sound (exec run w).
Proof.
  revert w. induction run as [|e run IH]; intros w H; [exact H|].
  simpl. apply IH. by apply sound_step.
Qed.

Lemma find_registered ls l L :
  List.NoDup (List.map lobby_id ls) → In L ls → lobby_id L = l →
  List.find (hasId l) ls = Some L.
Proof.
  intros Hnd HL Hid.
  destruct (List.find (hasId l) ls) as [L'|] eqn:E.
  - apply List.find_some in E as [HL' E]. apply hasId_eq in E.
    f_equal. apply (same_id_same_lobby ls); auto. congruence.
  - exfalso. apply (List.find_none _ _ E) in HL.
    assert (hasId l L = true) by (by apply hasId_eq). congruence.
Qed.

(** In a sound world the lobby found for a socket is the one registered
    under its id. *)
Lemma found_is_registered s w L u :
  sound w → findLobbyAndUser s w = Some (L, u) →
  findLobby (lobby_id L) w = Some L.
Proof.
  intros [Hreg _] Hfind. apply find_registered; [exact Hreg| |reflexivity].
  by apply findIn_In in Hfind.
Qed.

Lemma schedule_keeps_out l0 i l w :
  ¬ In i (queueIds l0 w) → ¬ In i (queueIds l0 (schedule l w)).
Proof.
  apply (schedule_preserves (λ w', ¬ In i (queueIds l0 w')));
    try (intros; assumption).
  - intros l1 f w1 Hf H. by rewrite queueIds_alterHead.
  - intros l1 w1 H. destruct (decide (l0 = l1)) as [->|Hne].
    + rewrite queueIds_dequeue. intros Hin. apply H.
      destruct (queueIds l1 w1); [exact Hin|by right].
    + unfold queueIds. by rewrite queueOf_update_ne.
Qed.

Lemma filter_out_ids i q :
  ¬ In i (List.map track_id
            (List.filter (λ t, negb (String.eqb (track_id t) i)) q)).
Proof.
  intros Hin. apply List.in_map_iff in Hin as (t & Hid & Hin).
  apply List.filter_In in Hin as [_ Hne].
  apply negb_true_iff, String.eqb_neq in Hne. congruence.
Qed.

(** C10. From the empty registry, whatever the sockets send and whichever
    timers fire, no queue ever holds two tracks with one id. The three
    operations on a queue are as the claim describes them: a dj's
    [adicionar_faixa] of an id already queued only sends the error to the
    sender; after a dj's [remover_faixa] no track of the lobby carries the
    id; [advanceToNextTrack] changes nothing or drops exactly the head. *)
Theorem queued_ids_stay_distinct (run : list Event) :
  Forall (λ L, List.NoDup (List.map track_id (queue L)))
         (lobbies (exec run initial)) ∧
  (∀ s tr w lobby user,
     findLobbyAndUser s w = Some (lobby, user) → role user = dj →
     List.existsb (λ t, String.eqb (track_id t) (track_id tr)) (queue lobby) = true →
     adicionar_faixa s tr w =
       emit (ToSocket s) (erro_lobby "Esta música já está na fila.") w) ∧
  (∀ s i w lobby user,
     findLobbyAndUser s w = Some (lobby, user) → role user = dj →
     ¬ In i (queueIds (lobby_id lobby) (remover_faixa s i w))) ∧
  (∀ l w, advance l w = w ∨ queueIds l (advance l w) = tail (queueIds l w)).
Proof.
  split; [apply (sound_exec run initial sound_initial)|]. split; [|split].
  - intros s tr w lobby user Hfind Hrole Hdup.
    unfold adicionar_faixa. by rewrite Hfind, Hrole, Hdup.
  - intros s i w lobby user Hfind Hrole.
    unfold remover_faixa. rewrite Hfind, Hrole. cbn [isDj negb]. cbv zeta.
    change (queueIds (lobby_id lobby) (emit ?t ?m ?w')) with
      (queueIds (lobby_id lobby) w').
    assert (¬ In i (queueIds (lobby_id lobby)
              (updateLobby (lobby_id lobby)
                 (withQueue (List.filter (λ t, negb (String.eqb (track_id t) i)))) w)))
      as H1.
    { unfold queueIds. rewrite queueOf_update by reflexivity.
      apply filter_out_ids. }
    destruct (_ && _); [|exact H1].
    destruct (Date_now _) as [t w'] eqn:En.
    assert (¬ In i (queueIds (lobby_id lobby) w')) as H'.
    { apply (f_equal snd) in En. simpl in En. by subst w'. }
    apply schedule_keeps_out.
    assert (¬ In i (queueIds (lobby_id lobby)
                      (alterHead (lobby_id lobby) (withStartTime t) w'))) as H2
      by (by rewrite queueIds_alterHead).
    by destruct (lobbyAdvanceTimers _ !! _).
  - apply advance_ids.
Qed.

(** ** Runs and the registry, once more *)

Lemma exec_snoc run e w : exec (run ++ [e]) w = step e (exec run w).
Proof. unfold exec. by rewrite fold_left_app. Qed.

Lemma lobbies_cancelTimer l w : lobbies (cancelTimer l w) = lobbies w.
Proof. unfold cancelTimer. by destruct (lobbyAdvanceTimers w !! l). Qed.

Lemma findLobby_cancel l l' w : findLobby l (cancelTimer l' w) = findLobby l w.
Proof. unfold cancelTimer. by destruct (lobbyAdvanceTimers w !! l'). Qed.

Lemma find_delete l0 l ls :
  List.find (hasId l0) (List.filter (λ L, negb (hasId l L)) ls) =
  if String.eqb l0 l then None else List.find (hasId l0) ls.
Proof.
  induction ls as [|L ls IH]; simpl; [by destruct (String.eqb l0 l)|].
  destruct (hasId l L) eqn:El; simpl.
  - rewrite IH. destruct (String.eqb l0 l) eqn:E; [reflexivity|].
    destruct (hasId l0 L) eqn:E0; [|reflexivity].
    apply hasId_eq in El, E0. apply String.eqb_neq in E. congruence.
  - destruct (hasId l0 L) eqn:E0; [|exact IH].
    destruct (String.eqb l0 l) eqn:E; [|reflexivity].
    apply String.eqb_eq in E. subst l0. congruence.
Qed.

Lemma findIn_user s ls L u : findIn s ls = Some (L, u) → user_id u = s ∧ In u (users L).
Proof.
  induction ls as [|L0 ls IH]; simpl; [discriminate|].
  destruct (List.find _ (users L0)) as [u0|] eqn:E.
  - intros [= <- <-]. apply List.find_some in E as [Hin E].
    by apply String.eqb_eq in E.
  - exact IH.
Qed.

(** ** The first track of a queue *)

Lemma advance_at_depth l w : advanceToNextTrack 3 l w = Some (advance l w).
Proof.
  rewrite <- (advance_depth 1 l w). exact (proj2 (fuel_suffices 0 l w)).
Qed.

(** [scheduleTrackAdvance] on a queue that has a head: the two repairs,
    the reading of the clock, and then either the advance or a timer for
    the time that remains. *)
Lemma schedule_on_head l w tr :
  head (queueOf l w) = Some tr →
  let w2 := snd (ensureDuration l tr (cancelTimer l w)) in
  let st := fst (ensureStartTime l tr w2) in
  let w3 := snd (ensureStartTime l tr w2) in
  let t := fst (Date_now w3) in
  let w4 := snd (Date_now w3) in
  let remaining := effectiveDuration tr * 1000 - (t - st) in
  schedule l w =
    if remaining <=? 0 then advance l w4
    else setAdvanceTimers <[l := nextHandle w4]>
           (snd (setTimeout (AdvanceCb l) remaining w4)).
Proof.
  intros Hhead. cbv zeta. unfold schedule, callDepth.
  change (scheduleTrackAdvance 4) with (scheduleBody (advanceToNextTrack 3)).
  unfold scheduleBody. rewrite queueOf_cancel, Hhead.
  assert (fst (ensureDuration l tr (cancelTimer l w)) = effectiveDuration tr) as Hd.
  { unfold ensureDuration, effectiveDuration. by destruct (lacksDuration tr). }
  destruct (ensureDuration l tr (cancelTimer l w)) as [d w2]. cbn [fst snd] in *. subst d.
  destruct (ensureStartTime l tr w2) as [st w3]. cbn [fst snd].
  destruct (Date_now w3) as [t w4]. cbn [fst snd].
  destruct (Z.leb_spec (effectiveDuration tr * 1000 - (t - st)) 0) as [Hle|Hgt].
  - rewrite Z.max_l by lia. cbn [Z.leb Z.compare]. rewrite advance_at_depth. reflexivity.
  - rewrite Z.max_r by lia.
    destruct (Z.leb_spec (effectiveDuration tr * 1000 - (t - st)) 0); [lia|].
    reflexivity.
Qed.

Lemma Date_now_reads w w' :
  clock w = clock w' → now w = now w' →
  fst (Date_now w) = fst (Date_now w') ∧
  clock (snd (Date_now w)) = clock (snd (Date_now w')) ∧
  now (snd (Date_now w)) = now (snd (Date_now w')).
Proof. unfold Date_now. simpl. by intros -> ->. Qed.

(** The advance of a queue of one track: the lock, an empty queue told to
    the room, and the release of the lock; no timer is armed. *)
Lemma advance_last l w L tr :
  findLobby l w = Some L → isLocked l w = false → queue L = [tr] →
  advance l w =
  (let w2 := updateLobby l (withQueue tail) (setLocks <[l := true]> w) in
   snd (setTimeout (UnlockCb l) 1000
          (emit (ToRoom l) (fila_atualizada (queueOf l w2)) w2))).
Proof.
  intros Hfind Hlock Hq. unfold advance. rewrite advance_blocked. unfold advanceBody.
  by rewrite Hfind, Hlock, Hq.
Qed.

(** C7, as the code has it. A dj's [adicionar_faixa] of a track whose id
    is not queued, in a state the process reaches. When the queue was not
    empty the track goes to its tail and nothing else changes: no timer is
    touched. When it was empty the track is stamped with the instant the
    clock shows ([stamp]: a reading of 0 is no start time to the
    scheduler, which then reads the clock again), and the scheduler reads
    the clock ([read]) to see what remains of it. With time remaining,
    within the range of a Node timer, the track is the head of the queue
    and a timer that calls the advance is pending for [stamp] plus the
    duration (240 seconds when the track brings none), its handle stored
    for the lobby. With no time remaining the scheduler calls the advance
    instead, which, the lobby not being locked, takes the track off the
    queue at once and arms no timer. *)
Theorem adicionar_faixa_appends_and_arms
  (run : list Event) (socketId : string) (track : Track) (lobby : Lobby) (user : User) :
  let w := exec run initial in
  findLobbyAndUser socketId w = Some (lobby, user) →
  role user = dj →
  List.existsb (λ t, String.eqb (track_id t) (track_id track)) (queue lobby) = false →
  let lobbyId := lobby_id lobby in
  let w' := adicionar_faixa socketId track w in
  (queue lobby ≠ [] →
     queueOf lobbyId w' = queue lobby ++ [track] ∧
     lobbyAdvanceTimers w' = lobbyAdvanceTimers w ∧
     pending w' = pending w) ∧
  (queue lobby = [] →
     let t1 := fst (Date_now w) in
     let t2 := fst (Date_now (snd (Date_now w))) in
     let t3 := fst (Date_now (snd (Date_now (snd (Date_now w))))) in
     let stamp := if t1 =? 0 then t2 else t1 in
     let read := if t1 =? 0 then t3 else t2 in
     let remaining := effectiveDuration track * 1000 - (read - stamp) in
     (0 < remaining → remaining ≤ TIMEOUT_MAX →
        queueOf lobbyId w' = [withStartTime stamp (repairDuration track)] ∧
        lobbyAdvanceTimers w' !! lobbyId = Some (nextHandle w) ∧
        In (mkTimer (nextHandle w) (stamp + effectiveDuration track * 1000)
              (AdvanceCb lobbyId)) (pending w')) ∧
     (remaining ≤ 0 → isLocked lobbyId w = false →
        queueOf lobbyId w' = [] ∧
        lobbyAdvanceTimers w' !! lobbyId = None ∧
        isLocked lobbyId w' = true)).
Proof.
  intros w Hfind Hrole Hnew lobbyId w'. subst w'.
  assert (findLobby lobbyId w = Some lobby) as Hreg.
  { apply (found_is_registered socketId w lobby user); [|exact Hfind].
    apply sound_exec, sound_initial. }
  unfold adicionar_faixa. rewrite Hfind, Hrole, Hnew. cbn [isDj negb].
  fold lobbyId. split.
  - intros Hne.
    assert (Nat.eqb (length (queue lobby ++ [track])) 1 = false) as ->.
    { apply Nat.eqb_neq. rewrite length_app. simpl.
      destruct (queue lobby); [done|simpl; lia]. }
    split; [|split; reflexivity].
    exact (queueOf_update_found lobbyId (λ q, q ++ [track]) w lobby Hreg).
  - intros Hempty. cbv zeta.
    set (t1 := fst (Date_now w)).
    set (t2 := fst (Date_now (snd (Date_now w)))).
    set (t3 := fst (Date_now (snd (Date_now (snd (Date_now w)))))).
    rewrite Hempty. cbn [app length Nat.eqb].
    set (w1 := updateLobby lobbyId (withQueue (λ q, q ++ [track])) w).
    change (Date_now w1) with (t1, snd (Date_now w1)). cbv iota.
    set (wa := alterHead lobbyId (withStartTime t1) (snd (Date_now w1))).
    assert (queueOf lobbyId wa = [withStartTime t1 track]) as Hq.
    { unfold wa, alterHead. rewrite queueOf_update by reflexivity.
      change (queueOf lobbyId (snd (Date_now w1))) with (queueOf lobbyId w1).
      unfold w1.
      rewrite (queueOf_update_found lobbyId (λ q, q ++ [track]) w lobby Hreg).
      by rewrite Hempty. }
    rewrite (schedule_on_head lobbyId wa (withStartTime t1 track)) by (by rewrite Hq).
    destruct (lacks_withStartTime t1 track) as [Hd Hr]. rewrite Hd.
    set (w2 := snd (ensureDuration lobbyId (withStartTime t1 track) (cancelTimer lobbyId wa))).
    set (e := ensureStartTime lobbyId (withStartTime t1 track) w2).
    set (w4 := snd (Date_now (snd e))).
    assert (clock w2 = clock (snd (Date_now w)) ∧ now w2 = now (snd (Date_now w)) ∧
            nextHandle w2 = nextHandle w ∧
            lobbyProcessingLocks w2 = lobbyProcessingLocks w ∧
            lobbyAdvanceTimers w2 !! lobbyId = None ∧
            queueOf lobbyId w2 = [withStartTime t1 (repairDuration track)])
      as (Hc2 & Hn2 & Hh2 & Hl2 & Ht2 & Hq2).
    { unfold w2, ensureDuration, cancelTimer.
      change (lacksDuration (withStartTime t1 track)) with (lacksDuration track).
      assert (∀ f w0, queueOf lobbyId w0 = [withStartTime t1 track] →
                queueOf lobbyId (alterHead lobbyId f w0) = [f (withStartTime t1 track)]) as Hal.
      { intros f w0 H0. unfold alterHead. rewrite queueOf_update by reflexivity.
        by rewrite H0. }
      unfold repairDuration.
      destruct (lobbyAdvanceTimers wa !! lobbyId) eqn:Ec; destruct (lacksDuration track);
        cbn [snd]; repeat split;
        first [apply lookup_delete_eq | exact Ec | exact Hq
              | by rewrite Hal | idtac].
    }
    set (stamp := if t1 =? 0 then t2 else t1).
    set (read := if t1 =? 0 then t3 else t2).
    assert (fst e = stamp ∧ fst (Date_now (snd e)) = read ∧
            nextHandle w4 = nextHandle w ∧ now w4 = read ∧
            lobbyProcessingLocks w4 = lobbyProcessingLocks w ∧
            lobbyAdvanceTimers w4 !! lobbyId = None ∧
            queueOf lobbyId w4 = [withStartTime stamp (repairDuration track)])
      as (He1 & He2 & Hh4 & Hn4 & Hl4 & Ht4 & Hq4).
    { unfold w4, e, ensureStartTime, stamp, read.
      change (lacksStartTime (withStartTime t1 track)) with (t1 =? 0).
      destruct (Date_now_reads w2 (snd (Date_now w)) Hc2 Hn2) as (Ha & Hb & Hc).
      destruct (t1 =? 0).
      - destruct (Date_now w2) as [ta wA] eqn:EA. cbn [fst snd] in *.
        assert (nextHandle wA = nextHandle w ∧
                lobbyProcessingLocks wA = lobbyProcessingLocks w ∧
                lobbyAdvanceTimers wA !! lobbyId = None ∧
                queueOf lobbyId wA = [withStartTime t1 (repairDuration track)])
          as (HhA & HlA & HtA & HqA).
        { apply (f_equal snd) in EA. cbn [snd] in EA. subst wA. repeat split; assumption. }
        set (wB := alterHead lobbyId (withStartTime ta) wA).
        destruct (Date_now_reads wB (snd (Date_now (snd (Date_now w)))) Hb Hc)
          as (Ha' & _ & _).
        split; [exact Ha|]. split; [exact Ha'|].
        split; [exact HhA|]. split; [exact Ha'|]. split; [exact HlA|].
        split; [exact HtA|].
        change (queueOf lobbyId (snd (Date_now wB))) with (queueOf lobbyId wB).
        unfold wB, alterHead. rewrite queueOf_update by reflexivity.
        rewrite HqA. cbn [onHead]. by rewrite Ha.
      - cbn [fst snd default]. split; [reflexivity|]. split; [exact Ha|].
        split; [exact Hh2|]. split; [exact Ha|]. split; [exact Hl2|].
        split; [exact Ht2|exact Hq2]. }
    rewrite He1, He2. fold w4. clearbody w4 e w2 stamp read. clear Hd Hr Hq.
    split.
    + intros Hpos Hmax.
      destruct (Z.leb_spec (effectiveDuration track * 1000 - (read - stamp)) 0); [lia|].
      split; [exact Hq4|]. split.
      * cbn [lobbyAdvanceTimers emit setAdvanceTimers]. rewrite Hh4. apply lookup_insert_eq.
      * cbn [pending emit setAdvanceTimers setTimeout snd].
        apply in_or_app. right. left. rewrite Hh4, Hn4.
        assert ((1 <=? effectiveDuration track * 1000 - (read - stamp)) &&
                (effectiveDuration track * 1000 - (read - stamp) <=? TIMEOUT_MAX) = true)
          as ->.
        { apply andb_true_intro. split; apply Z.leb_le; lia. }
        f_equal. lia.
    + intros Hle Hlock.
      destruct (Z.leb_spec (effectiveDuration track * 1000 - (read - stamp)) 0); [|lia].
      assert (∃ L4, findLobby lobbyId w4 = Some L4 ∧
                    queue L4 = [withStartTime stamp (repairDuration track)])
        as (L4 & Hf4 & HqL).
      { unfold queueOf in Hq4. destruct (findLobby lobbyId w4) as [L4|]; [|discriminate].
        by exists L4. }
      assert (isLocked lobbyId w4 = false) as Hlock4.
      { unfold isLocked in *. by rewrite Hl4. }
      rewrite (advance_last lobbyId w4 L4 _ Hf4 Hlock4 HqL). cbv zeta.
      split; [|split].
      * change (queueOf lobbyId
                  (updateLobby lobbyId (withQueue tail) (setLocks <[lobbyId:=true]> w4)) = []).
        rewrite (queueOf_update_found lobbyId tail (setLocks <[lobbyId:=true]> w4) L4 Hf4).
        by rewrite HqL.
      * exact Ht4.
      * unfold isLocked. cbn [lobbyProcessingLocks emit setTimeout snd updateLobby setLobbies setLocks].
        by rewrite lookup_insert_eq.
Qed.

(** C7, for the first track Alice queues in her new lobby. *)
Lemma adicionar_faixa_witness :
  queueOf sala (adicionar_faixa aliceId (faixa "T1" None)
                 (exec [Criar aliceId sala "Alice"; Clock [t0 + 1000; t0 + 1001]] initial)) =
    [withStartTime (t0 + 1000) (withDuration 240 (faixa "T1" None))] ∧
  lobbyAdvanceTimers
    (adicionar_faixa aliceId (faixa "T1" None)
       (exec [Criar aliceId sala "Alice"; Clock [t0 + 1000; t0 + 1001]] initial)) !! sala =
    Some 0%nat ∧
  In (mkTimer 0 (t0 + 241000) (AdvanceCb sala))
    (pending (adicionar_faixa aliceId (faixa "T1" None)
       (exec [Criar aliceId sala "Alice"; Clock [t0 + 1000; t0 + 1001]] initial))).
Proof.
  refine (proj1 (proj2 (adicionar_faixa_appends_and_arms
                          [Criar aliceId sala "Alice"; Clock [t0 + 1000; t0 + 1001]]
                          aliceId (faixa "T1" None)
                          (mkLobby sala [alice] []) alice eq_refl eq_refl eq_refl)
                   eq_refl) _ _).
  - vm_compute. reflexivity.
  - vm_compute. discriminate.
Defined.

(** C7 as the specification states it fails: Alice queues a track of one
    second in her empty queue, and a second goes by between the stamp, at
    [t0 + 1000], and the reading of the scheduler, at [t0 + 2000]. No time
    remains: the scheduler advances at once. The track is not in the
    queue, which is empty again, and no advance timer is armed. *)
Lemma first_track_out_of_time_is_not_armed :
  let w := exec [Criar aliceId sala "Alice"; Clock [t0 + 1000; t0 + 2000]] initial in
  let w' := adicionar_faixa aliceId (faixa "T1" (Some 1)) w in
  findLobbyAndUser aliceId w = Some (mkLobby sala [alice] [], alice) ∧
  queueOf sala w' = [] ∧
  advanceTimersOf sala w' = [] ∧
  lobbyAdvanceTimers w' !! sala = None ∧
  ¬ (∃ tr, queueOf sala w' = queueOf sala w ++ [tr]).
Proof.
  cbv zeta. split; [vm_compute; reflexivity|].
  split; [vm_compute; reflexivity|].
  split; [vm_compute; reflexivity|].
  split; [vm_compute; reflexivity|].
  intros [tr H]. vm_compute in H. discriminate.
Qed.

(** ** Roles *)

(** C9 as the specification states it fails: Alice creates the lobby, Bob
    and Carol join, Bob leaves, and Dave, the fourth to enter, is made a
    dj. *)
Lemma join_rule_broken_by_leave :
  List.NoDup (criados leaveJoinRun) ∧
  rolesGranted sala (exec leaveJoinRun initial) = [dj; dj; spectator; dj] ∧
  ¬ joinRuleHolds leaveJoinRun sala.
Proof.
  split; [|split].
  - vm_compute. constructor; [intros []|constructor].
  - vm_compute. reflexivity.
  - intros H. specialize (H 3%nat dj eq_refl). discriminate.
Qed.

Lemma members_update_queue l g w :
  members (updateLobby l (withQueue g) w) = members w.
Proof.
  unfold members. simpl. rewrite List.map_map. apply List.map_ext.
  intros L. by destruct (hasId l L).
Qed.

Lemma announced_emit to m w :
  announced (emit to m w) = announced w ++ option_list (joinAnnounced (to, m)).
Proof.
  unfold announced. simpl. rewrite omap_app. simpl.
  by destruct (joinAnnounced (to, m)).
Qed.

(** The queue handlers, a firing timer and the clock change neither. *)
Lemma queue_step_membership e w :
  match e with Criar _ _ _ | Entrar _ _ _ | Disconnect _ => False | _ => True end →
  sameMembership w (step e w).
Proof.
  assert (sameMembership w w) as Hrefl by (by split).
  assert (∀ to text w', sameMembership w w' →
            sameMembership w (emit to (erro_lobby text) w')) as Herr.
  { intros to text w' [Hm Ha]. split; [exact Hm|].
    rewrite announced_emit. simpl. by rewrite app_nil_r. }
  assert (∀ to q w', sameMembership w w' →
            sameMembership w (emit to (fila_atualizada q) w')) as Hbro.
  { intros to q w' [Hm Ha]. split; [exact Hm|].
    rewrite announced_emit. simpl. by rewrite app_nil_r. }
  assert (∀ l g w', sameMembership w w' →
            sameMembership w (updateLobby l (withQueue g) w')) as Hq.
  { intros l g w' [Hm Ha]. split; [|exact Ha]. by rewrite members_update_queue. }
  destruct e; simpl; intros He; try contradiction.
  - apply (adicionar_faixa_queue (sameMembership w)); auto.
  - apply (musica_terminou_queue (sameMembership w)); auto.
  - apply (remover_faixa_queue (sameMembership w)); auto.
  - apply (timerFires_queue (sameMembership w)); auto.
  - exact Hrefl.
Qed.

Lemma usersOf_members l w w' : members w' = members w → usersOf l w' = usersOf l w.
Proof.
  unfold members, usersOf, findLobby.
  generalize (lobbies w) (lobbies w'). intros ls.
  induction ls as [|L ls IH]; intros [|L' ls']; simpl; try discriminate; auto.
  intros [= Hid Hus Hrest]. unfold hasId at 1 3. rewrite Hid.
  destruct (String.eqb (lobby_id L) l); simpl; [by rewrite Hus|by apply IH].
Qed.

Lemma roleInv_same l w w' : sameMembership w w' → roleInv l w → roleInv l w'.
Proof.
  intros [Hm Ha]. unfold roleInv, rolesGranted.
  by rewrite (usersOf_members l w w' Hm), Ha.
Qed.

Lemma find_put l L' ls :
  List.find (hasId l) (putLobby L' ls) =
  if hasId l L' then Some L' else List.find (hasId l) ls.
Proof.
  induction ls as [|L0 ls IH]; simpl; [reflexivity|].
  destruct (hasId (lobby_id L') L0) eqn:E0; simpl.
  - apply hasId_eq in E0.
    assert (hasId l L0 = hasId l L') as -> by (unfold hasId; by rewrite E0).
    by destruct (hasId l L').
  - rewrite IH. destruct (hasId l L0) eqn:E1; [|reflexivity].
    destruct (hasId l L') eqn:E2; [|reflexivity].
    apply hasId_eq in E1, E2.
    assert (hasId (lobby_id L') L0 = true) by (apply hasId_eq; congruence).
    congruence.
Qed.

Lemma rolesGranted_emit l to m w :
  rolesGranted l (emit to m w) =
  rolesGranted l w ++
    match joinAnnounced (to, m) with
    | Some L => option_list (grant l L)
    | None => []
    end.
Proof.
  unfold rolesGranted. rewrite announced_emit, omap_app.
  destruct (joinAnnounced (to, m)) as [L|]; simpl; [|reflexivity].
  by destruct (grant l L).
Qed.

Lemma follows_one : follows [dj].
Proof. intros [|k] r; simpl; [by intros [= <-]|discriminate]. Qed.

Lemma follows_snoc rs :
  follows rs → follows (rs ++ [joinRule (length rs)]).
Proof.
  intros H k r Hk. destruct (decide (k < length rs)%nat) as [Hlt|Hge].
  - rewrite lookup_app_l in Hk by exact Hlt. by apply H.
  - rewrite lookup_app_r in Hk by lia.
    destruct (k - length rs)%nat as [|j] eqn:Ej; simpl in Hk; [|discriminate].
    injection Hk as <-. f_equal. lia.
Qed.

Lemma roleInv_criar l s l' n w :
  findLobby l' w = None → roleInv l w → roleInv l (criar_lobby s l' n w).
Proof.
  intros Hfresh H. unfold criar_lobby. destruct (blank n).
  - apply (roleInv_same l w); [|exact H]. split; [reflexivity|].
    rewrite announced_emit. simpl. by rewrite app_nil_r.
  - unfold roleInv in *. rewrite rolesGranted_emit.
    unfold usersOf, findLobby in *. simpl. rewrite find_put.
    unfold grant. simpl.
    change (rolesGranted l (setLobbies _ w)) with (rolesGranted l w).
    destruct (hasId l ({| lobby_id := l'; users := _; queue := [] |})) eqn:E; simpl.
    + apply hasId_eq in E. simpl in E. subst l'. rewrite Hfresh in H. simpl in H.
      destruct H as [_ ->]. split; [apply follows_one|]. by split.
    + by rewrite app_nil_r.
Qed.

Lemma joinRule_by_count us (g : list UserRole) :
  djsIn us = Nat.min 2 (length g) →
  (if Nat.ltb (djsIn us) 2 then dj else spectator) = joinRule (length g).
Proof.
  intros ->. unfold joinRule.
  destruct (Nat.ltb_spec (length g) 2); destruct (Nat.ltb_spec (2 `min` length g) 2);
    first [reflexivity|lia].
Qed.

Lemma djsIn_snoc us u : djsIn (us ++ [u]) = (djsIn us + if isDj (role u) then 1 else 0)%nat.
Proof.
  unfold djsIn. rewrite List.filter_app, length_app. simpl.
  by destruct (isDj (role u)).
Qed.

Lemma roleInv_entrar l s l' n w :
  roleInv l w → roleInv l (entrar_lobby s l' n w).
Proof.
  intros H.
  assert (∀ to text, roleInv l (emit to (erro_lobby text) w)) as Herr.
  { intros to text. apply (roleInv_same l w); [|exact H]. split; [reflexivity|].
    rewrite announced_emit. simpl. by rewrite app_nil_r. }
  unfold entrar_lobby. destruct (blank l'); [apply Herr|].
  destruct (blank n); [apply Herr|].
  destruct (findLobby (trim l') w) as [lobby|] eqn:Hfind;
    [|destruct (List.existsb _ inherited); [exact H|apply Herr]].
  cbv zeta. pose proof (findLobby_id _ _ _ Hfind) as Hid.
  fold (djsIn (users lobby)).
  set (newUser := mkUser s (trim n) _).
  unfold roleInv in *. rewrite !rolesGranted_emit. simpl.
  unfold usersOf in *.
  change (findLobby l (emit ?a ?b (emit ?c ?d ?w'))) with (findLobby l w').
  rewrite findLobby_update by reflexivity.
  change (rolesGranted l (updateLobby _ _ w)) with (rolesGranted l w).
  rewrite app_nil_r. unfold grant. simpl.
  change (hasId l (withUsers (λ us, us ++ [newUser]) lobby)) with (hasId l lobby).
  rewrite last_snoc. simpl.
  destruct (hasId l lobby) eqn:E.
  - apply hasId_eq in E. assert (l = trim l') as -> by congruence.
    rewrite Hfind in *. simpl in *.
    assert (hasId (lobby_id lobby) lobby = true) as -> by (by apply hasId_eq).
    simpl. destruct H as (Hf & Hc & Hpos).
    rewrite !djsIn_snoc, length_app. unfold newUser. cbn [role length].
    rewrite !(joinRule_by_count _ _ Hc).
    split; [by apply follows_snoc|].
    unfold joinRule. revert Hc Hpos.
    generalize (djsIn (users lobby)) (length (rolesGranted (trim l') w)).
    intros d [|[|k]] Hc Hpos; simpl in *; lia.
  - rewrite app_nil_r.
    destruct (findLobby l w) as [L|] eqn:HL; simpl; [|exact H].
    pose proof (findLobby_id _ _ _ HL) as HidL.
    assert (hasId (lobby_id lobby) L = false) as ->.
    { destruct (hasId (lobby_id lobby) L) eqn:E'; [|reflexivity].
      apply hasId_eq in E'.
      assert (hasId l lobby = true) by (apply hasId_eq; congruence).
      congruence. }
    exact H.
Qed.

(** Users that are no djs leave: the djs are as many as before. *)
Lemma djsIn_others s us :
  List.existsb (λ u, String.eqb (user_id u) s && isDj (role u)) us = false →
  djsIn (List.filter (λ u, negb (String.eqb (user_id u) s)) us) = djsIn us.
Proof.
  unfold djsIn. induction us as [|u us IH]; [reflexivity|].
  simpl. intros H. apply orb_false_elim in H as [Hu H].
  destruct (String.eqb (user_id u) s) eqn:E; simpl in *.
  - rewrite Hu. by apply IH.
  - destruct (isDj (role u)); simpl; by rewrite IH.
Qed.

Lemma roleInv_disconnect l s w :
  sound w →
  match findLobbyAndUser s w with
  | Some (L, _) =>
      hasId l L &&
      List.existsb (λ u, String.eqb (user_id u) s && isDj (role u)) (users L)
  | None => false
  end = false →
  roleInv l w → roleInv l (disconnect s w).
Proof.
  intros Hsound Hstay H. unfold disconnect.
  destruct (findLobbyAndUser s w) as [[L u]|] eqn:Hfind; [|exact H].
  pose proof (found_is_registered s w L u Hsound Hfind) as Hreg.
  destruct (findIn_user s _ L u Hfind) as [Hu _]. cbv zeta. rewrite Hu.
  set (others := List.filter (λ u0, negb (String.eqb (user_id u0) s))).
  set (w1 := updateLobby (lobby_id L) (withUsers others) w).
  set (w3 := cancelTimer (lobby_id L)
               (emit (ToRoomExcept (lobby_id L) s) (usuario_saiu u) w1)).
  assert (rolesGranted l w3 = rolesGranted l w) as Hg.
  { unfold rolesGranted, announced, w3.
    assert (∀ v, outbox (cancelTimer (lobby_id L) v) = outbox v) as ->.
    { intros v. unfold cancelTimer. by destruct (lobbyAdvanceTimers v !! lobby_id L). }
    simpl. rewrite omap_app. simpl. by rewrite app_nil_r. }
  assert (usersOf l w3 =
          (λ L0, if hasId (lobby_id L) L0 then others (users L0) else users L0)
            <$> findLobby l w) as Hus.
  { unfold usersOf, w3. rewrite findLobby_cancel.
    change (findLobby l (emit ?a ?b ?v)) with (findLobby l v).
    unfold w1. rewrite findLobby_update by reflexivity.
    destruct (findLobby l w) as [L0|]; [|reflexivity]. simpl.
    by destruct (hasId (lobby_id L) L0). }
  assert (∀ v, rolesGranted l (deleteLobby (lobby_id L) v) = rolesGranted l v) as Hgd
    by reflexivity.
  destruct (hasId l L) eqn:El.
  - simpl in Hstay. apply hasId_eq in El. subst l.
    unfold roleInv in H. unfold usersOf in H. rewrite Hreg in H. simpl in H.
    destruct H as (Hf & Hc & Hpos).
    pose proof (djsIn_others s (users L) Hstay) as Hsame. fold others in Hsame.
    assert (Nat.eqb (length (others (users L))) 0 = false) as ->.
    { apply Nat.eqb_neq. intros Hz. apply nil_length_inv in Hz.
      rewrite Hz in Hsame. unfold djsIn in Hsame at 1. simpl in Hsame. lia. }
    unfold roleInv. rewrite Hg, Hus, Hreg. simpl.
    assert (hasId (lobby_id L) L = true) as -> by (by apply hasId_eq).
    rewrite Hsame. by repeat split.
  - assert (usersOf l w3 = usersOf l w) as Hus'.
    { rewrite Hus. unfold usersOf. destruct (findLobby l w) as [L0|] eqn:E0; [|reflexivity].
      simpl. destruct (hasId (lobby_id L) L0) eqn:E1; [|reflexivity].
      apply hasId_eq in E1. apply findLobby_id in E0.
      assert (hasId l L = true) by (apply hasId_eq; congruence). congruence. }
    assert (roleInv l w3) as H3.
    { unfold roleInv in *. by rewrite Hg, Hus'. }
    destruct (Nat.eqb _ 0); [|exact H3].
    unfold roleInv in *. rewrite Hgd.
    assert (usersOf l (deleteLobby (lobby_id L) w3) = usersOf l w3) as ->; [|exact H3].
    unfold usersOf, findLobby, deleteLobby. simpl. rewrite find_delete.
    destruct (String.eqb l (lobby_id L)) eqn:E; [|reflexivity].
    apply String.eqb_eq in E. assert (hasId l L = true) by (by apply hasId_eq).
    congruence.
Qed.

Lemma registered_members w w' : members w' = members w → registered w' = registered w.
Proof.
  intros H. unfold registered.
  assert (∀ v, List.map lobby_id (lobbies v) = List.map fst (members v)) as E.
  { intros v. unfold members. rewrite List.map_map. reflexivity. }
  by rewrite !E, H.
Qed.

Lemma registered_criar s l' n w i :
  In i (registered (criar_lobby s l' n w)) → i = l' ∨ In i (registered w).
Proof.
  unfold criar_lobby. destruct (blank n); [by right|].
  unfold registered. simpl. intros Hin.
  apply List.in_map_iff in Hin as (L & <- & HL).
  apply putLobby_In in HL as [->|HL]; [by left|].
  right. by apply List.in_map.
Qed.

Lemma registered_entrar s l' n w :
  registered (entrar_lobby s l' n w) = registered w.
Proof.
  unfold entrar_lobby. destruct (blank l'); [reflexivity|].
  destruct (blank n); [reflexivity|].
  destruct (findLobby (trim l') w);
    [|by destruct (List.existsb _ inherited)].
  unfold registered. simpl. by apply ids_update.
Qed.

Lemma unregistered l w : ¬ In l (registered w) → findLobby l w = None.
Proof.
  intros Hnot. unfold findLobby.
  destruct (List.find (hasId l) (lobbies w)) as [L|] eqn:E; [|reflexivity].
  exfalso. apply Hnot. apply List.find_some in E as [HL E].
  apply hasId_eq in E. subst l. by apply List.in_map.
Qed.

Lemma registered_disconnect s w i :
  In i (registered (disconnect s w)) → In i (registered w).
Proof.
  unfold disconnect. destruct (findLobbyAndUser s w) as [[L u]|]; [|done].
  cbv zeta.
  assert (∀ v, registered (cancelTimer (lobby_id L) v) = registered v) as Hc.
  { intros v. unfold registered. by rewrite lobbies_cancelTimer. }
  assert (registered (cancelTimer (lobby_id L)
            (emit (ToRoomExcept (lobby_id L) s) (usuario_saiu u)
               (updateLobby (lobby_id L)
                  (withUsers (List.filter (λ u0, negb (String.eqb (user_id u0) (user_id u))))) w)))
          = registered w) as Hr.
  { rewrite Hc. unfold registered. simpl. by apply ids_update. }
  destruct (Nat.eqb _ 0); [|by rewrite Hr].
  unfold registered at 1, deleteLobby. simpl. intros Hin.
  apply List.in_map_iff in Hin as (L0 & <- & HL0).
  apply List.filter_In in HL0 as [HL0 _].
  rewrite <- Hr. unfold registered. by apply List.in_map.
Qed.

Lemma roleInv_exec l run :
  ∀ w used,
    sound w →
    (∀ i, In i (registered w) → In i used) →
    List.NoDup (used ++ criados run) →
    djLeaves l run w = false →
    roleInv l w → roleInv l (exec run w).
Proof.
  induction run as [|e run IH]; intros w used Hsound Hused Hnd Hno H; [exact H|].
  simpl in Hno. apply orb_false_elim in Hno as [He Hno].
  change (roleInv l (exec run (step e w))).
  pose proof (sound_step e w Hsound) as Hsound'.
  destruct e as [s l' n|s l' n|s tr|s|s i|s|h|ts].
  - simpl in Hnd. pose proof (List.NoDup_remove _ _ _ Hnd) as [Hnd' Hnot].
    apply (IH _ (l' :: used)); [exact Hsound'| | |exact Hno|].
    + intros i Hi. apply registered_criar in Hi as [->|Hi]; [by left|].
      right. by apply Hused.
    + simpl. constructor; [exact Hnot|exact Hnd'].
    + apply roleInv_criar; [|exact H]. apply unregistered.
      intros Hin. apply Hnot. apply in_or_app. left. by apply Hused.
  - apply (IH _ used); auto.
    + intros i. simpl. rewrite registered_entrar. apply Hused.
    + by apply roleInv_entrar.
  - pose proof (queue_step_membership (Adicionar s tr) w I) as Hm.
    apply (IH _ used); auto.
    + intros i. rewrite (registered_members w _ (proj1 Hm)). apply Hused.
    + by apply (roleInv_same l w).
  - pose proof (queue_step_membership (Terminou s) w I) as Hm.
    apply (IH _ used); auto.
    + intros i. rewrite (registered_members w _ (proj1 Hm)). apply Hused.
    + by apply (roleInv_same l w).
  - pose proof (queue_step_membership (Remover s i) w I) as Hm.
    apply (IH _ used); auto.
    + intros j. rewrite (registered_members w _ (proj1 Hm)). apply Hused.
    + by apply (roleInv_same l w).
  - apply (IH _ used); auto.
    + intros i Hi. apply Hused. by apply (registered_disconnect s).
    + by apply roleInv_disconnect.
  - pose proof (queue_step_membership (Fires h) w I) as Hm.
    apply (IH _ used); auto.
    + intros i. rewrite (registered_members w _ (proj1 Hm)). apply Hused.
    + by apply (roleInv_same l w).
  - apply (IH _ used); auto.
Qed.

(** C9, as the code has it. The ids of the lobbies created being pairwise
    distinct: as long as no dj of a lobby has left it, the roles granted
    in the lobby follow the rule, dj for its creator and for the first to
    join it, spectator for everyone after, whatever else the sockets send
    (spectators leaving, and anything in other lobbies, included) and
    whichever timers fire in between. And whoever has left, the one who
    joins is made a dj when the lobby holds fewer than two djs at that
    moment, a spectator otherwise. *)
Theorem first_two_to_join_are_djs (run : list Event) (l : string) :
  List.NoDup (criados run) →
  (djLeaves l run initial = false → joinRuleHolds run l) ∧
  (∀ s i n L,
     blank i = false → blank n = false →
     findLobby (trim i) (exec run initial) = Some L → lobby_id L = l →
     rolesGranted l (exec (run ++ [Entrar s i n]) initial) =
     rolesGranted l (exec run initial) ++
       [if Nat.ltb (djCount L) 2 then dj else spectator]).
Proof.
  intros Hnd. split.
  - intros Hno.
    assert (roleInv l (exec run initial)) as [H _]; [|exact H].
    apply (roleInv_exec l run initial []);
      [apply sound_initial|intros i []|exact Hnd|exact Hno|].
    split; [|reflexivity]. intros k r Hk.
    change (rolesGranted l initial) with (@nil UserRole) in Hk.
    by rewrite lookup_nil in Hk.
  - intros s i n L Hi Hn Hfind Hid. rewrite exec_snoc.
    cbn [step]. unfold entrar_lobby. rewrite Hi, Hn, Hfind. cbv zeta.
    rewrite !rolesGranted_emit. cbn [joinAnnounced snd].
    change (rolesGranted l (updateLobby ?a ?b ?v)) with (rolesGranted l v).
    rewrite app_nil_r. unfold grant.
    change (hasId l (withUsers ?f L)) with (hasId l L).
    assert (hasId l L = true) as -> by (by apply hasId_eq).
    cbn [withUsers users]. rewrite last_snoc. reflexivity.
Qed.

(** C9, for a run in which a spectator leaves the lobby, and a dj another
    lobby, before two more join. *)
Lemma first_two_to_join_witness :
  rolesGranted sala (exec spectatorLeavesRun initial) =
    [dj; dj; spectator; spectator; spectator] ∧
  joinRuleHolds spectatorLeavesRun sala.
Proof.
  split; [vm_compute; reflexivity|].
  refine (proj1 (first_two_to_join_are_djs spectatorLeavesRun sala _) _).
  - vm_compute. constructor; [intros [H|[]]; discriminate|].
    constructor; [intros []|constructor].
  - vm_compute. reflexivity.
Defined.

(** ** Where the code departs from the specification

    Four facts about the handlers in any world, then one scenario for each
    of the six departures. *)

Lemma spectator_add_rejected s tr w lobby user :
  findLobbyAndUser s w = Some (lobby, user) → role user = spectator →
  adicionar_faixa s tr w =
    emit (ToSocket s) (erro_lobby "Apenas DJs podem adicionar músicas.") w.
Proof. intros Hfind Hrole. unfold adicionar_faixa. by rewrite Hfind, Hrole. Qed.

Lemma spectator_remove_ignored s i w lobby user :
  findLobbyAndUser s w = Some (lobby, user) → role user = spectator →
  remover_faixa s i w = w.
Proof. intros Hfind Hrole. unfold remover_faixa. by rewrite Hfind, Hrole. Qed.

(** Whoever leaves, and whoever stays, the handle stored for the lobby is
    gone after [disconnect]. *)
Lemma disconnect_cancels s w lobby user :
  findLobbyAndUser s w = Some (lobby, user) →
  lobbyAdvanceTimers (disconnect s w) !! lobby_id lobby = None.
Proof.
  intros Hfind. unfold disconnect. rewrite Hfind. cbv zeta.
  assert (∀ w', lobbyAdvanceTimers (cancelTimer (lobby_id lobby) w')
                  !! lobby_id lobby = None) as Hc.
  { intros w'. unfold cancelTimer.
    destruct (lobbyAdvanceTimers w' !! lobby_id lobby) eqn:E; [|exact E].
    simpl. apply lookup_delete_eq. }
  destruct (Nat.eqb _ 0); apply Hc.
Qed.

(** Removing the only track of a queue touches no timer. *)
Lemma remove_only_track_keeps_timer s w lobby user tr :
  findLobbyAndUser s w = Some (lobby, user) → role user = dj →
  queue lobby = [tr] →
  lobbyAdvanceTimers (remover_faixa s (track_id tr) w) = lobbyAdvanceTimers w ∧
  pending (remover_faixa s (track_id tr) w) = pending w.
Proof.
  intros Hfind Hrole Hq. unfold remover_faixa. rewrite Hfind, Hrole, Hq.
  simpl. rewrite String.eqb_refl. simpl. by split.
Qed.

(** C3. The timer of T1 fires on the queue [T1; T2] while the lobby is not
    locked. The advance stamps T2 at [t0 + 6000]; the scheduler reads the
    clock at [t0 + 7000], so that the remaining time of T2 (one second
    long) is [max 0 (1000 - 1000) = 0] and it calls [advanceToNextTrack]
    instead of arming a timer. That call finds the lock set by the advance
    in progress and returns: T2 is not removed, and it is left playing
    with no advance timer pending and none stored. *)
Theorem rearm_with_no_time_left_is_swallowed :
  queueIds sala twoTracks = ["T1"; "T2"] ∧
  isLocked sala twoTracks = false ∧
  pending twoTracks = [mkTimer 0 (t0 + 6000) (AdvanceCb sala)] ∧
  let w := exec [Clock [t0 + 6000; t0 + 7000]; Fires 0] twoTracks in
  queueOf sala w = [withStartTime (t0 + 6000) (faixa "T2" (Some 1))] ∧
  lobbyAdvanceTimers w !! sala = None ∧
  pending w = [mkTimer 1 (t0 + 8000) (UnlockCb sala)].
Proof. vm_compute. repeat split; reflexivity. Qed.

(** C4. Alice removes the only track before it ends. The queue is empty
    and no new timer is armed, but the timer of the removed track is
    neither cleared nor forgotten: it stays pending, due at the track's
    original end, and when it fires then it calls [advanceToNextTrack]. *)
Theorem removing_the_only_track_leaves_its_timer :
  let armed := exec [Criar aliceId sala "Alice"; Clock [t0 + 1000; t0 + 1000];
                     Adicionar aliceId (faixa "T1" (Some 10))] initial in
  let w := exec removedRun initial in
  pending armed = [mkTimer 0 (t0 + 11000) (AdvanceCb sala)] ∧
  queueOf sala w = [] ∧
  lobbyAdvanceTimers w !! sala = Some 0%nat ∧
  pending w = [mkTimer 0 (t0 + 11000) (AdvanceCb sala)] ∧
  let atEnd := setClock [t0 + 11000] w in
  timerFires 0 atEnd =
    setAdvanceTimers (delete sala) (advance sala (clearTimeout 0 atEnd)).
Proof. vm_compute. repeat split; reflexivity. Qed.

(** C5. After the timer of T1 has fired, the timer armed for T2 is pending
    but its handle is no longer stored (the callback deletes the lobby's
    entry after the advance has stored the new handle). The next arming
    finds nothing to cancel, and two advance timers of the lobby are
    pending at once. *)
Theorem two_advance_timers_outstanding :
  let fired := exec (take 6 orphanRun) initial in
  let w := exec orphanRun initial in
  advanceTimersOf sala fired = [mkTimer 1 (t0 + 11000) (AdvanceCb sala)] ∧
  lobbyAdvanceTimers fired !! sala = None ∧
  queueIds sala w = ["T3"] ∧
  advanceTimersOf sala w =
    [mkTimer 1 (t0 + 11000) (AdvanceCb sala); mkTimer 3 (t0 + 11500) (AdvanceCb sala)].
Proof. vm_compute. repeat split; reflexivity. Qed.

(** C2. The timer of T1 fires on the queue [T1; T2]: the advance arms the
    timer of T2 and stores its handle, and the callback of the timer that
    fired then deletes the entry of the lobby (the slip of C5). Once the
    lock is released the timer of T2 is pending, due at the end of T2,
    with no handle stored for the lobby. The signal Alice sends then, 1.2
    seconds after T2 started, is not ignored: the handler finds no handle
    and calls [advanceToNextTrack], which takes T2 off the queue; the
    timer of T2 stays pending. *)
Theorem fallback_advances_beside_a_pending_timer :
  let w := exec staleFallbackRun initial in
  queueOf sala w = [withStartTime (t0 + 6000) (faixa "T2" (Some 5))] ∧
  isLocked sala w = false ∧
  advanceTimersOf sala w = [mkTimer 1 (t0 + 11000) (AdvanceCb sala)] ∧
  lobbyAdvanceTimers w !! sala = None ∧
  now w = t0 + 7200 ∧
  let w' := musica_terminou aliceId w in
  queueOf sala w' = [] ∧
  isLocked sala w' = true ∧
  advanceTimersOf sala w' = [mkTimer 1 (t0 + 11000) (AdvanceCb sala)].
Proof. vm_compute. repeat split; reflexivity. Qed.

(** C6. Bob leaves the lobby he shares with Alice while a track plays. The
    lobby stays, with Alice and the queue as they were, but the advance
    timer of the playing track is cleared and its handle deleted. *)
Theorem leave_of_one_of_two_cancels_the_timer :
  let w := disconnect bobId duo in
  lobbyAdvanceTimers duo !! sala = Some 0%nat ∧
  pending duo = [mkTimer 0 (t0 + 31000) (AdvanceCb sala)] ∧
  List.map users (lobbies w) = [[alice]] ∧
  queueOf sala w = queueOf sala duo ∧
  queueIds sala w = ["T1"] ∧
  lobbyAdvanceTimers w !! sala = None ∧
  pending w = [].
Proof. vm_compute. repeat split; reflexivity. Qed.

(** C8. Carol is a spectator. Her [adicionar_faixa] changes nothing but
    the outbox, where she gets the error; her [remover_faixa] changes
    nothing at all: the queue is kept, and no message is sent to her. *)
Theorem spectator_remove_is_silent :
  findLobbyAndUser carolId trio =
    Some (mkLobby sala [alice; bob; carol]
            [withStartTime (t0 + 1000) (faixa "T1" (Some 30))], carol) ∧
  adicionar_faixa carolId (faixa "T2" (Some 30)) trio =
    emit (ToSocket carolId) (erro_lobby "Apenas DJs podem adicionar músicas.") trio ∧
  remover_faixa carolId "T1" trio = trio ∧
  outbox (remover_faixa carolId "T1" trio) = outbox trio.
Proof. vm_compute. repeat split; reflexivity. Qed.

(** * Properties beyond the specification *)

(** ** Induction over the states the process reaches *)

Lemma reachable_ind (P : World → Prop) :
  P initial → (∀ e w, sound w → P w → P (step e w)) →
  ∀ run, P (exec run initial).
Proof.
  intros H0 Hstep run.
  cut (sound (exec run initial) ∧ P (exec run initial)); [tauto|].
  induction run as [|e run IH] using rev_ind.
  - split; [apply sound_initial|exact H0].
  - rewrite exec_snoc. destruct IH as [Hs HP].
    split; [by apply sound_step|by apply Hstep].
Qed.

Lemma findLobby_In l w L : findLobby l w = Some L → In L (lobbies w).
Proof. intros H. by apply List.find_some in H as [H _]. Qed.

(** In a sound registry an assignment to the lobby registered as [l]
    changes that lobby and no other. *)
Lemma Forall_updateLobby (Q : Lobby → Prop) l f w L :
  sound w → In L (lobbies w) → lobby_id L = l →
  Forall Q (lobbies w) → Q (f L) →
  Forall Q (lobbies (updateLobby l f w)).
Proof.
  intros Hs HL Hid HQ HfL. apply List.Forall_forall. intros L' HL'.
  simpl in HL'. apply List.in_map_iff in HL' as (L0 & <- & HL0).
  destruct (hasId l L0) eqn:E.
  - apply hasId_eq in E.
    assert (L0 = L) as ->; [|exact HfL].
    apply (same_id_same_lobby (lobbies w)); [apply Hs|exact HL0|exact HL|congruence].
  - by apply (proj1 (List.Forall_forall _ _) HQ).
Qed.

Section Membership.
Variable Q : Lobby → Prop.

Hypothesis Q_queue : ∀ g L, Q L → Q (withQueue g L).
Hypothesis Q_create :
  ∀ l s n, blank n = false → Q (mkLobby l [mkUser s (trim n) dj] []).
Hypothesis Q_join :
  ∀ L s n, Q L → blank n = false →
    Q (withUsers
         (λ us, us ++ [mkUser s (trim n)
                         (if Nat.ltb (djCount L) 2 then dj else spectator)]) L).
Hypothesis Q_leave :
  ∀ L i, Q L →
    List.filter (λ u, negb (String.eqb (user_id u) i)) (users L) ≠ [] →
    Q (withUsers (List.filter (λ u, negb (String.eqb (user_id u) i))) L).

Lemma membership_queue_event e w :
  match e with Criar _ _ _ | Entrar _ _ _ | Disconnect _ => False | _ => True end →
  Forall Q (lobbies w) → Forall Q (lobbies (step e w)).
Proof.
  intros He H.
  assert (∀ l g w', Forall Q (lobbies w') →
            Forall Q (lobbies (updateLobby l (withQueue g) w'))) as Hq.
  { intros l g w' H'. apply List.Forall_forall. intros L' HL'.
    simpl in HL'. apply List.in_map_iff in HL' as (L0 & <- & HL0).
    pose proof (proj1 (List.Forall_forall _ _) H' L0 HL0).
    destruct (hasId l L0); auto. }
  destruct e; simpl; try contradiction.
  - apply (adicionar_faixa_queue (λ w, Forall Q (lobbies w))); auto.
  - apply (musica_terminou_queue (λ w, Forall Q (lobbies w))); auto.
  - apply (remover_faixa_queue (λ w, Forall Q (lobbies w))); auto.
  - apply (timerFires_queue (λ w, Forall Q (lobbies w))); auto.
  - exact H.
Qed.

Lemma membership_step e w :
  sound w → Forall Q (lobbies w) → Forall Q (lobbies (step e w)).
Proof.
  intros Hs H.
  destruct e as [s l n|s l n|s tr|s|s i|s|h|ts];
    try (apply membership_queue_event; [exact I|exact H]).
  - (* criar_lobby *)
    simpl. unfold criar_lobby. destruct (blank n) eqn:Hn; [exact H|].
    apply List.Forall_forall. intros L HL. simpl in HL.
    apply putLobby_In in HL as [->|HL]; [by apply Q_create|].
    by apply (proj1 (List.Forall_forall _ _) H).
  - (* entrar_lobby *)
    simpl. unfold entrar_lobby.
    destruct (blank l); [exact H|]. destruct (blank n) eqn:Hn; [exact H|].
    destruct (findLobby (trim l) w) as [lobby|] eqn:Hf;
      [|by destruct (List.existsb _ inherited)].
    cbv zeta.
    apply (Forall_updateLobby Q (lobby_id lobby) _ w lobby Hs);
      [by apply findLobby_In in Hf|reflexivity|exact H|].
    apply Q_join; [|exact Hn].
    apply (proj1 (List.Forall_forall _ _) H). by apply findLobby_In in Hf.
  - (* disconnect *)
    simpl. unfold disconnect.
    destruct (findLobbyAndUser s w) as [[lobby user]|] eqn:Hf; [|exact H].
    cbv zeta. apply findIn_In in Hf.
    pose proof (proj1 (List.Forall_forall _ _) H lobby Hf) as HQ.
    set (others := List.filter (λ u, negb (String.eqb (user_id u) (user_id user)))).
    destruct (Nat.eqb (length (others (users lobby))) 0) eqn:Hlen.
    + apply List.Forall_forall. intros L HL. simpl in HL.
      apply List.filter_In in HL as [HL Hid].
      rewrite lobbies_cancelTimer in HL. simpl in HL.
      apply List.in_map_iff in HL as (L0 & <- & HL0).
      destruct (hasId (lobby_id lobby) L0) eqn:E.
      * unfold hasId in *. simpl in Hid. rewrite E in Hid. discriminate.
      * by apply (proj1 (List.Forall_forall _ _) H).
    + rewrite lobbies_cancelTimer.
      change (Forall Q (lobbies (updateLobby (lobby_id lobby) (withUsers others) w))).
      apply (Forall_updateLobby Q (lobby_id lobby) _ w lobby Hs Hf eq_refl H).
      apply Q_leave; [exact HQ|].
      fold others. intros Hnil. rewrite Hnil in Hlen. discriminate.
Qed.

Lemma membership_reachable run : Forall Q (lobbies (exec run initial)).
Proof.
  apply (reachable_ind (λ w, Forall Q (lobbies w))); [constructor|].
  intros e w Hs H. by apply membership_step.
Qed.
End Membership.

(** ** The scheduler and the advance of one lobby *)

Lemma advance_unfold l w :
  advance l w = default w (advanceBody (scheduleBody (λ _ w', Some w')) l w).
Proof. unfold advance. by rewrite advance_blocked. Qed.

Lemma advance_returns l w : advanceToNextTrack 3 l w = Some (advance l w).
Proof.
  unfold advance, callDepth. rewrite (advance_depth 1 l w).
  destruct (advance_Some l w) as [x Hx]. by rewrite Hx.
Qed.

(** A call of [scheduleTrackAdvance] is the call in which the nested
    [advanceToNextTrack] does nothing, followed or not by an advance. *)
Lemma schedule_cases l w :
  ∃ wb, scheduleBody (λ _ w', Some w') l w = Some wb ∧
        (schedule l w = wb ∨ schedule l w = advance l wb).
Proof.
  unfold schedule, callDepth.
  change (scheduleTrackAdvance 4) with (scheduleBody (advanceToNextTrack 3)).
  unfold scheduleBody.
  generalize (cancelTimer l w). intros w1.
  destruct (head (queueOf l w1)) as [tr|]; [|eexists; split; [reflexivity|by left]].
  destruct (ensureDuration l tr w1) as [d w2].
  destruct (ensureStartTime l tr w2) as [st w3].
  destruct (Date_now w3) as [t w4].
  destruct (Z.max 0 (d * 1000 - (t - st)) <=? 0).
  - exists w4. split; [reflexivity|]. right. by rewrite advance_returns.
  - destruct (setTimeout _ _ w4) as [timer w5].
    eexists; split; [reflexivity|by left].
Qed.

Section EngineAt.
Variable l : string.
Variable P : World → Prop.

Hypothesis E_cancel : ∀ w, P w → P (cancelTimer l w).
Hypothesis E_now : ∀ w, P w → P (snd (Date_now w)).
Hypothesis E_queue : ∀ g w, P w → P (updateLobby l (withQueue g) w).
Hypothesis E_arm :
  ∀ d w, P w →
    P (setAdvanceTimers <[l := fst (setTimeout (AdvanceCb l) d w)]>
         (snd (setTimeout (AdvanceCb l) d w))).
Hypothesis E_lock : ∀ w, P w → P (setLocks <[l := true]> w).
Hypothesis E_broadcast :
  ∀ q w, P w → P (emit (ToRoom l) (fila_atualizada q) w).
Hypothesis E_release : ∀ w, P w → P (snd (setTimeout (UnlockCb l) 1000 w)).

Lemma blocked_at w w' :
  P w → scheduleBody (λ _ w'', Some w'') l w = Some w' → P w'.
Proof.
  intros H. unfold scheduleBody.
  pose proof (E_cancel w H) as H1. revert H1.
  generalize (cancelTimer l w).
  intros w1 H1. destruct (head (queueOf l w1)) as [tr|]; [|congruence].
  assert (P (snd (ensureDuration l tr w1))) as H2.
  { unfold ensureDuration. destruct (lacksDuration tr); [|exact H1].
    by apply E_queue. }
  destruct (ensureDuration l tr w1) as [d w2]; simpl in H2.
  assert (P (snd (ensureStartTime l tr w2))) as H3.
  { unfold ensureStartTime. destruct (lacksStartTime tr); [|exact H2].
    apply (E_queue _ (snd (Date_now w2))). by apply E_now. }
  destruct (ensureStartTime l tr w2) as [st w3]; simpl in H3.
  pose proof (E_now w3 H3) as H4.
  destruct (Date_now w3) as [t w4]; simpl in H4.
  destruct (Z.max 0 (d * 1000 - (t - st)) <=? 0); [congruence|].
  pose proof (E_arm (Z.max 0 (d * 1000 - (t - st))) w4 H4) as H5.
  destruct (setTimeout _ _ w4) as [timer w5]; simpl in H5.
  congruence.
Qed.

Lemma advance_at w : P w → P (advance l w).
Proof.
  intros H. rewrite advance_unfold. unfold advanceBody.
  destruct (findLobby l w) as [lobby|]; [|exact H].
  destruct (isLocked l w); [exact H|].
  destruct (queue lobby) as [|removed rest]; [exact H|].
  assert (P (updateLobby l (withQueue tail) (setLocks <[l := true]> w))) as H2
    by auto.
  revert H2. generalize (updateLobby l (withQueue tail) (setLocks <[l := true]> w)).
  intros w2 H2.
  assert (∀ w4, P w4 →
            P (snd (setTimeout (UnlockCb l) 1000
                      (emit (ToRoom l) (fila_atualizada (queueOf l w4)) w4)))) as Hfin
    by auto.
  destruct rest as [|next rest].
  - by apply Hfin.
  - pose proof (E_now w2 H2) as H3.
    destruct (Date_now w2) as [t w3]; simpl in H3.
    destruct (scheduleBody _ l (alterHead l (withStartTime t) w3)) as [w4|] eqn:E;
      [|exact H].
    apply Hfin. apply (blocked_at _ w4 (E_queue _ w3 H3) E).
Qed.

Lemma schedule_at w : P w → P (schedule l w).
Proof.
  intros H. destruct (schedule_cases l w) as (wb & Hb & [->| ->]).
  - by apply (blocked_at w).
  - apply advance_at. by apply (blocked_at w).
Qed.
End EngineAt.

(** The queue of another lobby. *)
Lemma queueOf_users l0 l g w :
  queueOf l0 (updateLobby l (withUsers g) w) = queueOf l0 w.
Proof.
  unfold queueOf. rewrite findLobby_update by reflexivity.
  destruct (findLobby l0 w) as [L|]; [|reflexivity].
  simpl. by destruct (hasId l L).
Qed.

Lemma queueOf_advance_other l0 l w : l0 ≠ l → queueOf l0 (advance l w) = queueOf l0 w.
Proof.
  intros Hne.
  apply (advance_at l (λ w', queueOf l0 w' = queueOf l0 w)); try (intros; assumption);
    try reflexivity.
  - intros w' H. by rewrite queueOf_cancel.
  - intros g w' H. by rewrite queueOf_update_ne.
Qed.

Lemma queueOf_schedule_other l0 l w : l0 ≠ l → queueOf l0 (schedule l w) = queueOf l0 w.
Proof.
  intros Hne.
  apply (schedule_at l (λ w', queueOf l0 w' = queueOf l0 w)); try (intros; assumption);
    try reflexivity.
  - intros w' H. by rewrite queueOf_cancel.
  - intros g w' H. by rewrite queueOf_update_ne.
Qed.

Lemma queueOf_ensureStartTime l tr w :
  queueOf l (snd (ensureStartTime l tr w)) =
  if lacksStartTime tr
  then onHead (withStartTime (fst (Date_now w))) (queueOf l w)
  else queueOf l w.
Proof.
  unfold ensureStartTime. destruct (lacksStartTime tr); [|reflexivity].
  simpl. unfold alterHead. by rewrite queueOf_update.
Qed.

(** The queue the scheduler leaves when its nested call is blocked: the
    head has a positive duration and a start time. *)
Lemma blocked_queue l w w' :
  scheduleBody (λ _ w'', Some w'') l w = Some w' →
  queueOf l w' =
  onHead (λ tr, if lacksStartTime tr
                then withStartTime (fst (Date_now w)) (repairDuration tr)
                else repairDuration tr) (queueOf l w).
Proof.
  unfold scheduleBody.
  pose proof (queueOf_cancel l l w) as Hq. pose proof (reading_cancel l w) as Ht.
  revert Hq Ht. generalize (cancelTimer l w). intros w1 Hq Ht. rewrite Hq.
  destruct (queueOf l w) as [|tr q] eqn:Hw; cbn [head onHead].
  { intros [= <-]. exact Hq. }
  pose proof (queueOf_ensureDuration l tr w1) as H2.
  assert (fst (Date_now (snd (ensureDuration l tr w1))) = fst (Date_now w)) as Ht2.
  { rewrite <- Ht. unfold ensureDuration. by destruct (lacksDuration tr). }
  destruct (ensureDuration l tr w1) as [d w2]; simpl in H2, Ht2.
  pose proof (queueOf_ensureStartTime l tr w2) as H3.
  destruct (ensureStartTime l tr w2) as [st w3]; simpl in H3.
  assert (queueOf l (snd (Date_now w3)) = queueOf l w3) as H4 by reflexivity.
  destruct (Date_now w3) as [t w4]; simpl in H4.
  assert (queueOf l w4 =
          (if lacksStartTime tr
           then withStartTime (fst (Date_now w)) (repairDuration tr)
           else repairDuration tr) :: q) as Hfin.
  { rewrite H4, H3, H2, Hq, Ht2. unfold repairDuration.
    by destruct (lacksStartTime tr), (lacksDuration tr). }
  destruct (Z.max 0 (d * 1000 - (t - st)) <=? 0); [by intros [= <-]|].
  destruct (setTimeout _ _ w4) as [timer w5] eqn:E5.
  intros [= <-]. apply (f_equal snd) in E5. simpl in E5. subst w5. exact Hfin.
Qed.

Lemma playing_repaired t tr :
  playing (if lacksStartTime tr then withStartTime t (repairDuration tr)
           else repairDuration tr) = true.
Proof.
  unfold playing, repairDuration, lacksStartTime.
  destruct (startTime tr) as [st|] eqn:Hs; [destruct (st =? 0)|];
    destruct (lacksDuration tr) eqn:Hd; simpl; rewrite ?Hs; try reflexivity;
    unfold lacksDuration in *; simpl; try reflexivity;
    destruct (duration tr); try discriminate; by rewrite Hd.
Qed.

Lemma blocked_head l w w' :
  scheduleBody (λ _ w'', Some w'') l w = Some w' →
  headPlaying (queueOf l w') = true.
Proof.
  intros H. rewrite (blocked_queue l w w' H).
  destruct (queueOf l w); [reflexivity|]. apply playing_repaired.
Qed.

Lemma advance_head l w :
  headPlaying (queueOf l w) = true → headPlaying (queueOf l (advance l w)) = true.
Proof.
  intros H. rewrite advance_unfold. unfold advanceBody.
  destruct (findLobby l w) as [lobby|] eqn:Hf; [|exact H].
  destruct (isLocked l w); [exact H|].
  destruct (queue lobby) as [|removed rest] eqn:Hq; [exact H|].
  assert (queueOf l (updateLobby l (withQueue tail) (setLocks <[l := true]> w)) = rest)
    as H2.
  { rewrite (queueOf_update_found l tail _ lobby) by exact Hf. by rewrite Hq. }
  revert H2. generalize (updateLobby l (withQueue tail) (setLocks <[l := true]> w)).
  intros w2 H2.
  destruct rest as [|next rest].
  - simpl. change (headPlaying (queueOf l w2) = true). by rewrite H2.
  - destruct (Date_now w2) as [t w3].
    destruct (scheduleBody _ l (alterHead l (withStartTime t) w3)) as [w4|] eqn:E;
      [|exact H].
    simpl. change (headPlaying (queueOf l w4) = true).
    by apply (blocked_head l _ w4 E).
Qed.

Lemma schedule_head l w : headPlaying (queueOf l (schedule l w)) = true.
Proof.
  destruct (schedule_cases l w) as (wb & Hb & [->| ->]).
  - by apply (blocked_head l w).
  - apply advance_head. by apply (blocked_head l w).
Qed.

(** ** The head of a queue plays *)

Lemma queueOf_put l0 L w :
  queueOf l0 (setLobbies (putLobby L) w) =
  if hasId l0 L then queue L else queueOf l0 w.
Proof.
  unfold queueOf, findLobby. simpl. rewrite find_put.
  by destruct (hasId l0 L).
Qed.

Lemma queueOf_delete l0 l w :
  queueOf l0 (deleteLobby l w) = if String.eqb l0 l then [] else queueOf l0 w.
Proof.
  unfold queueOf, findLobby. simpl. rewrite find_delete.
  by destruct (String.eqb l0 l).
Qed.

Lemma headPlaying_snoc q tr :
  q ≠ [] → headPlaying (q ++ [tr]) = headPlaying q.
Proof. by destruct q. Qed.

Lemma head_adicionar s tr w :
  sound w → (∀ l0, headPlaying (queueOf l0 w) = true) →
  ∀ l0, headPlaying (queueOf l0 (adicionar_faixa s tr w)) = true.
Proof.
  intros Hs H l0. unfold adicionar_faixa.
  destruct (findLobbyAndUser s w) as [[lobby user]|] eqn:Hf; [|apply H].
  destruct (negb (isDj (role user))); [apply H|].
  destruct (List.existsb _ (queue lobby)); [apply H|].
  pose proof (found_is_registered s w lobby user Hs Hf) as Hreg.
  cbv zeta. set (lid := lobby_id lobby) in *.
  set (w1 := updateLobby lid (withQueue (λ q, q ++ [tr])) w).
  destruct (Nat.eqb (length (queue lobby ++ [tr])) 1) eqn:Hlen.
  - destruct (Date_now w1) as [t w'] eqn:En.
    change (headPlaying (queueOf l0 (schedule lid (alterHead lid (withStartTime t) w'))) = true).
    destruct (decide (l0 = lid)) as [->|Hne]; [apply schedule_head|].
    rewrite queueOf_schedule_other by exact Hne.
    unfold alterHead. rewrite queueOf_update_ne by exact Hne.
    apply (f_equal snd) in En. simpl in En. subst w'.
    change (headPlaying (queueOf l0 w1) = true).
    unfold w1. rewrite queueOf_update_ne by exact Hne. apply H.
  - change (headPlaying (queueOf l0 w1) = true). unfold w1.
    destruct (decide (l0 = lid)) as [->|Hne].
    + rewrite (queueOf_update_found lid _ w lobby Hreg).
      specialize (H lid). unfold queueOf in H. rewrite Hreg in H.
      rewrite headPlaying_snoc; [exact H|].
      intros Hnil. rewrite Hnil in Hlen. discriminate.
    + rewrite queueOf_update_ne by exact Hne. apply H.
Qed.

Lemma head_musica_terminou s w :
  (∀ l0, headPlaying (queueOf l0 w) = true) →
  ∀ l0, headPlaying (queueOf l0 (musica_terminou s w)) = true.
Proof.
  intros H l0. unfold musica_terminou.
  destruct (findLobbyAndUser s w) as [[lobby user]|]; [|apply H].
  destruct (lobbyAdvanceTimers w !! lobby_id lobby); [apply H|].
  destruct (decide (l0 = lobby_id lobby)) as [->|Hne].
  - by apply advance_head.
  - by rewrite queueOf_advance_other.
Qed.

Lemma headPlaying_filter (p : Track → bool) q :
  match q with tr :: _ => p tr = true | [] => True end →
  headPlaying (List.filter p q) = headPlaying q.
Proof. destruct q as [|tr q]; [reflexivity|]. simpl. by intros ->. Qed.

Lemma head_remover s i w :
  sound w → (∀ l0, headPlaying (queueOf l0 w) = true) →
  ∀ l0, headPlaying (queueOf l0 (remover_faixa s i w)) = true.
Proof.
  intros Hs H l0. unfold remover_faixa.
  destruct (findLobbyAndUser s w) as [[lobby user]|] eqn:Hf; [|apply H].
  destruct (negb (isDj (role user))); [apply H|].
  pose proof (found_is_registered s w lobby user Hs Hf) as Hreg.
  cbv zeta. set (lid := lobby_id lobby) in *.
  set (keep := List.filter (λ t, negb (String.eqb (track_id t) i))).
  set (w1 := updateLobby lid (withQueue keep) w).
  assert (∀ l1, l1 ≠ lid → headPlaying (queueOf l1 w1) = true) as Hother.
  { intros l1 Hne. unfold w1. rewrite queueOf_update_ne by exact Hne. apply H. }
  destruct (_ && _) eqn:Hc.
  - destruct (Date_now w1) as [t w'] eqn:En.
    apply (f_equal snd) in En. simpl in En.
    set (w'' := alterHead lid (withStartTime t) w').
    set (w''' := match lobbyAdvanceTimers w'' !! lid with
                 | Some existingTimer => clearTimeout existingTimer w''
                 | None => w''
                 end).
    change (headPlaying (queueOf l0 (schedule lid w''')) = true).
    destruct (decide (l0 = lid)) as [->|Hne]; [apply schedule_head|].
    rewrite queueOf_schedule_other by exact Hne.
    assert (queueOf l0 w''' = queueOf l0 w'') as ->.
    { unfold w'''. by destruct (lobbyAdvanceTimers w'' !! lid). }
    unfold w'', alterHead. rewrite queueOf_update_ne by exact Hne.
    subst w'. by apply Hother.
  - change (headPlaying (queueOf l0 w1) = true).
    destruct (decide (l0 = lid)) as [->|Hne]; [|by apply Hother].
    unfold w1. rewrite (queueOf_update_found lid _ w lobby Hreg).
    specialize (H lid). unfold queueOf in H. rewrite Hreg in H.
    destruct (queue lobby) as [|hd q]; [reflexivity|].
    unfold keep. simpl. simpl in Hc.
    destruct (String.eqb (track_id hd) i); simpl in *; [|exact H].
    fold keep in Hc |- *. by destruct (keep q).
Qed.

Lemma head_timerFires h w :
  (∀ l0, headPlaying (queueOf l0 w) = true) →
  ∀ l0, headPlaying (queueOf l0 (timerFires h w)) = true.
Proof.
  intros H l0. unfold timerFires.
  destruct (List.find _ (pending w)) as [t|]; [|apply H].
  destruct (now w <? due t); [apply H|].
  destruct (action t) as [l|l]; [|apply H].
  change (headPlaying (queueOf l0 (advance l (clearTimeout h w))) = true).
  destruct (decide (l0 = l)) as [->|Hne].
  - apply advance_head. apply H.
  - rewrite queueOf_advance_other by exact Hne. apply H.
Qed.

Lemma head_step e w :
  sound w → (∀ l0, headPlaying (queueOf l0 w) = true) →
  ∀ l0, headPlaying (queueOf l0 (step e w)) = true.
Proof.
  intros Hs H. destruct e as [s l n|s l n|s tr|s|s i|s|h|ts]; simpl.
  - intros l0. unfold criar_lobby. destruct (blank n); [apply H|].
    change (headPlaying (queueOf l0 (setLobbies
              (putLobby (mkLobby l [mkUser s (trim n) dj] [])) w)) = true).
    rewrite queueOf_put. destruct (hasId l0 _); [reflexivity|apply H].
  - intros l0. unfold entrar_lobby.
    destruct (blank l); [apply H|]. destruct (blank n); [apply H|].
    destruct (findLobby (trim l) w) as [lobby|];
      [|destruct (List.existsb _ inherited); apply H].
    cbv zeta.
    change (headPlaying (queueOf l0 (updateLobby (lobby_id lobby)
              (withUsers (λ us, us ++ [mkUser s (trim n)
                 (if Nat.ltb (length (List.filter (λ u, isDj (role u)) (users lobby))) 2
                  then dj else spectator)])) w)) = true).
    rewrite queueOf_users. apply H.
  - by apply head_adicionar.
  - by apply head_musica_terminou.
  - by apply head_remover.
  - intros l0. unfold disconnect.
    destruct (findLobbyAndUser s w) as [[lobby user]|]; [|apply H].
    cbv zeta.
    assert (∀ l1, headPlaying (queueOf l1 (cancelTimer (lobby_id lobby)
              (emit (ToRoomExcept (lobby_id lobby) s) (usuario_saiu user)
                 (updateLobby (lobby_id lobby)
                    (withUsers (List.filter
                       (λ u, negb (String.eqb (user_id u) (user_id user))))) w)))) = true)
      as H1.
    { intros l1. rewrite queueOf_cancel.
      change (headPlaying (queueOf l1 (updateLobby (lobby_id lobby)
                (withUsers (List.filter
                   (λ u, negb (String.eqb (user_id u) (user_id user))))) w)) = true).
      rewrite queueOf_users. apply H. }
    destruct (Nat.eqb _ 0); [|apply H1].
    rewrite queueOf_delete. destruct (String.eqb l0 _); [reflexivity|apply H1].
  - by apply head_timerFires.
  - exact H.
Qed.

(** X4. In every state the process reaches, the track at the head of each
    queue carries a start time and a positive duration. *)
Theorem head_of_queue_is_playing (run : list Event) :
  Forall (λ L, headPlaying (queue L) = true) (lobbies (exec run initial)).
Proof.
  assert (sound (exec run initial)) as Hs by apply sound_exec, sound_initial.
  assert (∀ l0, headPlaying (queueOf l0 (exec run initial)) = true) as H.
  { apply (reachable_ind (λ w, ∀ l0, headPlaying (queueOf l0 w) = true)).
    - reflexivity.
    - intros e w. apply head_step. }
  apply List.Forall_forall. intros L HL.
  specialize (H (lobby_id L)). unfold queueOf, findLobby in H.
  by rewrite (find_registered _ _ L (proj1 Hs) HL eq_refl) in H.
Qed.

(** ** Locks and the timers that release them *)

Lemma disciplined_clear h w : disciplined w → disciplined (clearTimeout h w).
Proof.
  intros (H1 & H2 & H3). split; [|split]; simpl.
  - intros t Ht. apply List.filter_In in Ht as [Ht _]. by apply H1.
  - by apply NoDup_map_filter.
  - intros l h' Hl. destruct (H3 l h' Hl) as [Hlt Hact]. split; [exact Hlt|].
    intros t Ht. apply List.filter_In in Ht as [Ht _]. by apply Hact.
Qed.

Lemma disciplined_forget l w :
  disciplined w → disciplined (setAdvanceTimers (delete l) w).
Proof.
  intros (H1 & H2 & H3). split; [exact H1|split; [exact H2|]]; simpl.
  intros l' h Hl. apply lookup_delete_Some in Hl as [_ Hl]. by apply H3.
Qed.

Lemma disciplined_cancel l w : disciplined w → disciplined (cancelTimer l w).
Proof.
  intros H. unfold cancelTimer. destruct (lobbyAdvanceTimers w !! l); [|exact H].
  by apply disciplined_forget, disciplined_clear.
Qed.

Lemma fresh_handle w :
  disciplined w → ¬ In (nextHandle w) (List.map handle (pending w)).
Proof.
  intros (H1 & _) Hin. apply List.in_map_iff in Hin as (t & Ht & Hin).
  specialize (H1 t Hin). lia.
Qed.

Lemma disciplined_setTimeout cb d w :
  disciplined w → disciplined (snd (setTimeout cb d w)).
Proof.
  intros H. pose proof (fresh_handle w H) as Hfresh.
  destruct H as (H1 & H2 & H3). split; [|split]; simpl.
  - intros t Ht. apply in_app_or in Ht as [Ht|[<-|[]]]; [|simpl; lia].
    specialize (H1 t Ht). lia.
  - rewrite List.map_app. simpl. apply List.NoDup_app; [exact H2| |].
    + constructor; [intros []|constructor].
    + intros h Hh [<-|[]]. by apply Hfresh.
  - intros l h Hl. destruct (H3 l h Hl) as [Hlt Hact]. split; [lia|].
    intros t Ht. apply in_app_or in Ht as [Ht|[<-|[]]]; [by apply Hact|].
    simpl. lia.
Qed.

Lemma disciplined_arm l d w :
  disciplined w →
  disciplined (setAdvanceTimers <[l := fst (setTimeout (AdvanceCb l) d w)]>
                 (snd (setTimeout (AdvanceCb l) d w))).
Proof.
  intros H. pose proof (disciplined_setTimeout (AdvanceCb l) d w H) as (H1' & H2' & H3').
  destruct H as (H1 & H2 & H3).
  split; [exact H1'|split; [exact H2'|]].
  intros l' h Hl. cbn [lobbyAdvanceTimers setAdvanceTimers setTimeout fst snd] in Hl.
  destruct (decide (l' = l)) as [->|Hne].
  - rewrite lookup_insert_eq in Hl. injection Hl as <-. split; [simpl; lia|].
    intros t Ht Hh. simpl in Ht. apply in_app_or in Ht as [Ht|[<-|[]]]; [|reflexivity].
    specialize (H1 t Ht). lia.
  - rewrite lookup_insert_ne in Hl by congruence. by apply H3'.
Qed.

Lemma disciplined_schedule l w : disciplined w → disciplined (schedule l w).
Proof.
  apply schedule_at; try (intros; assumption).
  - intros. by apply disciplined_cancel.
  - intros. by apply disciplined_arm.
  - intros. by apply disciplined_setTimeout.
Qed.

Lemma disciplined_advance l w : disciplined w → disciplined (advance l w).
Proof.
  apply advance_at; try (intros; assumption).
  - intros. by apply disciplined_cancel.
  - intros. by apply disciplined_arm.
  - intros. by apply disciplined_setTimeout.
Qed.

(** Clearing a handle that names no release timer of the lobby. *)
Lemma release_clear l0 h ps :
  (∀ t, In t ps → handle t = h → isRelease l0 t = false) →
  List.filter (isRelease l0) (List.filter (λ t, negb (Nat.eqb (handle t) h)) ps) =
  List.filter (isRelease l0) ps.
Proof.
  induction ps as [|t ps IH]; intros H; [reflexivity|]. simpl.
  destruct (Nat.eqb (handle t) h) eqn:E; simpl.
  - apply Nat.eqb_eq in E. rewrite (H t (or_introl eq_refl) E).
    apply IH. intros t' Ht'. apply H. by right.
  - rewrite IH; [reflexivity|]. intros t' Ht'. apply H. by right.
Qed.

Lemma release_clear_stored l0 l h w :
  disciplined w → lobbyAdvanceTimers w !! l = Some h →
  releaseTimers l0 (clearTimeout h w) = releaseTimers l0 w.
Proof.
  intros (_ & _ & H3) Hl. apply release_clear.
  intros t Ht Hh. unfold isRelease.
  by rewrite (proj2 (H3 l h Hl) t Ht Hh).
Qed.

Lemma release_cancel l0 l w :
  disciplined w → releaseTimers l0 (cancelTimer l w) = releaseTimers l0 w.
Proof.
  intros H. unfold cancelTimer.
  destruct (lobbyAdvanceTimers w !! l) as [h|] eqn:E; [|reflexivity].
  exact (release_clear_stored l0 l h w H E).
Qed.

Lemma release_setTimeout l0 cb d w :
  releaseTimers l0 (snd (setTimeout cb d w)) =
  releaseTimers l0 w ++
    (if isRelease l0 (mkTimer (nextHandle w) 0 cb) then
       [mkTimer (nextHandle w)
          (now w + if (1 <=? d) && (d <=? TIMEOUT_MAX) then d else 1) cb]
     else []).
Proof.
  unfold releaseTimers. simpl. rewrite List.filter_app. simpl.
  unfold isRelease. simpl. by destruct cb as [l|l]; [|destruct (String.eqb l l0)].
Qed.

Lemma midAdvance_blocked l w w' :
  midAdvance l w → scheduleBody (λ _ w'', Some w'') l w = Some w' → midAdvance l w'.
Proof.
  apply blocked_at.
  - intros w1 (HD & HL & HR & HO). split; [by apply disciplined_cancel|].
    split; [unfold isLocked; by rewrite locks_cancel|].
    split; [by rewrite release_cancel|].
    intros l0 Hne. unfold coolingDown, isLocked.
    rewrite release_cancel, locks_cancel by exact HD. by apply HO.
  - intros w1 H. exact H.
  - intros g w1 H. exact H.
  - intros d w1 (HD & HL & HR & HO). split; [by apply disciplined_arm|].
    split; [exact HL|].
    assert (∀ l0, releaseTimers l0
              (setAdvanceTimers <[l := fst (setTimeout (AdvanceCb l) d w1)]>
                 (snd (setTimeout (AdvanceCb l) d w1))) = releaseTimers l0 w1) as Hr.
    { intros l0.
      change (releaseTimers l0 (snd (setTimeout (AdvanceCb l) d w1)) = releaseTimers l0 w1).
      rewrite release_setTimeout. simpl. apply app_nil_r. }
    split; [by rewrite Hr|].
    intros l0 Hne. unfold coolingDown. rewrite Hr. by apply HO.
Qed.

Lemma settled_blocked l w w' :
  settled w → scheduleBody (λ _ w'', Some w'') l w = Some w' → settled w'.
Proof.
  apply blocked_at.
  - intros w1 (HD & HK). split; [by apply disciplined_cancel|].
    intros l0. unfold coolingDown, isLocked.
    rewrite release_cancel, locks_cancel by exact HD. by apply HK.
  - intros w1 H. exact H.
  - intros g w1 H. exact H.
  - intros d w1 (HD & HK). split; [by apply disciplined_arm|].
    intros l0. unfold coolingDown.
    change (length (releaseTimers l0 (snd (setTimeout (AdvanceCb l) d w1))) =
            if isLocked l0 w1 then 1%nat else 0%nat).
    rewrite release_setTimeout. simpl. rewrite app_nil_r. by apply HK.
Qed.

Lemma isLocked_other l0 l w :
  l0 ≠ l → isLocked l0 (setLocks <[l := true]> w) = isLocked l0 w.
Proof. intros Hne. unfold isLocked. simpl. by rewrite lookup_insert_ne. Qed.

Lemma settled_advance l w : settled w → settled (advance l w).
Proof.
  intros H. rewrite advance_unfold. unfold advanceBody.
  destruct (findLobby l w) as [lobby|]; [|exact H].
  destruct (isLocked l w) eqn:Hl; [exact H|].
  destruct (queue lobby) as [|removed rest]; [exact H|].
  assert (midAdvance l (updateLobby l (withQueue tail) (setLocks <[l := true]> w)))
    as H2.
  { destruct H as (HD & HK). split; [exact HD|].
    split; [apply isLocked_insert|].
    split.
    - specialize (HK l). unfold coolingDown in HK. rewrite Hl in HK.
      change (releaseTimers l w = []). by apply length_zero_iff_nil.
    - intros l0 Hne. specialize (HK l0). unfold coolingDown in *.
      change (length (releaseTimers l0 w) =
              if isLocked l0 (setLocks <[l := true]> w) then 1%nat else 0%nat).
      by rewrite isLocked_other. }
  revert H2. generalize (updateLobby l (withQueue tail) (setLocks <[l := true]> w)).
  intros w2 H2.
  assert (∀ w4, midAdvance l w4 →
            settled (snd (setTimeout (UnlockCb l) 1000
                      (emit (ToRoom l) (fila_atualizada (queueOf l w4)) w4)))) as Hfin.
  { intros w4 (HD & HL & HR & HO).
    split; [apply disciplined_setTimeout; exact HD|].
    intros l0. unfold coolingDown. rewrite release_setTimeout.
    change (releaseTimers l0 (emit (ToRoom l) (fila_atualizada (queueOf l w4)) w4))
      with (releaseTimers l0 w4).
    change (isLocked l0 (snd (setTimeout (UnlockCb l) 1000
              (emit (ToRoom l) (fila_atualizada (queueOf l w4)) w4))))
      with (isLocked l0 w4).
    unfold isRelease. simpl. destruct (String.eqb l l0) eqn:E.
    - apply String.eqb_eq in E. subst l0. by rewrite HR, HL.
    - apply String.eqb_neq in E. rewrite app_nil_r. apply HO. congruence. }
  destruct rest as [|next rest].
  - by apply Hfin.
  - destruct (Date_now w2) as [t w3] eqn:En.
    apply (f_equal snd) in En. simpl in En.
    destruct (scheduleBody _ l (alterHead l (withStartTime t) w3)) as [w4|] eqn:E;
      [|exact H].
    apply Hfin.
    apply (midAdvance_blocked l (alterHead l (withStartTime t) w3) w4); [|exact E].
    subst w3. exact H2.
Qed.

Lemma settled_schedule l w : settled w → settled (schedule l w).
Proof.
  intros H. destruct (schedule_cases l w) as (wb & Hb & [->| ->]).
  - by apply (settled_blocked l w).
  - apply settled_advance. by apply (settled_blocked l w).
Qed.

(** Clearing the handle of a pending timer removes that timer alone. *)
Lemma release_fire l0 t ps :
  List.NoDup (List.map handle ps) → In t ps →
  length (List.filter (isRelease l0) ps) =
  (length (List.filter (isRelease l0)
             (List.filter (λ t', negb (Nat.eqb (handle t') (handle t))) ps)) +
   if isRelease l0 t then 1 else 0)%nat.
Proof.
  induction ps as [|t' ps IH]; simpl; [intros _ []|].
  intros Hnd Hin. apply List.NoDup_cons_iff in Hnd as [Hnot Hnd].
  destruct Hin as [->|Hin].
  - rewrite Nat.eqb_refl. simpl.
    rewrite release_clear.
    + destruct (isRelease l0 t); simpl; lia.
    + intros t' Ht' Hh. exfalso. apply Hnot. rewrite <- Hh. by apply List.in_map.
  - destruct (Nat.eqb (handle t') (handle t)) eqn:E.
    + apply Nat.eqb_eq in E. exfalso. apply Hnot. rewrite E. by apply List.in_map.
    + simpl. specialize (IH Hnd Hin).
      destruct (isRelease l0 t'); simpl; lia.
Qed.

Lemma settled_timerFires h w : settled w → settled (timerFires h w).
Proof.
  intros H. unfold timerFires.
  destruct (List.find _ (pending w)) as [t|] eqn:Hf; [|exact H].
  destruct (now w <? due t); [exact H|].
  apply List.find_some in Hf as [Hin Hh]. apply Nat.eqb_eq in Hh. subst h.
  destruct H as (HD & HK).
  assert (disciplined (clearTimeout (handle t) w)) as HD1
    by (by apply disciplined_clear).
  destruct (action t) as [l|l] eqn:Ha.
  - assert (settled (clearTimeout (handle t) w)) as H1.
    { split; [exact HD1|]. intros l0. unfold coolingDown.
      change (isLocked l0 (clearTimeout (handle t) w)) with (isLocked l0 w).
      rewrite <- (HK l0). unfold releaseTimers. simpl.
      rewrite (release_fire l0 t (pending w) (proj1 (proj2 HD)) Hin).
      unfold isRelease at 3. rewrite Ha. lia. }
    pose proof (settled_advance l _ H1) as (HD2 & HK2).
    split; [by apply disciplined_forget|]. exact HK2.
  - split; [exact HD1|]. intros l0. unfold coolingDown.
    pose proof (release_fire l0 t (pending w) (proj1 (proj2 HD)) Hin) as Hr.
    pose proof (HK l0) as HK0. unfold coolingDown, releaseTimers in HK0.
    unfold releaseTimers. simpl. unfold isRelease at 3 in Hr. rewrite Ha in Hr.
    unfold isLocked. simpl. destruct (String.eqb l l0) eqn:E.
    + apply String.eqb_eq in E. subst l0. rewrite lookup_delete_eq.
      destruct (isLocked l w); lia.
    + apply String.eqb_neq in E. rewrite lookup_delete_ne by exact E.
      fold (isLocked l0 w). lia.
Qed.

Lemma settled_step e w : settled w → settled (step e w).
Proof.
  intros H. destruct e as [s l n|s l n|s tr|s|s i|s|h|ts]; simpl.
  - unfold criar_lobby. by destruct (blank n).
  - unfold entrar_lobby. destruct (blank l); [exact H|].
    destruct (blank n); [exact H|].
    destruct (findLobby (trim l) w); [exact H|].
    by destruct (List.existsb _ inherited).
  - unfold adicionar_faixa.
    destruct (findLobbyAndUser s w) as [[lobby user]|]; [|exact H].
    destruct (negb (isDj (role user))); [exact H|].
    destruct (List.existsb _ (queue lobby)); [exact H|].
    cbv zeta. destruct (Nat.eqb _ 1); [|exact H].
    destruct (Date_now _) as [t w'] eqn:En.
    apply (f_equal snd) in En. simpl in En.
    change (settled (schedule (lobby_id lobby)
              (alterHead (lobby_id lobby) (withStartTime t) w'))).
    apply settled_schedule. subst w'. exact H.
  - unfold musica_terminou.
    destruct (findLobbyAndUser s w) as [[lobby user]|]; [|exact H].
    destruct (lobbyAdvanceTimers w !! lobby_id lobby); [exact H|].
    by apply settled_advance.
  - unfold remover_faixa.
    destruct (findLobbyAndUser s w) as [[lobby user]|]; [|exact H].
    destruct (negb (isDj (role user))); [exact H|].
    cbv zeta. destruct (_ && _); [|exact H].
    set (w1 := updateLobby _ _ w).
    destruct (Date_now w1) as [t w'] eqn:En.
    apply (f_equal snd) in En. simpl in En.
    set (w'' := alterHead (lobby_id lobby) (withStartTime t) w').
    assert (settled w'') as H2 by (subst w'; exact H).
    change (settled (schedule (lobby_id lobby)
              match lobbyAdvanceTimers w'' !! lobby_id lobby with
              | Some existingTimer => clearTimeout existingTimer w''
              | None => w''
              end)).
    apply settled_schedule.
    destruct (lobbyAdvanceTimers w'' !! lobby_id lobby) as [h|] eqn:E; [|exact H2].
    destruct H2 as (HD & HK). split; [by apply disciplined_clear|].
    intros l0. unfold coolingDown.
    rewrite (release_clear_stored l0 _ h w'' HD E). apply HK.
  - unfold disconnect.
    destruct (findLobbyAndUser s w) as [[lobby user]|]; [|exact H].
    cbv zeta.
    assert (∀ w', settled w' → settled (cancelTimer (lobby_id lobby) w')) as Hc.
    { intros w' (HD & HK). split; [by apply disciplined_cancel|].
      intros l0. unfold coolingDown, isLocked.
      rewrite release_cancel, locks_cancel by exact HD. apply HK. }
    set (w1 := emit _ _ _). assert (settled w1) as H1 by exact H.
    destruct (Nat.eqb _ 0); [|by apply Hc].
    change (settled (cancelTimer (lobby_id lobby) w1)). by apply Hc.
  - by apply settled_timerFires.
  - exact H.
Qed.

Lemma settled_initial : settled initial.
Proof.
  split; [|intros l; reflexivity].
  split; [intros t []|]. split; [constructor|]. intros l h Hl. discriminate.
Qed.

Lemma settled_reachable run : settled (exec run initial).
Proof.
  apply (reachable_ind settled); [apply settled_initial|].
  intros e w _. apply settled_step.
Qed.

(** X5. In every state the process reaches, a lobby is locked exactly
    when one timer that releases its lock is pending, and never has two
    such timers: a lock is not left behind, and no release left over from
    an earlier advance cuts a cool-down short. *)
Theorem lock_is_held_by_one_release_timer (run : list Event) (l : string) :
  length (releaseTimers l (exec run initial)) =
  if isLocked l (exec run initial) then 1%nat else 0%nat.
Proof. destruct (settled_reachable run) as [_ H]. apply H. Qed.

(** ** Who is in a lobby *)

Lemma filter_length_le {A} (p : A → bool) (xs : list A) :
  (length (List.filter p xs) ≤ length xs)%nat.
Proof. induction xs as [|x xs IH]; simpl; [lia|]. destruct (p x); simpl; lia. Qed.

Lemma filter_filter_le {A} (p q : A → bool) (xs : list A) :
  (length (List.filter p (List.filter q xs)) ≤ length (List.filter p xs))%nat.
Proof.
  induction xs as [|x xs IH]; simpl; [lia|].
  destruct (q x); simpl; destruct (p x); simpl; lia.
Qed.

(** X11. In every state the process reaches, no lobby has more than two
    djs. *)
Theorem at_most_two_djs (run : list Event) :
  Forall (λ L, (djCount L ≤ 2)%nat) (lobbies (exec run initial)).
Proof.
  apply (membership_reachable (λ L, (djCount L ≤ 2)%nat)).
  - intros g L H. exact H.
  - intros l s n _. unfold djCount. simpl. lia.
  - intros L s n H _. unfold djCount in *. simpl.
    rewrite List.filter_app, length_app.
    destruct (Nat.ltb_spec (length (List.filter (λ u, isDj (role u)) (users L))) 2);
      simpl; lia.
  - intros L i H _. unfold djCount in *. simpl.
    etransitivity; [apply filter_filter_le|exact H].
Qed.

(** X12. In every state the process reaches, every registered lobby has a
    user: the lobby goes with its last user. *)
Theorem no_lobby_without_users (run : list Event) :
  Forall (λ L, users L ≠ []) (lobbies (exec run initial)).
Proof.
  apply (membership_reachable (λ L, users L ≠ [])).
  - intros g L H. exact H.
  - intros l s n _. discriminate.
  - intros L s n H _. simpl. intros Habs. by apply app_eq_nil in Habs as [_ Habs].
  - intros L i _ H. exact H.
Qed.

Lemma append_assoc (a b c : string) : (a +:+ b) +:+ c = a +:+ (b +:+ c).
Proof.
  induction a as [|x a IH]; [reflexivity|].
  change (String x ((a +:+ b) +:+ c) = String x (a +:+ (b +:+ c))). by rewrite IH.
Qed.

Lemma append_nil (a : string) : a +:+ "" = a.
Proof.
  induction a as [|x a IH]; [reflexivity|].
  change (String x (a +:+ "") = String x a). by rewrite IH.
Qed.

Lemma dropPrefix_spec p : ∀ s r, dropPrefix p s = Some r ↔ s = p +:+ r.
Proof.
  induction p as [|a p IH]; intros s r.
  - change (Some s = Some r ↔ s = r). split; congruence.
  - change (String a p +:+ r) with (String a (p +:+ r)).
    destruct s as [|b s]; [split; discriminate|].
    change (dropPrefix (String a p) (String b s)) with
      (if Ascii.eqb a b then dropPrefix p s else None).
    destruct (Ascii.eqb_spec a b) as [->|Hne].
    + rewrite IH. split; [by intros ->|by intros [= ->]].
    + split; [discriminate|intros [= -> _]; contradiction].
Qed.

Lemma utf8_starts c : ∃ b t, utf8 c = String b t.
Proof.
  unfold utf8. destruct (c <? 128)%N; [eauto|].
  destruct (c <? 2048)%N; [eauto|]. destruct (c <? 65536)%N; eauto.
Qed.

Lemma length_append_le (t r : string) :
  (String.length r ≤ String.length (t +:+ r))%nat.
Proof.
  induction t as [|x t IH]; [reflexivity|].
  change (String.length r ≤ S (String.length (t +:+ r)))%nat. lia.
Qed.

Lemma utf8_shortens c r :
  (String.length r < String.length (utf8 c +:+ r))%nat.
Proof.
  destruct (utf8_starts c) as (b & t & ->).
  change (String.length r < S (String.length (t +:+ r)))%nat.
  pose proof (length_append_le t r). lia.
Qed.

Lemma leadingSpace_Some s r :
  leadingSpace s = Some r → ∃ c, In c whiteSpace ∧ s = utf8 c +:+ r.
Proof.
  unfold leadingSpace. induction whiteSpace as [|c cs IH]; [discriminate|].
  simpl. destruct (dropPrefix (utf8 c) s) as [s'|] eqn:E.
  - intros [= ->]. apply dropPrefix_spec in E. exists c. split; [by left|exact E].
  - intros H. destruct (IH H) as (c' & Hin & Hs). exists c'. split; [by right|exact Hs].
Qed.

Lemma leadingSpace_None s :
  leadingSpace s = None → ∀ c r, In c whiteSpace → s ≠ utf8 c +:+ r.
Proof.
  unfold leadingSpace. induction whiteSpace as [|c cs IH]; [intros _ c r []|].
  simpl. destruct (dropPrefix (utf8 c) s) as [s'|] eqn:E; [discriminate|].
  intros H c' r [<-|Hin] Hs.
  - apply dropPrefix_spec in Hs. congruence.
  - exact (IH H c' r Hin Hs).
Qed.

Lemma leadingSpace_utf8 c u :
  In c whiteSpace → leadingSpace (utf8 c +:+ u) = Some u.
Proof.
  unfold whiteSpace. simpl.
  intros H. repeat (destruct H as [<-|H]; [vm_compute; reflexivity|]). contradiction.
Qed.

Lemma leadingSpace_empty : leadingSpace "" = None.
Proof. vm_compute. reflexivity. Qed.

Lemma trimStartFrom_fuel n : ∀ m s,
  (String.length s ≤ n)%nat → (String.length s ≤ m)%nat →
  trimStartFrom n s = trimStartFrom m s.
Proof.
  induction n as [|n IH]; intros [|m] s Hn Hm; [reflexivity| | |].
  - destruct s; [|simpl in Hn; lia]. cbn [trimStartFrom]. by rewrite leadingSpace_empty.
  - destruct s; [|simpl in Hm; lia]. cbn [trimStartFrom]. by rewrite leadingSpace_empty.
  - cbn [trimStartFrom]. destruct (leadingSpace s) as [s'|] eqn:E; [|reflexivity].
    apply leadingSpace_Some in E as (c & _ & ->).
    pose proof (utf8_shortens c s'). apply IH; lia.
Qed.

Lemma trimStartFrom_clean n : ∀ s,
  (String.length s ≤ n)%nat → leadingSpace (trimStartFrom n s) = None.
Proof.
  induction n as [|n IH]; intros s Hn.
  - destruct s; [|simpl in Hn; lia]. apply leadingSpace_empty.
  - cbn [trimStartFrom]. destruct (leadingSpace s) as [s'|] eqn:E; [|exact E].
    apply leadingSpace_Some in E as (c & _ & ->).
    pose proof (utf8_shortens c s'). apply IH. lia.
Qed.

Lemma trimStart_clean s : leadingSpace (trimStart s) = None.
Proof. by apply trimStartFrom_clean. Qed.

Lemma trimStart_fixed s : leadingSpace s = None → trimStart s = s.
Proof.
  intros H. unfold trimStart. destruct (String.length s); [reflexivity|].
  cbn [trimStartFrom]. by rewrite H.
Qed.

Lemma trimStart_space c u : In c whiteSpace → trimStart (utf8 c +:+ u) = trimStart u.
Proof.
  intros Hc. unfold trimStart. pose proof (utf8_shortens c u) as Hlt.
  destruct (String.length (utf8 c +:+ u)) as [|k]; [lia|].
  cbn [trimStartFrom]. rewrite (leadingSpace_utf8 c u Hc). apply trimStartFrom_fuel; lia.
Qed.

Lemma allSpace_eq s : allSpace s = true ↔ trimStart s = "".
Proof. unfold allSpace. apply String.eqb_eq. Qed.

Lemma allSpace_ends n : ∀ s,
  (String.length s ≤ n)%nat → s ≠ "" → trimStartFrom n s = "" →
  ∃ p c, In c whiteSpace ∧ s = p +:+ utf8 c.
Proof.
  induction n as [|n IH]; intros s Hn Hne H.
  - destruct s; [done|simpl in Hn; lia].
  - cbn [trimStartFrom] in H. destruct (leadingSpace s) as [s'|] eqn:E; [|done].
    apply leadingSpace_Some in E as (c & Hc & ->).
    destruct (decide (s' = "")) as [->|Hne'].
    + exists "", c. split; [exact Hc|apply append_nil].
    + pose proof (utf8_shortens c s').
      destruct (IH s') as (p & c' & Hc' & ->); [lia|exact Hne'|exact H|].
      exists (utf8 c +:+ p), c'. split; [exact Hc'|]. by rewrite append_assoc.
Qed.

Lemma trimEnd_cons c s :
  trimEnd (String c s) = if allSpace (String c s) then "" else String c (trimEnd s).
Proof. reflexivity. Qed.

(** What [trimEnd] takes off is white space. *)
Lemma trimEnd_split s : ∃ u, s = trimEnd s +:+ u ∧ allSpace u = true.
Proof.
  induction s as [|c s (u & Hs & Hu)]; [by exists ""|].
  rewrite trimEnd_cons. destruct (allSpace (String c s)) eqn:E.
  - by exists (String c s).
  - exists u. split; [|exact Hu].
    change (String c s = String c (trimEnd s +:+ u)). by rewrite <- Hs.
Qed.

Lemma trimEnd_clean s : ∀ p c, In c whiteSpace → trimEnd s ≠ p +:+ utf8 c.
Proof.
  assert (∀ p c, "" ≠ p +:+ utf8 c) as Hnil.
  { intros p c H. pose proof (utf8_starts c) as (b & t & Hb). rewrite Hb in H.
    destruct p; discriminate. }
  induction s as [|a s IH]; intros p c Hc; [apply Hnil|].
  rewrite trimEnd_cons. destruct (allSpace (String a s)) eqn:E; [apply Hnil|].
  destruct p as [|b p].
  - change ("" +:+ utf8 c) with (utf8 c). intros H.
    destruct (trimEnd_split (String a s)) as (u & Hs & Hu).
    rewrite trimEnd_cons, E, H in Hs.
    assert (allSpace (String a s) = true) as E'; [|congruence].
    rewrite Hs. apply allSpace_eq. rewrite trimStart_space by exact Hc.
    by apply allSpace_eq.
  - change (String b p +:+ utf8 c) with (String b (p +:+ utf8 c)).
    intros [= _ H]. exact (IH p c Hc H).
Qed.

Lemma trimEnd_fixed s :
  (∀ p c, In c whiteSpace → s ≠ p +:+ utf8 c) → trimEnd s = s.
Proof.
  induction s as [|a s IH]; intros H; [reflexivity|].
  rewrite trimEnd_cons. destruct (allSpace (String a s)) eqn:E.
  - exfalso. apply allSpace_eq in E.
    destruct (allSpace_ends _ (String a s) (le_n _) ltac:(discriminate) E)
      as (p & c & Hc & Hs).
    exact (H p c Hc Hs).
  - rewrite IH; [reflexivity|]. intros p c Hc ->.
    exact (H (String a p) c Hc eq_refl).
Qed.

Lemma trimEnd_keeps_front s : leadingSpace s = None → leadingSpace (trimEnd s) = None.
Proof.
  intros H. destruct (leadingSpace (trimEnd s)) as [r|] eqn:E; [|reflexivity].
  exfalso. apply leadingSpace_Some in E as (c & Hc & Hr).
  destruct (trimEnd_split s) as (u & Hs & _).
  rewrite Hr, append_assoc in Hs. exact (leadingSpace_None s H c _ Hc Hs).
Qed.

Lemma trim_clean s :
  (∀ c rest, In c whiteSpace → trim s ≠ utf8 c +:+ rest ∧ trim s ≠ rest +:+ utf8 c) ∧
  trim (trim s) = trim s.
Proof.
  pose proof (trimEnd_keeps_front _ (trimStart_clean s)) as Hfront.
  fold (trim s) in Hfront. split.
  - intros c rest Hc. split.
    + by apply leadingSpace_None.
    + by apply trimEnd_clean.
  - unfold trim at 1. rewrite (trimStart_fixed _ Hfront).
    apply trimEnd_fixed. intros p c Hc. by apply trimEnd_clean.
Qed.

Lemma trimmed_trim n : blank n = false → trimmed (trim n).
Proof.
  unfold blank. intros H. apply orb_false_elim in H as [_ H].
  apply String.eqb_neq in H. split; [exact H|apply trim_clean].
Qed.

(** X13. In every state the process reaches, every user name a lobby holds
    is not empty, neither starts nor ends with a white space character or
    a line terminator of ECMAScript, and is left as it is by [trim]. *)
Theorem user_names_are_trimmed (run : list Event) :
  Forall (λ L, Forall (λ u, trimmed (name u)) (users L)) (lobbies (exec run initial)).
Proof.
  apply (membership_reachable (λ L, Forall (λ u, trimmed (name u)) (users L))).
  - intros g L H. exact H.
  - intros l s n Hn. constructor; [by apply trimmed_trim|constructor].
  - intros L s n H Hn. simpl. apply Forall_app. split; [exact H|].
    constructor; [by apply trimmed_trim|constructor].
  - intros L i H _. simpl. apply List.Forall_forall. intros u Hu.
    apply List.filter_In in Hu as [Hu _].
    by apply (proj1 (List.Forall_forall _ _) H).
Qed.

Lemma find_user_spec s us :
  match List.find (λ u, String.eqb (user_id u) s) us with
  | Some u => ∃ us1 us2, us = us1 ++ u :: us2 ∧ user_id u = s ∧ Forall (notOf s) us1
  | None => Forall (notOf s) us
  end.
Proof.
  induction us as [|u us IH]; simpl; [constructor|].
  destruct (String.eqb (user_id u) s) eqn:E.
  - apply String.eqb_eq in E. exists [], us. by repeat split.
  - apply String.eqb_neq in E.
    destruct (List.find _ us) as [u'|].
    + destruct IH as (us1 & us2 & -> & Hid & Hall).
      exists (u :: us1), us2. repeat split; [exact Hid|]. by constructor.
    + by constructor.
Qed.

(** X10. [findLobbyAndUser] returns the first lobby, in the order of the
    registry, that holds a user with the socket's id, together with the
    first such user of that lobby; it returns nothing exactly when no
    lobby holds one. *)
Theorem findLobbyAndUser_finds_the_first (socketId : string) (w : World) :
  match findLobbyAndUser socketId w with
  | Some (L, u) =>
      ∃ before after us1 us2,
        lobbies w = before ++ L :: after ∧
        Forall (λ L', Forall (notOf socketId) (users L')) before ∧
        users L = us1 ++ u :: us2 ∧ user_id u = socketId ∧
        Forall (notOf socketId) us1
  | None => Forall (λ L', Forall (notOf socketId) (users L')) (lobbies w)
  end.
Proof.
  unfold findLobbyAndUser. induction (lobbies w) as [|L ls IH]; simpl; [constructor|].
  pose proof (find_user_spec socketId (users L)) as Hu.
  destruct (List.find _ (users L)) as [u|].
  - destruct Hu as (us1 & us2 & Hus & Hid & Hall).
    exists [], ls, us1, us2. by repeat split.
  - destruct (findIn socketId ls) as [[L' u']|].
    + destruct IH as (before & after & us1 & us2 & -> & Hb & Hus & Hid & Hall).
      exists (L :: before), after, us1, us2. repeat split; try assumption.
      by constructor.
    + by constructor.
Qed.

(** ** What an advance does *)

Lemma pending_cancel l w : pending (cancelTimer l w) = withoutStored l w.
Proof. unfold cancelTimer, withoutStored. by destruct (lobbyAdvanceTimers w !! l). Qed.

Lemma outbox_cancel l w : outbox (cancelTimer l w) = outbox w.
Proof. unfold cancelTimer. by destruct (lobbyAdvanceTimers w !! l). Qed.

Lemma timers_cancel l w :
  lobbyAdvanceTimers (cancelTimer l w) = delete l (lobbyAdvanceTimers w).
Proof.
  unfold cancelTimer. destruct (lobbyAdvanceTimers w !! l) eqn:E; [reflexivity|].
  symmetry. by apply delete_id.
Qed.

(** What an arming call of the scheduler leaves behind, field by field. *)
Lemma schedule_arms_fields l w tr st :
  head (queueOf l w) = Some tr →
  startTime tr = Some st → st ≠ 0 →
  fst (Date_now w) - st < effectiveDuration tr * 1000 →
  effectiveDuration tr * 1000 - (fst (Date_now w) - st) ≤ TIMEOUT_MAX →
  pending (schedule l w) =
    withoutStored l w ++
      [mkTimer (nextHandle w) (st + effectiveDuration tr * 1000) (AdvanceCb l)] ∧
  lobbyAdvanceTimers (schedule l w) =
    <[l := nextHandle w]> (delete l (lobbyAdvanceTimers w)) ∧
  lobbyProcessingLocks (schedule l w) = lobbyProcessingLocks w ∧
  outbox (schedule l w) = outbox w ∧
  nextHandle (schedule l w) = S (nextHandle w) ∧
  now (schedule l w) = fst (Date_now w) ∧
  clock (schedule l w) = tail (clock w).
Proof.
  intros Hhead Hst Hnz Hlt Hmax. rewrite (schedule_arms l w tr st) by assumption.
  set (w1 := cancelTimer l w).
  assert (pending (snd (ensureDuration l tr w1)) = pending w1 ∧
          lobbyAdvanceTimers (snd (ensureDuration l tr w1)) = lobbyAdvanceTimers w1 ∧
          lobbyProcessingLocks (snd (ensureDuration l tr w1)) = lobbyProcessingLocks w1 ∧
          outbox (snd (ensureDuration l tr w1)) = outbox w1 ∧
          nextHandle (snd (ensureDuration l tr w1)) = nextHandle w1 ∧
          now (snd (ensureDuration l tr w1)) = now w1 ∧
          clock (snd (ensureDuration l tr w1)) = clock w1) as (E1 & E2 & E3 & E4 & E5 & E6 & E7).
  { unfold ensureDuration. by destruct (lacksDuration tr). }
  assert (now w1 = now w ∧ clock w1 = clock w) as [E8 E9].
  { unfold w1, cancelTimer. by destruct (lobbyAdvanceTimers w !! l). }
  cbn [pending lobbyAdvanceTimers lobbyProcessingLocks outbox nextHandle now clock
       setAdvanceTimers setTimeout Date_now fst snd].
  rewrite E1, E2, E3, E4, E5, E6, E7, E8, E9.
  unfold w1. rewrite pending_cancel, timers_cancel, locks_cancel, outbox_cancel,
    nextHandle_cancel.
  repeat split.
  assert ((1 <=? effectiveDuration tr * 1000 - (hd (now w) (clock w) - st)) &&
          (effectiveDuration tr * 1000 - (hd (now w) (clock w) - st) <=? TIMEOUT_MAX) = true)
    as ->.
  { apply andb_true_intro. simpl in Hlt, Hmax. split; apply Z.leb_le; lia. }
  do 3 f_equal. lia.
Qed.

Lemma locks_blocked l w w' :
  scheduleBody (λ _ w'', Some w'') l w = Some w' →
  lobbyProcessingLocks w' = lobbyProcessingLocks w.
Proof.
  apply (blocked_at l (λ w'', lobbyProcessingLocks w'' = lobbyProcessingLocks w));
    try (intros; assumption); try reflexivity.
  intros w1 H. by rewrite locks_cancel.
Qed.

(** Under the lock of the lobby, the scheduler is the scheduler whose
    nested call does nothing. *)
Lemma blocked_is_schedule l w :
  isLocked l w = true → scheduleBody (λ _ w', Some w') l w = Some (schedule l w).
Proof.
  intros Hl. destruct (schedule_cases l w) as (wb & Hb & [->| ->]); [exact Hb|].
  rewrite advance_locked_id; [exact Hb|].
  unfold isLocked in *. by rewrite (locks_blocked l w wb Hb).
Qed.

(** An advance that finds the lobby unlocked and two tracks or more. *)
Lemma advance_effective l w L removed next rest :
  findLobby l w = Some L → isLocked l w = false →
  queue L = removed :: next :: rest →
  advance l w =
  (let w2 := updateLobby l (withQueue tail) (setLocks <[l := true]> w) in
   let w3 := schedule l (alterHead l (withStartTime (fst (Date_now w))) (snd (Date_now w2))) in
   snd (setTimeout (UnlockCb l) 1000
          (emit (ToRoom l) (fila_atualizada (queueOf l w3)) w3))).
Proof.
  intros Hf Hl Hq. rewrite advance_unfold. unfold advanceBody.
  rewrite Hf, Hl, Hq. cbv zeta.
  set (w2 := updateLobby l (withQueue tail) (setLocks <[l := true]> w)).
  change (Date_now w2) with (fst (Date_now w), snd (Date_now w2)). cbv iota.
  rewrite blocked_is_schedule; [reflexivity|].
  apply isLocked_insert.
Qed.

(** X2. [advanceToNextTrack] on a lobby that is not locked and whose queue
    holds two tracks or more, the next track not having run out already
    at the scheduler's reading [t2] of the clock and its remaining time
    being within the range of a Node timer. The head leaves the queue; the
    next track is the head, stamped with the instant [t1] the clock
    showed and with its duration set to 240 when it had none; the lobby is
    locked; the timer whose handle was stored for the lobby is cleared,
    a timer that calls the advance is pending for [t1] plus the duration
    and its handle is stored; the release of the lock is pending for one
    second after [t2]; the new queue is broadcast once. *)
Theorem advance_moves_to_the_next_track
  (l : string) (w : World) (L : Lobby) (removed next : Track) (rest : list Track) :
  findLobby l w = Some L → isLocked l w = false →
  queue L = removed :: next :: rest →
  let t1 := fst (Date_now w) in
  let t2 := fst (Date_now (snd (Date_now w))) in
  let ends := t1 + effectiveDuration next * 1000 in
  t1 ≠ 0 → t2 < ends → ends - t2 ≤ TIMEOUT_MAX →
  let w' := advance l w in
  queueOf l w' = withStartTime t1 (repairDuration next) :: rest ∧
  isLocked l w' = true ∧
  lobbyAdvanceTimers w' !! l = Some (nextHandle w) ∧
  pending w' =
    withoutStored l w ++
      [mkTimer (nextHandle w) ends (AdvanceCb l);
       mkTimer (S (nextHandle w)) (t2 + 1000) (UnlockCb l)] ∧
  outbox w' =
    outbox w ++ [(ToRoom l, fila_atualizada (withStartTime t1 (repairDuration next) :: rest))].
Proof.
  intros Hf Hl Hq t1 t2 ends Hnz Hlt Hmax w'. subst w'.
  rewrite (advance_effective l w L removed next rest Hf Hl Hq). cbv zeta.
  set (w2 := updateLobby l (withQueue tail) (setLocks <[l := true]> w)).
  fold t1. set (w3 := alterHead l (withStartTime t1) (snd (Date_now w2))).
  assert (queueOf l w3 = withStartTime t1 next :: rest) as Hq3.
  { unfold w3, alterHead. rewrite queueOf_update by reflexivity.
    change (queueOf l (snd (Date_now w2))) with (queueOf l w2). unfold w2.
    rewrite (queueOf_update_found l tail _ L) by exact Hf. by rewrite Hq. }
  destruct (lacks_withStartTime t1 next) as [Hd Hr].
  assert (fst (Date_now w3) = t2) as Ht2 by reflexivity.
  destruct (schedule_arms_obs l w3 (withStartTime t1 next) t1) as (Hq' & _ & _);
    [by rewrite Hq3|reflexivity|exact Hnz|rewrite Hd, Ht2; unfold ends in *; lia
    |rewrite Hd, Ht2; unfold ends in *; lia|].
  destruct (schedule_arms_fields l w3 (withStartTime t1 next) t1)
    as (Hp & Htm & Hlk & Hob & Hnh & Hnow & _);
    [by rewrite Hq3|reflexivity|exact Hnz|rewrite Hd, Ht2; unfold ends in *; lia
    |rewrite Hd, Ht2; unfold ends in *; lia|].
  rewrite Hq3 in Hq'. simpl in Hq'. rewrite Hr in Hq'. rewrite Hd in Hp.
  split; [exact Hq'|]. split.
  { unfold isLocked.
    change (match lobbyProcessingLocks (schedule l w3) !! l with
            | Some b => b | None => false end = true).
    rewrite Hlk. apply isLocked_insert. }
  split.
  { change (lobbyAdvanceTimers (schedule l w3) !! l = Some (nextHandle w)).
    rewrite Htm. apply lookup_insert_eq. }
  split.
  { cbn [pending setTimeout snd emit nextHandle now]. rewrite Hp, Hnh, Hnow, Ht2.
    change (withoutStored l w3) with (withoutStored l w).
    change (nextHandle w3) with (nextHandle w).
    rewrite <- app_assoc. reflexivity. }
  cbn [outbox setTimeout snd emit]. rewrite Hob, Hq'. reflexivity.
Qed.

(** X2, on the lobby in which two tracks are queued, five seconds on. *)
Lemma advance_moves_witness :
  queueOf sala (advance sala (setClock [t0 + 6000; t0 + 6000] twoTracks)) =
    [withStartTime (t0 + 6000) (faixa "T2" (Some 1))] ∧
  isLocked sala (advance sala (setClock [t0 + 6000; t0 + 6000] twoTracks)) = true ∧
  lobbyAdvanceTimers (advance sala (setClock [t0 + 6000; t0 + 6000] twoTracks)) !! sala =
    Some 1%nat ∧
  pending (advance sala (setClock [t0 + 6000; t0 + 6000] twoTracks)) =
    [mkTimer 1 (t0 + 7000) (AdvanceCb sala); mkTimer 2 (t0 + 7000) (UnlockCb sala)] ∧
  outbox (advance sala (setClock [t0 + 6000; t0 + 6000] twoTracks)) =
    outbox (setClock [t0 + 6000; t0 + 6000] twoTracks) ++
      [(ToRoom sala, fila_atualizada [withStartTime (t0 + 6000) (faixa "T2" (Some 1))])].
Proof.
  refine (advance_moves_to_the_next_track sala
            (setClock [t0 + 6000; t0 + 6000] twoTracks)
            (mkLobby sala [alice]
               [withStartTime (t0 + 1000) (faixa "T1" (Some 5)); faixa "T2" (Some 1)])
            (withStartTime (t0 + 1000) (faixa "T1" (Some 5))) (faixa "T2" (Some 1)) []
            eq_refl eq_refl eq_refl _ _ _).
  - vm_compute. discriminate.
  - vm_compute. reflexivity.
  - vm_compute. discriminate.
Defined.

(** ** Removing a track *)

Lemma filter_idem {A} (p : A → bool) (xs : list A) :
  List.filter p (List.filter p xs) = List.filter p xs.
Proof.
  induction xs as [|x xs IH]; [reflexivity|]. simpl.
  destruct (p x) eqn:E; simpl; rewrite ?E, IH; reflexivity.
Qed.

Lemma filter_all {A} (p : A → bool) (xs : list A) :
  (∀ x, In x xs → p x = true) → List.filter p xs = xs.
Proof.
  induction xs as [|x xs IH]; intros H; [reflexivity|]. simpl.
  rewrite (H x (or_introl eq_refl)), IH; [reflexivity|].
  intros y Hy. apply H. by right.
Qed.

Lemma updateLobby_same l f w :
  (∀ L, In L (lobbies w) → lobby_id L = l → f L = L) →
  updateLobby l f w = w.
Proof.
  intros H. destruct w as [ls tm lk pd nh ob ck nw]. unfold updateLobby, setLobbies.
  simpl in *. f_equal.
  induction ls as [|L ls IH]; [reflexivity|]. simpl.
  rewrite IH by (intros L' HL'; apply H; by right).
  destruct (hasId l L) eqn:E; [|reflexivity].
  apply hasId_eq in E. by rewrite (H L (or_introl eq_refl) E).
Qed.

(** X8. In a state the process reaches, a dj removes a track that is not
    the one playing: the queue loses the track and is broadcast, nothing
    else happens (no timer, no lock, no reading of the clock); when the id
    is not queued at all the broadcast of the unchanged queue is the only
    effect. *)
Theorem remover_faixa_away_from_the_head
  (run : list Event) (s i : string) (L : Lobby) (u : User) :
  let w := exec run initial in
  let keep := List.filter (λ t, negb (String.eqb (track_id t) i)) in
  findLobbyAndUser s w = Some (L, u) → role u = dj →
  (∀ tr, head (queue L) = Some tr → track_id tr ≠ i) →
  remover_faixa s i w =
    emit (ToRoom (lobby_id L)) (fila_atualizada (keep (queue L)))
      (updateLobby (lobby_id L) (withQueue keep) w) ∧
  queueOf (lobby_id L) (remover_faixa s i w) = keep (queue L) ∧
  (¬ In i (List.map track_id (queue L)) →
   remover_faixa s i w = emit (ToRoom (lobby_id L)) (fila_atualizada (queue L)) w).
Proof.
  intros w keep Hfind Hrole Hhead.
  assert (sound w) as Hs by apply sound_exec, sound_initial.
  pose proof (found_is_registered s w L u Hs Hfind) as Hreg.
  assert (remover_faixa s i w =
          emit (ToRoom (lobby_id L)) (fila_atualizada (keep (queue L)))
            (updateLobby (lobby_id L) (withQueue keep) w)) as Heq.
  { unfold remover_faixa. rewrite Hfind, Hrole. cbn [isDj negb]. cbv zeta.
    assert (match queue L with
            | t :: _ => String.eqb (track_id t) i
            | [] => false
            end = false) as ->.
    { destruct (queue L) as [|tr q]; [reflexivity|].
      apply String.eqb_neq. by apply Hhead. }
    cbn [andb]. fold keep.
    by rewrite (queueOf_update_found (lobby_id L) keep w L Hreg). }
  split; [exact Heq|]. split.
  - rewrite Heq. exact (queueOf_update_found (lobby_id L) keep w L Hreg).
  - intros Hnot. rewrite Heq.
    assert (keep (queue L) = queue L) as Hk.
    { apply filter_all. intros tr Htr. apply negb_true_iff, String.eqb_neq.
      intros <-. apply Hnot. by apply List.in_map. }
    rewrite Hk. f_equal. apply updateLobby_same. intros L0 HL0 Hid.
    assert (L0 = L) as ->.
    { apply (same_id_same_lobby (lobbies w)); [apply Hs|exact HL0| |exact Hid].
      by apply findLobby_In in Hreg. }
    unfold withQueue. rewrite Hk. by destruct L.
Qed.

(** X8, for the second of three tracks and for an id nobody queued. *)
Lemma remover_faixa_away_witness :
  (remover_faixa aliceId "T2" (exec threeTracksRun initial) =
     emit (ToRoom sala)
       (fila_atualizada [withStartTime (t0 + 1000) (faixa "T1" (Some 30)); faixa "T3" None])
       (updateLobby sala
          (withQueue (List.filter (λ t, negb (String.eqb (track_id t) "T2"))))
          (exec threeTracksRun initial))) ∧
  remover_faixa aliceId "T9" (exec threeTracksRun initial) =
    emit (ToRoom sala)
      (fila_atualizada [withStartTime (t0 + 1000) (faixa "T1" (Some 30));
                        faixa "T2" (Some 30); faixa "T3" None])
      (exec threeTracksRun initial).
Proof.
  split.
  - refine (proj1 (remover_faixa_away_from_the_head threeTracksRun aliceId "T2"
              (mkLobby sala [alice]
                 [withStartTime (t0 + 1000) (faixa "T1" (Some 30));
                  faixa "T2" (Some 30); faixa "T3" None]) alice eq_refl eq_refl _)).
    intros tr [= <-]. vm_compute. discriminate.
  - refine (proj2 (proj2 (remover_faixa_away_from_the_head threeTracksRun aliceId "T9"
              (mkLobby sala [alice]
                 [withStartTime (t0 + 1000) (faixa "T1" (Some 30));
                  faixa "T2" (Some 30); faixa "T3" None]) alice eq_refl eq_refl _)) _).
    + intros tr [= <-]. vm_compute. discriminate.
    + vm_compute. intros [H|[H|[H|[]]]]; discriminate.
Defined.

(** X7. In a state the process reaches, a dj removes the track that is
    playing while others are queued behind it, the next track not having
    run out already at the scheduler's reading [t2] of the clock and its
    remaining time being within the range of a Node timer. The next track
    is the head, stamped with the instant [t1] the clock showed and with
    its duration set to 240 when it had none; the timer whose handle was
    stored for the lobby is cleared, a timer that calls the advance is
    pending for [t1] plus the duration and its handle is stored; no lock
    changes; the new queue is broadcast once. *)
Theorem remover_faixa_of_the_playing_track
  (run : list Event) (s i : string) (L : Lobby) (u : User)
  (playingTr next : Track) (q more : list Track) :
  let w := exec run initial in
  let lobbyId := lobby_id L in
  findLobbyAndUser s w = Some (L, u) → role u = dj →
  queue L = playingTr :: q → track_id playingTr = i →
  List.filter (λ t, negb (String.eqb (track_id t) i)) q = next :: more →
  let t1 := fst (Date_now w) in
  let t2 := fst (Date_now (snd (Date_now w))) in
  let ends := t1 + effectiveDuration next * 1000 in
  t1 ≠ 0 → t2 < ends → ends - t2 ≤ TIMEOUT_MAX →
  let w' := remover_faixa s i w in
  queueOf lobbyId w' = withStartTime t1 (repairDuration next) :: more ∧
  lobbyAdvanceTimers w' !! lobbyId = Some (nextHandle w) ∧
  pending w' = withoutStored lobbyId w ++ [mkTimer (nextHandle w) ends (AdvanceCb lobbyId)] ∧
  lobbyProcessingLocks w' = lobbyProcessingLocks w ∧
  outbox w' =
    outbox w ++
      [(ToRoom lobbyId, fila_atualizada (withStartTime t1 (repairDuration next) :: more))].
Proof.
  intros w lobbyId Hfind Hrole Hq Hid Hkeep t1 t2 ends Hnz Hlt Hmax w'. subst w'.
  assert (sound w) as Hs by apply sound_exec, sound_initial.
  pose proof (found_is_registered s w L u Hs Hfind) as Hreg. fold lobbyId in Hreg.
  unfold remover_faixa. rewrite Hfind, Hrole. cbn [isDj negb]. cbv zeta.
  fold lobbyId. set (keep := List.filter (λ t, negb (String.eqb (track_id t) i))) in *.
  assert (keep (queue L) = next :: more) as Hk.
  { rewrite Hq. unfold keep. simpl. fold keep.
    apply String.eqb_eq in Hid. by rewrite Hid. }
  apply String.eqb_eq in Hid. rewrite Hk, Hq, Hid. cbn [length Nat.ltb Nat.leb andb].
  set (w1 := updateLobby lobbyId (withQueue keep) w).
  change (Date_now w1) with (t1, snd (Date_now w1)). cbv iota.
  set (w2 := alterHead lobbyId (withStartTime t1) (snd (Date_now w1))).
  set (w3 := match lobbyAdvanceTimers w2 !! lobbyId with
             | Some existingTimer => clearTimeout existingTimer w2
             | None => w2
             end).
  assert (queueOf lobbyId w3 = withStartTime t1 next :: more) as Hq3.
  { assert (queueOf lobbyId w3 = queueOf lobbyId w2) as ->
      by (unfold w3; by destruct (lobbyAdvanceTimers w2 !! lobbyId)).
    unfold w2, alterHead. rewrite queueOf_update by reflexivity.
    change (queueOf lobbyId (snd (Date_now w1))) with (queueOf lobbyId w1). unfold w1.
    rewrite (queueOf_update_found lobbyId keep w L Hreg). by rewrite Hk. }
  assert (fst (Date_now w3) = t2 ∧ nextHandle w3 = nextHandle w ∧
          lobbyAdvanceTimers w3 = lobbyAdvanceTimers w ∧
          lobbyProcessingLocks w3 = lobbyProcessingLocks w ∧ outbox w3 = outbox w ∧
          withoutStored lobbyId w3 = withoutStored lobbyId w)
    as (Ht2 & Hnh & Htm & Hlk & Hob & Hws).
  { unfold w3, withoutStored.
    change (lobbyAdvanceTimers w2) with (lobbyAdvanceTimers w).
    destruct (lobbyAdvanceTimers w !! lobbyId) as [h|] eqn:E.
    - change (lobbyAdvanceTimers (clearTimeout h w2)) with (lobbyAdvanceTimers w).
      rewrite E. repeat split. apply filter_idem.
    - change (lobbyAdvanceTimers w2) with (lobbyAdvanceTimers w). rewrite E.
      repeat split. }
  destruct (lacks_withStartTime t1 next) as [Hd Hr].
  destruct (schedule_arms_obs lobbyId w3 (withStartTime t1 next) t1) as (Hq' & _ & _);
    [by rewrite Hq3|reflexivity|exact Hnz|rewrite Hd, Ht2; unfold ends in *; lia
    |rewrite Hd, Ht2; unfold ends in *; lia|].
  destruct (schedule_arms_fields lobbyId w3 (withStartTime t1 next) t1)
    as (Hp & Htm' & Hlk' & Hob' & _);
    [by rewrite Hq3|reflexivity|exact Hnz|rewrite Hd, Ht2; unfold ends in *; lia
    |rewrite Hd, Ht2; unfold ends in *; lia|].
  rewrite Hq3 in Hq'. simpl in Hq'. rewrite Hr in Hq'. rewrite Hd, Hws, Hnh in Hp.
  cbn [lobbyAdvanceTimers pending lobbyProcessingLocks outbox emit].
  change (queueOf lobbyId (emit (ToRoom lobbyId)
            (fila_atualizada (queueOf lobbyId (schedule lobbyId w3)))
            (schedule lobbyId w3))) with (queueOf lobbyId (schedule lobbyId w3)).
  rewrite Hq', Htm', Hnh, Hp, Hlk', Hlk, Hob', Hob.
  repeat split. apply lookup_insert_eq.
Qed.

(** X7, for the first of two tracks. *)
Lemma remover_faixa_playing_witness :
  queueOf sala (remover_faixa aliceId "T1"
     (exec (threeTracksRun ++ [Clock [t0 + 9000; t0 + 9000]]) initial)) =
    [withStartTime (t0 + 9000) (faixa "T2" (Some 30));  faixa "T3" None] ∧
  lobbyAdvanceTimers (remover_faixa aliceId "T1"
     (exec (threeTracksRun ++ [Clock [t0 + 9000; t0 + 9000]]) initial)) !! sala =
    Some 1%nat ∧
  pending (remover_faixa aliceId "T1"
     (exec (threeTracksRun ++ [Clock [t0 + 9000; t0 + 9000]]) initial)) =
    [mkTimer 1 (t0 + 39000) (AdvanceCb sala)] ∧
  lobbyProcessingLocks (remover_faixa aliceId "T1"
     (exec (threeTracksRun ++ [Clock [t0 + 9000; t0 + 9000]]) initial)) =
    lobbyProcessingLocks (exec (threeTracksRun ++ [Clock [t0 + 9000; t0 + 9000]]) initial) ∧
  outbox (remover_faixa aliceId "T1"
     (exec (threeTracksRun ++ [Clock [t0 + 9000; t0 + 9000]]) initial)) =
    outbox (exec (threeTracksRun ++ [Clock [t0 + 9000; t0 + 9000]]) initial) ++
      [(ToRoom sala,
        fila_atualizada [withStartTime (t0 + 9000) (faixa "T2" (Some 30)); faixa "T3" None])].
Proof.
  refine (remover_faixa_of_the_playing_track
            (threeTracksRun ++ [Clock [t0 + 9000; t0 + 9000]]) aliceId "T1"
            (mkLobby sala [alice]
               [withStartTime (t0 + 1000) (faixa "T1" (Some 30));
                faixa "T2" (Some 30); faixa "T3" None]) alice
            (withStartTime (t0 + 1000) (faixa "T1" (Some 30))) (faixa "T2" (Some 30))
            [faixa "T2" (Some 30); faixa "T3" None] [faixa "T3" None]
            eq_refl eq_refl eq_refl eq_refl eq_refl _ _ _).
  - vm_compute. discriminate.
  - vm_compute. reflexivity.
  - vm_compute. discriminate.
Defined.

(** ** Leaving, the depth of the mutual calls, the older handler *)

(** X9. In a state the process reaches, a disconnect takes the socket out
    of the first lobby that holds it and touches no other lobby, not even
    one the socket is in as well: the lobby keeps its other users and its
    queue, or is deleted when nobody is left; its stored timer is cleared,
    and those who stay are told. *)
Theorem disconnect_leaves_the_first_lobby
  (run : list Event) (s : string) (L : Lobby) (u : User) :
  let w := exec run initial in
  findLobbyAndUser s w = Some (L, u) →
  let rest := List.filter (λ u', negb (String.eqb (user_id u') s)) (users L) in
  let w' := disconnect s w in
  findLobby (lobby_id L) w' =
    (if Nat.eqb (length rest) 0 then None
     else Some (mkLobby (lobby_id L) rest (queue L))) ∧
  (∀ l, l ≠ lobby_id L → findLobby l w' = findLobby l w) ∧
  lobbyAdvanceTimers w' = delete (lobby_id L) (lobbyAdvanceTimers w) ∧
  pending w' = withoutStored (lobby_id L) w ∧
  outbox w' = outbox w ++ [(ToRoomExcept (lobby_id L) s, usuario_saiu u)].
Proof.
  intros w Hfind rest w'. subst w'.
  assert (sound w) as Hs by apply sound_exec, sound_initial.
  pose proof (found_is_registered s w L u Hs Hfind) as Hreg.
  destruct (findIn_user s (lobbies w) L u Hfind) as [Hid _].
  unfold disconnect. rewrite Hfind. cbv zeta. rewrite Hid. fold rest.
  set (lid := lobby_id L) in *.
  set (w1 := updateLobby lid
               (withUsers (List.filter (λ u', negb (String.eqb (user_id u') s)))) w).
  set (w3 := cancelTimer lid (emit (ToRoomExcept lid s) (usuario_saiu u) w1)).
  assert (∀ l, findLobby l w3 =
               (λ L0, if hasId lid L0
                      then withUsers (List.filter (λ u', negb (String.eqb (user_id u') s))) L0
                      else L0) <$> findLobby l w) as Hf3.
  { intros l. unfold w3. rewrite findLobby_cancel.
    change (findLobby l (emit (ToRoomExcept lid s) (usuario_saiu u) w1))
      with (findLobby l w1).
    unfold w1. by rewrite findLobby_update. }
  assert (lobbyAdvanceTimers w3 = delete lid (lobbyAdvanceTimers w) ∧
          pending w3 = withoutStored lid w ∧
          outbox w3 = outbox w ++ [(ToRoomExcept lid s, usuario_saiu u)])
    as (Ht & Hp & Ho).
  { unfold w3. rewrite timers_cancel, pending_cancel, outbox_cancel. by repeat split. }
  assert (∀ l, l ≠ lid → findLobby l w3 = findLobby l w) as Hother.
  { intros l Hne. rewrite Hf3. destruct (findLobby l w) as [L0|] eqn:E; [|reflexivity].
    simpl. apply findLobby_id in E.
    destruct (hasId lid L0) eqn:E0; [|reflexivity].
    apply hasId_eq in E0. congruence. }
  destruct (Nat.eqb (length rest) 0) eqn:Hlen.
  - split; [|split; [|by repeat split]].
    + unfold findLobby, deleteLobby. simpl. rewrite find_delete.
      by rewrite String.eqb_refl.
    + intros l Hne. unfold findLobby, deleteLobby. simpl. rewrite find_delete.
      apply String.eqb_neq in Hne. rewrite Hne. apply (Hother l).
      by apply String.eqb_neq.
  - split; [|split; [exact Hother|by repeat split]].
    rewrite Hf3, Hreg. simpl.
    assert (hasId lid L = true) as -> by (by apply hasId_eq). reflexivity.
Qed.

(** X9, for Alice, who opened two lobbies: her first lobby goes, the
    second stays with her in it. *)
Lemma disconnect_witness :
  findLobby sala (disconnect aliceId (exec twoLobbiesRun initial)) = None ∧
  findLobby salaDois (disconnect aliceId (exec twoLobbiesRun initial)) =
    Some (mkLobby salaDois [alice] []).
Proof.
  pose proof (disconnect_leaves_the_first_lobby twoLobbiesRun aliceId
                (mkLobby sala [alice] []) alice eq_refl) as (H1 & H2 & _).
  split; [exact H1|]. apply (H2 salaDois). vm_compute. discriminate.
Defined.

(** X1. The two functions that call each other return: the calls nest four
    deep at most, because the advance that a scheduler starts inside an
    advance finds the lobby locked; and they can nest that deep. *)
Theorem mutual_calls_nest_four_deep :
  (∀ n l w,
     scheduleTrackAdvance (callDepth + n) l w = Some (schedule l w) ∧
     advanceToNextTrack (callDepth + n) l w = Some (advance l w)) ∧
  scheduleTrackAdvance 3 sala bothOver = None.
Proof. split; [apply fuel_suffices|reflexivity]. Qed.

Lemma locks_advance l w :
  lobbyProcessingLocks (advance l w) = lobbyProcessingLocks w ∨
  lobbyProcessingLocks (advance l w) = <[l := true]> (lobbyProcessingLocks w).
Proof.
  rewrite advance_unfold. unfold advanceBody.
  destruct (findLobby l w) as [lobby|]; [|by left].
  destruct (isLocked l w); [by left|].
  destruct (queue lobby) as [|removed rest]; [by left|]. right.
  destruct rest as [|next rest]; [reflexivity|].
  destruct (Date_now _) as [t w3] eqn:En. apply (f_equal snd) in En. simpl in En.
  destruct (scheduleBody _ l (alterHead l (withStartTime t) w3)) as [w4|] eqn:E.
  - simpl. change (lobbyProcessingLocks w4 = <[l:=true]> (lobbyProcessingLocks w)).
    rewrite (locks_blocked l _ w4 E). by subst w3.
  - exfalso. pose proof (blocked_is_schedule l (alterHead l (withStartTime t) w3)) as Hb.
    rewrite E in Hb. subst w3. discriminate Hb. apply isLocked_insert.
Qed.

(** X14. In a state the process reaches, on a signal from a socket that is
    in a lobby, the handler of the older module and [advanceToNextTrack]
    of the present one do the same to the queues and the locks: the same
    ids stay queued in every lobby and the same locks are set; when the
    lobby has fewer than two tracks the two leave the very same state.
    (What the present module adds is the timer for the next track.) *)
Theorem legacy_signal_advances_like_the_engine
  (run : list Event) (s : string) (L : Lobby) (u : User) :
  let w := exec run initial in
  findLobbyAndUser s w = Some (L, u) →
  (∀ l0, queueIds l0 (Legacy.musica_terminou s w) = queueIds l0 (advance (lobby_id L) w)) ∧
  lobbyProcessingLocks (Legacy.musica_terminou s w) =
    lobbyProcessingLocks (advance (lobby_id L) w) ∧
  ((length (queue L) < 2)%nat → Legacy.musica_terminou s w = advance (lobby_id L) w).
Proof.
  intros w Hfind.
  assert (sound w) as Hs by apply sound_exec, sound_initial.
  pose proof (found_is_registered s w L u Hs Hfind) as Hreg.
  unfold Legacy.musica_terminou. rewrite Hfind. cbv zeta.
  rewrite advance_unfold. unfold advanceBody. rewrite Hreg.
  set (l := lobby_id L) in *.
  destruct (isLocked l w); [by repeat split|].
  destruct (queue L) as [|removed rest]; [by repeat split|].
  set (w2 := updateLobby l (withQueue tail) (setLocks <[l := true]> w)).
  destruct rest as [|next rest]; [by repeat split|].
  destruct (Date_now w2) as [t w3] eqn:En.
  apply (f_equal snd) in En. simpl in En.
  assert (isLocked l (alterHead l (withStartTime t) w3) = true) as Hlk
    by (subst w3; apply isLocked_insert).
  pose proof (blocked_is_schedule l (alterHead l (withStartTime t) w3) Hlk) as Hb.
  rewrite Hb.
  pose proof (blocked_schedule_ids) as Hids.
  split; [|split].
  - intros l0. simpl. unfold queueIds at 1 2.
    change (List.map track_id (queueOf l0 (alterHead l (withStartTime t) w3)) =
            List.map track_id (queueOf l0 (schedule l (alterHead l (withStartTime t) w3)))).
    symmetry. exact (Hids l0 l _ _ Hb).
  - simpl.
    change (lobbyProcessingLocks (alterHead l (withStartTime t) w3) =
            lobbyProcessingLocks (schedule l (alterHead l (withStartTime t) w3))).
    symmetry. exact (locks_blocked l _ _ Hb).
  - simpl. lia.
Qed.

(** X14, for Alice's signal while the first of her two tracks plays. *)
Lemma legacy_signal_witness :
  queueIds sala (Legacy.musica_terminou aliceId twoTracks) = ["T2"] ∧
  queueIds sala (advance sala twoTracks) = ["T2"].
Proof.
  pose proof (legacy_signal_advances_like_the_engine
                [Criar aliceId sala "Alice"; Clock [t0 + 1000; t0 + 1000];
                 Adicionar aliceId (faixa "T1" (Some 5));
                 Adicionar aliceId (faixa "T2" (Some 1))] aliceId
                (mkLobby sala [alice]
                   [withStartTime (t0 + 1000) (faixa "T1" (Some 5)); faixa "T2" (Some 1)])
                alice eq_refl) as (H & _).
  split; [reflexivity|]. exact (eq_trans (eq_sym (H sala)) eq_refl).
Defined.

(** ** The room is told the queue *)

Lemma lastBroadcast_emit l to m w :
  lastBroadcast l (emit to m w) =
  match queueSent l (to, m) with
  | Some q => Some q
  | None => lastBroadcast l w
  end.
Proof.
  unfold lastBroadcast.
  change (outbox (emit to m w)) with (outbox w ++ [(to, m)]). rewrite omap_app.
  change (omap (queueSent l) [(to, m)]) with
    (match queueSent l (to, m) with Some q => [q] | None => [] end).
  destruct (queueSent l (to, m)) as [q|].
  - by rewrite last_snoc.
  - by rewrite app_nil_r.
Qed.

Lemma told_frame l w w' :
  lastBroadcast l w' = lastBroadcast l w → queueOf l w' = queueOf l w →
  told l w → told l w'.
Proof. unfold told. by intros -> ->. Qed.

Lemma told_silent l to m w :
  match m with fila_atualizada _ => False | _ => True end →
  told l w → told l (emit to m w).
Proof.
  intros Hm. apply told_frame; [|reflexivity].
  rewrite lastBroadcast_emit. by destruct to, m.
Qed.

Lemma told_emit_self l w :
  told l (emit (ToRoom l) (fila_atualizada (queueOf l w)) w).
Proof.
  unfold told. rewrite lastBroadcast_emit. simpl. by rewrite String.eqb_refl.
Qed.

Lemma lastBroadcast_other l0 l q w :
  l0 ≠ l → lastBroadcast l0 (emit (ToRoom l) (fila_atualizada q) w) = lastBroadcast l0 w.
Proof.
  intros Hne. rewrite lastBroadcast_emit. simpl.
  destruct (String.eqb_spec l l0); [congruence|reflexivity].
Qed.

Lemma lastBroadcast_cancel l0 l w : lastBroadcast l0 (cancelTimer l w) = lastBroadcast l0 w.
Proof. unfold cancelTimer. by destruct (lobbyAdvanceTimers w !! l). Qed.

Lemma lastBroadcast_advance_other l0 l w :
  l0 ≠ l → lastBroadcast l0 (advance l w) = lastBroadcast l0 w.
Proof.
  intros Hne.
  apply (advance_at l (λ w', lastBroadcast l0 w' = lastBroadcast l0 w));
    try (intros; assumption); try reflexivity.
  - intros w' H. by rewrite lastBroadcast_cancel.
  - intros q w' H. by rewrite lastBroadcast_other.
Qed.

Lemma lastBroadcast_schedule_other l0 l w :
  l0 ≠ l → lastBroadcast l0 (schedule l w) = lastBroadcast l0 w.
Proof.
  intros Hne.
  apply (schedule_at l (λ w', lastBroadcast l0 w' = lastBroadcast l0 w));
    try (intros; assumption); try reflexivity.
  - intros w' H. by rewrite lastBroadcast_cancel.
  - intros q w' H. by rewrite lastBroadcast_other.
Qed.

Lemma told_advance l0 l w : told l0 w → told l0 (advance l w).
Proof.
  intros H. destruct (decide (l0 = l)) as [->|Hne].
  - rewrite advance_unfold. unfold advanceBody.
    destruct (findLobby l w) as [lobby|]; [|exact H].
    destruct (isLocked l w); [exact H|].
    destruct (queue lobby) as [|removed rest]; [exact H|].
    generalize (updateLobby l (withQueue tail) (setLocks <[l := true]> w)).
    intros w2.
    assert (∀ w4, told l (snd (setTimeout (UnlockCb l) 1000
                      (emit (ToRoom l) (fila_atualizada (queueOf l w4)) w4)))) as Hfin.
    { intros w4. exact (told_emit_self l w4). }
    destruct rest as [|next rest]; [apply Hfin|].
    destruct (Date_now w2) as [t w3].
    destruct (scheduleBody _ l (alterHead l (withStartTime t) w3)) as [w4|];
      [apply Hfin|exact H].
  - apply (told_frame l0 w); [|by apply queueOf_advance_other|exact H].
    by apply lastBroadcast_advance_other.
Qed.

(** After a handler that works on the queue of [l], for another lobby. *)
Lemma told_other_schedule l0 l w w0 :
  l0 ≠ l → lastBroadcast l0 w = lastBroadcast l0 w0 → queueOf l0 w = queueOf l0 w0 →
  lastBroadcast l0 (schedule l w) = lastBroadcast l0 w0 ∧
  queueOf l0 (schedule l w) = queueOf l0 w0.
Proof.
  intros Hne Hb Hq.
  by rewrite lastBroadcast_schedule_other, queueOf_schedule_other.
Qed.

Lemma told_adicionar s tr w l0 : told l0 w → told l0 (adicionar_faixa s tr w).
Proof.
  intros H. unfold adicionar_faixa.
  destruct (findLobbyAndUser s w) as [[lobby user]|]; [|by apply told_silent].
  destruct (negb (isDj (role user))); [by apply told_silent|].
  destruct (List.existsb _ (queue lobby)); [by apply told_silent|].
  cbv zeta. set (lid := lobby_id lobby).
  set (w1 := updateLobby lid (withQueue (λ q, q ++ [tr])) w).
  set (w2 := if Nat.eqb (length (queue lobby ++ [tr])) 1
             then let (t, w') := Date_now w1 in
                  schedule lid (alterHead lid (withStartTime t) w')
             else w1).
  destruct (decide (l0 = lid)) as [->|Hne]; [apply told_emit_self|].
  assert (lastBroadcast l0 w1 = lastBroadcast l0 w ∧ queueOf l0 w1 = queueOf l0 w)
    as [Hb1 Hq1].
  { split; [reflexivity|]. unfold w1. by rewrite queueOf_update_ne. }
  assert (lastBroadcast l0 w2 = lastBroadcast l0 w ∧ queueOf l0 w2 = queueOf l0 w)
    as [Hb2 Hq2].
  { unfold w2. destruct (Nat.eqb _ 1); [|by split].
    destruct (Date_now w1) as [t w'] eqn:En.
    apply (f_equal snd) in En. simpl in En.
    apply told_other_schedule; [exact Hne| |].
    - subst w'. exact Hb1.
    - unfold alterHead. rewrite queueOf_update_ne by exact Hne. subst w'. exact Hq1. }
  apply (told_frame l0 w); [|exact Hq2|exact H].
  by rewrite lastBroadcast_other.
Qed.

Lemma told_remover s i w l0 : told l0 w → told l0 (remover_faixa s i w).
Proof.
  intros H. unfold remover_faixa.
  destruct (findLobbyAndUser s w) as [[lobby user]|]; [|exact H].
  destruct (negb (isDj (role user))); [exact H|].
  cbv zeta. set (lid := lobby_id lobby).
  set (keep := List.filter (λ t, negb (String.eqb (track_id t) i))).
  set (w1 := updateLobby lid (withQueue keep) w).
  set (w2 := if _ && _ then _ else w1).
  destruct (decide (l0 = lid)) as [->|Hne]; [apply told_emit_self|].
  assert (lastBroadcast l0 w1 = lastBroadcast l0 w ∧ queueOf l0 w1 = queueOf l0 w)
    as [Hb1 Hq1].
  { split; [reflexivity|]. unfold w1. by rewrite queueOf_update_ne. }
  assert (lastBroadcast l0 w2 = lastBroadcast l0 w ∧ queueOf l0 w2 = queueOf l0 w)
    as [Hb2 Hq2].
  { unfold w2. destruct (_ && _); [|by split].
    destruct (Date_now w1) as [t w'] eqn:En.
    apply (f_equal snd) in En. simpl in En.
    set (w'' := alterHead lid (withStartTime t) w').
    assert (lastBroadcast l0 w'' = lastBroadcast l0 w ∧ queueOf l0 w'' = queueOf l0 w)
      as [Hb Hq].
    { unfold w'', alterHead. rewrite queueOf_update_ne by exact Hne. by subst w'. }
    apply told_other_schedule; [exact Hne| |];
      by destruct (lobbyAdvanceTimers w'' !! lid). }
  apply (told_frame l0 w); [|exact Hq2|exact H].
  by rewrite lastBroadcast_other.
Qed.

Lemma told_step e w l :
  told l w →
  match e with
  | Criar _ l' _ => l ≠ l' ∨ findLobby l' w = None
  | Disconnect _ => In l (registered (step e w)) ∨ ¬ In l (registered w)
  | _ => True
  end →
  told l (step e w).
Proof.
  intros H He. destruct e as [s l' n|s l' n|s tr|s|s i|s|h|ts]; simpl.
  - unfold criar_lobby. destruct (blank n); [by apply told_silent|].
    apply told_silent; [exact I|].
    apply (told_frame l w); [reflexivity| |exact H].
    rewrite queueOf_put. destruct (hasId l _) eqn:E; [|reflexivity].
    apply hasId_eq in E. simpl in E. subst l'.
    destruct He as [He|He]; [done|]. unfold queueOf. by rewrite He.
  - unfold entrar_lobby. destruct (blank l'); [by apply told_silent|].
    destruct (blank n); [by apply told_silent|].
    destruct (findLobby (trim l') w) as [lobby|].
    + cbv zeta. apply told_silent; [exact I|]. apply told_silent; [exact I|].
      apply (told_frame l w); [reflexivity| |exact H]. apply queueOf_users.
    + destruct (List.existsb _ inherited); [exact H|by apply told_silent].
  - by apply told_adicionar.
  - unfold musica_terminou.
    destruct (findLobbyAndUser s w) as [[lobby user]|]; [|exact H].
    destruct (lobbyAdvanceTimers w !! lobby_id lobby); [exact H|].
    by apply told_advance.
  - by apply told_remover.
  - simpl in He. unfold disconnect in *.
    destruct (findLobbyAndUser s w) as [[lobby user]|]; [|exact H].
    cbv zeta in *. set (lid := lobby_id lobby) in *.
    set (w3 := cancelTimer lid _) in *.
    assert (lastBroadcast l w3 = lastBroadcast l w ∧ queueOf l w3 = queueOf l w)
      as [Hb Hq].
    { unfold w3. rewrite lastBroadcast_cancel, queueOf_cancel. split.
      - rewrite lastBroadcast_emit. reflexivity.
      - change (queueOf l (updateLobby lid
                  (withUsers (List.filter
                     (λ u, negb (String.eqb (user_id u) (user_id user))))) w) =
                queueOf l w).
        apply queueOf_users. }
    destruct (Nat.eqb _ 0); [|by apply (told_frame l w)].
    apply (told_frame l w); [exact Hb| |exact H].
    rewrite queueOf_delete. destruct (String.eqb_spec l lid) as [->|Hne]; [|exact Hq].
    destruct He as [He|He].
    + exfalso. unfold registered in He. simpl in He.
      apply List.in_map_iff in He as (L0 & Hid & HL0).
      apply List.filter_In in HL0 as [_ HL0].
      apply negb_true_iff in HL0.
      assert (hasId lid L0 = true) by (by apply hasId_eq). congruence.
    + apply unregistered in He. unfold queueOf. by rewrite He.
  - unfold timerFires. destruct (List.find _ (pending w)) as [t|]; [|exact H].
    destruct (now w <? due t); [exact H|].
    destruct (action t) as [l1|l1]; [|exact H].
    apply (told_frame l (advance l1 (clearTimeout h w))); [reflexivity|reflexivity|].
    by apply told_advance.
  - exact H.
Qed.

Lemma registered_step e w i :
  In i (registered (step e w)) →
  In i (registered w) ∨ match e with Criar _ l' _ => i = l' | _ => False end.
Proof.
  destruct e as [s l' n|s l' n|s tr|s|s j|s|h|ts]; simpl.
  - intros H. apply registered_criar in H as [->|H]; [by right|by left].
  - rewrite registered_entrar. by left.
  - pose proof (queue_step_membership (Adicionar s tr) w I) as [Hm _].
    simpl in Hm. rewrite (registered_members w _ Hm). by left.
  - pose proof (queue_step_membership (Terminou s) w I) as [Hm _].
    simpl in Hm. rewrite (registered_members w _ Hm). by left.
  - pose proof (queue_step_membership (Remover s j) w I) as [Hm _].
    simpl in Hm. rewrite (registered_members w _ Hm). by left.
  - intros H. left. unfold disconnect in H.
    destruct (findLobbyAndUser s w) as [[lobby user]|]; [|exact H].
    cbv zeta in H. unfold registered in *.
    set (w3 := cancelTimer (lobby_id lobby) _) in *.
    assert (In i (List.map lobby_id (lobbies w3)) →
            In i (List.map lobby_id (lobbies w))) as Hc.
    { unfold w3. rewrite lobbies_cancelTimer. simpl. by rewrite ids_update. }
    destruct (Nat.eqb _ 0); [|by apply Hc].
    apply Hc. simpl in H. apply List.in_map_iff in H as (L0 & Hid & HL0).
    apply List.filter_In in HL0 as [HL0 _]. apply List.in_map_iff. eauto.
  - pose proof (queue_step_membership (Fires h) w I) as [Hm _].
    simpl in Hm. rewrite (registered_members w _ Hm). by left.
  - by left.
Qed.

Lemma told_exec run :
  ∀ w used,
    (∀ i, In i (registered w) → In i used) →
    List.NoDup (used ++ criados run) →
    (∀ l, In l (registered w) ∨ ¬ In l used → told l w) →
    ∀ l, In l (registered (exec run w)) → told l (exec run w).
Proof.
  induction run as [|e run IH]; intros w used Hused Hnd H l Hl; [apply H; by left|].
  change (exec (e :: run) w) with (exec run (step e w)) in *.
  destruct e as [s l' n|s l' n|s tr|s|s i|s|h|ts].
  - simpl in Hnd. pose proof (List.NoDup_remove _ _ _ Hnd) as [Hnd' Hnot].
    assert (¬ In l' used) as Hfresh by (intros Hin; apply Hnot, in_or_app; by left).
    apply (IH (step (Criar s l' n) w) (l' :: used)); [| | |exact Hl].
    + intros i Hi. apply registered_step in Hi as [Hi| ->]; [right; by apply Hused|by left].
    + simpl. constructor; [exact Hnot|exact Hnd'].
    + intros l1 Hl1.
      assert (findLobby l' w = None) as Hnone.
      { apply unregistered. intros Hin. by apply Hfresh, Hused. }
      apply told_step; [|by right]. apply H.
      destruct Hl1 as [Hl1|Hl1].
      * apply registered_step in Hl1 as [Hl1| ->]; [by left|by right].
      * right. intros Hin. apply Hl1. by right.
  - apply (IH (step (Entrar s l' n) w) used); [| | |exact Hl].
    + intros i Hi. apply registered_step in Hi as [Hi|[]]. by apply Hused.
    + exact Hnd.
    + intros l1 Hl1. apply told_step; [|exact I]. apply H.
      destruct Hl1 as [Hl1|Hl1]; [|by right].
      apply registered_step in Hl1 as [Hl1|[]]. by left.
  - apply (IH (step (Adicionar s tr) w) used); [| | |exact Hl].
    + intros i Hi. apply registered_step in Hi as [Hi|[]]. by apply Hused.
    + exact Hnd.
    + intros l1 Hl1. apply told_step; [|exact I]. apply H.
      destruct Hl1 as [Hl1|Hl1]; [|by right].
      apply registered_step in Hl1 as [Hl1|[]]. by left.
  - apply (IH (step (Terminou s) w) used); [| | |exact Hl].
    + intros i Hi. apply registered_step in Hi as [Hi|[]]. by apply Hused.
    + exact Hnd.
    + intros l1 Hl1. apply told_step; [|exact I]. apply H.
      destruct Hl1 as [Hl1|Hl1]; [|by right].
      apply registered_step in Hl1 as [Hl1|[]]. by left.
  - apply (IH (step (Remover s i) w) used); [| | |exact Hl].
    + intros j Hj. apply registered_step in Hj as [Hj|[]]. by apply Hused.
    + exact Hnd.
    + intros l1 Hl1. apply told_step; [|exact I]. apply H.
      destruct Hl1 as [Hl1|Hl1]; [|by right].
      apply registered_step in Hl1 as [Hl1|[]]. by left.
  - apply (IH (step (Disconnect s) w) used); [| | |exact Hl].
    + intros i Hi. apply registered_step in Hi as [Hi|[]]. by apply Hused.
    + exact Hnd.
    + intros l1 Hl1. destruct Hl1 as [Hl1|Hl1].
      * apply told_step; [|by left]. apply H.
        apply registered_step in Hl1 as [Hl1|[]]. by left.
      * apply told_step; [by apply H; right|]. right.
        intros Hin. by apply Hl1, Hused.
  - apply (IH (step (Fires h) w) used); [| | |exact Hl].
    + intros i Hi. apply registered_step in Hi as [Hi|[]]. by apply Hused.
    + exact Hnd.
    + intros l1 Hl1. apply told_step; [|exact I]. apply H.
      destruct Hl1 as [Hl1|Hl1]; [|by right].
      apply registered_step in Hl1 as [Hl1|[]]. by left.
  - apply (IH (step (Clock ts) w) used); [| | |exact Hl].
    + intros i Hi. by apply Hused.
    + exact Hnd.
    + intros l1 Hl1. apply told_step; [|exact I]. by apply H.
Qed.

(** X6. The lobbies created having distinct ids, the room of every lobby
    has been told its queue as it is: the last [fila_atualizada] sent to
    the room carries the queue the lobby has now (and a lobby whose room
    was never sent one has an empty queue), whatever the sockets sent and
    whichever timers fired. *)
Theorem room_knows_the_queue (run : list Event) :
  List.NoDup (criados run) →
  Forall (λ L, default [] (lastBroadcast (lobby_id L) (exec run initial)) = queue L)
         (lobbies (exec run initial)).
Proof.
  intros Hnd.
  assert (sound (exec run initial)) as Hs by apply sound_exec, sound_initial.
  apply List.Forall_forall. intros L HL.
  assert (told (lobby_id L) (exec run initial)) as H.
  { apply (told_exec run initial []); [intros i []|exact Hnd|reflexivity|].
    by apply List.in_map. }
  unfold told, queueOf, findLobby in H.
  by rewrite (find_registered _ _ L (proj1 Hs) HL eq_refl) in H.
Qed.

(** X6, for the run in which tracks are queued and removed and a timer
    fires. *)
Lemma room_knows_witness :
  Forall (λ L, default [] (lastBroadcast (lobby_id L) (exec busyJoinRun initial)) = queue L)
         (lobbies (exec busyJoinRun initial)).
Proof.
  apply (room_knows_the_queue busyJoinRun).
  vm_compute. constructor; [intros []|constructor].
Defined.

(** ** A timer that fires *)

(** An advance that finds the lobby unlocked and a track in its queue
    removes the head and locks the lobby. *)
Lemma advance_dequeues l w L :
  findLobby l w = Some L → isLocked l w = false → queue L ≠ [] →
  queueIds l (advance l w) = tail (queueIds l w) ∧
  isLocked l (advance l w) = true.
Proof.
  intros Hf Hl Hq. rewrite advance_unfold. unfold advanceBody. rewrite Hf, Hl.
  destruct (queue L) as [|removed rest]; [done|].
  pose proof (queueIds_dequeue l (setLocks <[l := true]> w)) as Hq2.
  change (queueIds l (setLocks <[l := true]> w)) with (queueIds l w) in Hq2.
  assert (isLocked l (updateLobby l (withQueue tail) (setLocks <[l := true]> w)) = true)
    as Hl2 by apply isLocked_insert.
  revert Hq2 Hl2. generalize (updateLobby l (withQueue tail) (setLocks <[l := true]> w)).
  intros w2 Hq2 Hl2. destruct rest as [|next rest]; [by split|].
  destruct (Date_now w2) as [t w3] eqn:En.
  apply (f_equal snd) in En. simpl in En.
  assert (isLocked l (alterHead l (withStartTime t) w3) = true) as Hl3
    by (subst w3; exact Hl2).
  rewrite (blocked_is_schedule l _ Hl3). cbn [default].
  pose proof (blocked_is_schedule l _ Hl3) as Hb. split.
  - change (queueIds l (schedule l (alterHead l (withStartTime t) w3)) =
            tail (queueIds l w)).
    rewrite (blocked_schedule_ids l l _ _ Hb).
    rewrite queueIds_alterHead by reflexivity. subst w3. exact Hq2.
  - unfold isLocked.
    change (match lobbyProcessingLocks (schedule l (alterHead l (withStartTime t) w3)) !! l
            with Some b => b | None => false end = true).
    rewrite (locks_blocked l _ _ Hb). exact Hl3.
Qed.

(** X3. In a state the process reaches, a pending advance timer that is
    due fires on a lobby that is not locked and has a track queued: the
    track at the head leaves the queue, the lobby is locked, the timer is
    no longer pending, and no handle is stored for the lobby afterwards
    (the callback deletes the entry after the advance, also when the
    advance has just armed the timer of the next track). *)
Theorem due_timer_advances_the_queue
  (run : list Event) (h : nat) (t : Timer) (l : string) (L : Lobby) :
  let w := exec run initial in
  List.find (λ t', Nat.eqb (handle t') h) (pending w) = Some t →
  action t = AdvanceCb l → due t ≤ now w →
  findLobby l w = Some L → isLocked l w = false → queue L ≠ [] →
  let w' := timerFires h w in
  queueIds l w' = tail (queueIds l w) ∧
  isLocked l w' = true ∧
  lobbyAdvanceTimers w' !! l = None ∧
  Forall (λ t', handle t' ≠ h) (pending w').
Proof.
  intros w Hfind Hact Hdue Hf Hl Hq w'. subst w'.
  assert ((h < nextHandle w)%nat) as Hh.
  { destruct (settled_reachable run) as [(H1 & _) _].
    apply List.find_some in Hfind as [Hin Hh]. apply Nat.eqb_eq in Hh. subst h.
    by apply H1. }
  unfold timerFires. rewrite Hfind, Hact.
  destruct (Z.ltb_spec (now w) (due t)) as [Hlt|_]; [lia|].
  destruct (advance_dequeues l (clearTimeout h w) L Hf Hl Hq) as [Hids Hlock].
  split; [exact Hids|]. split; [exact Hlock|]. split; [apply lookup_delete_eq|].
  change (Forall (λ t', handle t' ≠ h) (pending (advance l (clearTimeout h w)))).
  apply (advance_at l
           (λ w1, (h < nextHandle w1)%nat ∧ Forall (λ t', handle t' ≠ h) (pending w1)));
    try (intros; assumption).
  - intros w1 [Hn H]. rewrite nextHandle_cancel. split; [exact Hn|].
    rewrite pending_cancel. unfold withoutStored.
    destruct (lobbyAdvanceTimers w1 !! l); [|exact H].
    apply List.Forall_forall. intros t' Ht'. apply List.filter_In in Ht' as [Ht' _].
    by apply (proj1 (List.Forall_forall _ _) H).
  - intros d w1 [Hn H]. split; [simpl; lia|]. simpl.
    apply Forall_app. split; [exact H|]. constructor; [simpl; lia|constructor].
  - intros w1 [Hn H]. split; [simpl; lia|]. simpl.
    apply Forall_app. split; [exact H|]. constructor; [simpl; lia|constructor].
  - split; [exact Hh|]. simpl.
    apply List.Forall_forall. intros t' Ht'. apply List.filter_In in Ht' as [_ Ht'].
    apply negb_true_iff in Ht'. by apply Nat.eqb_neq.
Qed.

(** X3, when the timer of the first of two tracks fires. *)
Lemma due_timer_witness :
  queueIds sala (timerFires 0 (exec dueRun initial)) = ["T2"] ∧
  isLocked sala (timerFires 0 (exec dueRun initial)) = true ∧
  lobbyAdvanceTimers (timerFires 0 (exec dueRun initial)) !! sala = None ∧
  Forall (λ t', handle t' ≠ 0%nat) (pending (timerFires 0 (exec dueRun initial))).
Proof.
  refine (due_timer_advances_the_queue dueRun 0
            (mkTimer 0 (t0 + 6000) (AdvanceCb sala)) sala
            (mkLobby sala [alice]
               [withStartTime (t0 + 1000) (faixa "T1" (Some 5)); faixa "T2" (Some 1)])
            eq_refl eq_refl _ eq_refl eq_refl _).
  - vm_compute. discriminate.
  - discriminate.
Defined.

(** ** The durations of YouTube *)

Lemma length_snoc (a : string) (c : ascii) :
  String.length (a +:+ String c "") = S (String.length a).
Proof.
  induction a as [|x a IH]; [reflexivity|].
  change (S (String.length (a +:+ String c "")) = S (S (String.length a))).
  by rewrite IH.
Qed.

Lemma allDigits_app a b : allDigits (a +:+ b) = allDigits a && allDigits b.
Proof.
  induction a as [|c a IH]; [reflexivity|]. simpl.
  change (String.append a b) with (a +:+ b). rewrite IH. apply andb_assoc.
Qed.

Lemma pretty_N_char_digit x :
  (x < 10)%N →
  isDigit (pretty_N_char x) = true ∧
  N.of_nat (Ascii.nat_of_ascii (pretty_N_char x) - 48) = x.
Proof.
  intros H.
  assert (x = 0 ∨ x = 1 ∨ x = 2 ∨ x = 3 ∨ x = 4 ∨ x = 5 ∨ x = 6 ∨ x = 7 ∨
          x = 8 ∨ x = 9)%N as Hx by lia.
  repeat (destruct Hx as [->|Hx]; [by split|]). subst x. by split.
Qed.

Lemma parseIntFrom_app acc a b :
  allDigits a = true →
  parseIntFrom acc (a +:+ b) = parseIntFrom (parseIntFrom acc a) b.
Proof.
  revert acc. induction a as [|c a IH]; intros acc H; [reflexivity|].
  simpl in *. apply andb_prop in H as [Hc Ha]. rewrite Hc.
  change (String.append a b) with (a +:+ b). by apply IH.
Qed.

Lemma parseIntFrom_digits acc a :
  allDigits a = true → parseIntFrom acc (a +:+ "") = parseIntFrom acc a.
Proof. intros H. by rewrite parseIntFrom_app. Qed.

(** The digits [pretty_N_go] puts in front of its accumulator. *)
Lemma pretty_N_go_spec x :
  ∀ s, ∃ ds, pretty_N_go x s = ds +:+ s ∧ allDigits ds = true ∧
             (∀ acc, parseIntFrom acc ds =
                     (acc * 10 ^ N.of_nat (String.length ds) + x)%N) ∧
             ((0 < x)%N → ds ≠ "").
Proof.
  induction (N.lt_wf_0 x) as [x _ IH]. intros s.
  destruct (decide (x = 0%N)) as [->|Hx].
  - exists "". rewrite pretty_N_go_0. repeat split; [|lia].
    intros acc. simpl. lia.
  - rewrite pretty_N_go_step by lia.
    destruct (IH (x `div` 10)%N) with (s := String (pretty_N_char (x `mod` 10)) s)
      as (ds & Hgo & Hall & Hval & _).
    { apply N.div_lt; lia. }
    destruct (pretty_N_char_digit (x `mod` 10)%N) as [Hd Hv].
    { apply N.mod_lt. lia. }
    exists (ds +:+ String (pretty_N_char (x `mod` 10)) "").
    split; [|split; [|split]].
    + rewrite Hgo. by rewrite append_assoc.
    + rewrite allDigits_app, Hall. simpl. by rewrite Hd.
    + intros acc. rewrite parseIntFrom_app by exact Hall. simpl. rewrite Hd, Hv, Hval.
      rewrite length_snoc.
      rewrite Nat2N.inj_succ, N.pow_succ_r'.
      pose proof (N.div_mod x 10). lia.
    + intros _. by destruct ds.
Qed.

Lemma pretty_spec (n : N) :
  allDigits (pretty n) = true ∧ parseInt (pretty n) = n ∧ pretty n ≠ "".
Proof.
  unfold pretty, pretty_N. destruct (decide (n = 0%N)) as [->|Hn]; [by repeat split|].
  destruct (pretty_N_go_spec n "") as (ds & Hgo & Hall & Hval & Hne).
  rewrite Hgo, append_nil. split; [exact Hall|]. split; [|apply Hne; lia].
  unfold parseInt. rewrite Hval. lia.
Qed.

Lemma digitRun_app a c rest :
  allDigits a = true → isDigit c = false →
  digitRun (a +:+ String c rest) = (a, String c rest).
Proof.
  intros Ha Hc. induction a as [|d a IH]; simpl.
  - by rewrite Hc.
  - simpl in Ha. apply andb_prop in Ha as [Hd Ha]. rewrite Hd.
    change (String.append a (String c rest)) with (a +:+ String c rest).
    by rewrite (IH Ha).
Qed.

Lemma unitGroup_hit x (n : N) rest :
  isDigit x = false →
  unitGroup x (pretty n +:+ String x rest) = (Some (pretty n), rest).
Proof.
  intros Hx. destruct (pretty_spec n) as (Hall & _ & Hne).
  unfold unitGroup. rewrite (digitRun_app _ _ _ Hall Hx).
  destruct (pretty n) as [|d ds]; [done|]. by rewrite Ascii.eqb_refl.
Qed.

Lemma unitGroup_miss x y (n : N) rest :
  isDigit y = false → x ≠ y →
  unitGroup x (pretty n +:+ String y rest) = (None, pretty n +:+ String y rest).
Proof.
  intros Hy Hne. destruct (pretty_spec n) as (Hall & _ & _).
  unfold unitGroup. rewrite (digitRun_app _ _ _ Hall Hy).
  destruct (pretty n) as [|d ds]; [reflexivity|].
  destruct (Ascii.eqb_spec y x); [congruence|reflexivity].
Qed.

Lemma unitGroup_nil x : unitGroup x "" = (None, "").
Proof. reflexivity. Qed.

Lemma unitGroup_skips x y (n : N) rest :
  x ≠ y → isDigit y = false →
  unitGroup x rest = (None, rest) →
  unitGroup x (isoUnit n (String y "") +:+ rest) =
    (None, isoUnit n (String y "") +:+ rest).
Proof.
  intros Hne Hy Hrest. unfold isoUnit. destruct (n =? 0)%N; [exact Hrest|].
  rewrite append_assoc. by apply unitGroup_miss.
Qed.

Lemma unitGroup_reads x (n : N) rest :
  isDigit x = false →
  unitGroup x rest = (None, rest) →
  unitGroup x (isoUnit n (String x "") +:+ rest) =
    (if (n =? 0)%N then None else Some (pretty n), rest).
Proof.
  intros Hx Hrest. unfold isoUnit. destruct (n =? 0)%N; [exact Hrest|].
  rewrite append_assoc. by apply unitGroup_hit.
Qed.

Lemma parseInt_group (n : N) :
  parseInt (default "0" (if (n =? 0)%N then None else Some (pretty n))) = n.
Proof.
  destruct (N.eqb_spec n 0) as [->|_]; [reflexivity|].
  by destruct (pretty_spec n) as (_ & H & _).
Qed.

(** X15. The text of a duration shorter than a day, with hours, minutes and
    seconds of any size, parses to its number of seconds (up to [2 ^ 53],
    where the numbers of JS stop being exact). *)
Theorem parseYouTubeDuration_reads_iso_time (h m s : N) :
  (h * 3600 + m * 60 + s < 2 ^ 53)%N →
  parseYouTubeDuration (isoTime h m s) = (h * 3600 + m * 60 + s)%N.
Proof.
  intros _. unfold parseYouTubeDuration, isoTime.
  change (afterPT ("PT" +:+ ?x)) with (Some x). cbv iota.
  rewrite <- (append_nil (isoUnit s "S")).
  rewrite (unitGroup_reads "H"); [|reflexivity|].
  2:{ apply unitGroup_skips; [discriminate|reflexivity|].
      apply unitGroup_skips; [discriminate|reflexivity|reflexivity]. }
  rewrite (unitGroup_reads "M"); [|reflexivity|].
  2:{ apply unitGroup_skips; [discriminate|reflexivity|reflexivity]. }
  rewrite (unitGroup_reads "S"); [|reflexivity|reflexivity].
  by rewrite !parseInt_group.
Qed.

(** X15, for a video of 1 h 2 min 3 s. *)
Lemma parseYouTubeDuration_witness :
  parseYouTubeDuration "PT1H2M3S" = 3723%N.
Proof.
  refine (parseYouTubeDuration_reads_iso_time 1 2 3 _). vm_compute. reflexivity.
Defined.

Lemma noP_app a b : noP (a +:+ b) = noP a && noP b.
Proof.
  induction a as [|c a IH]; [reflexivity|].
  change (negb (Ascii.eqb c "P") && noP (a +:+ b) =
          negb (Ascii.eqb c "P") && noP a && noP b).
  rewrite IH. apply andb_assoc.
Qed.

Lemma noP_afterPT s : noP s = true → afterPT s = None.
Proof.
  induction s as [|c s IH]; [reflexivity|]. intros H.
  change (negb (Ascii.eqb c "P") && noP s = true) in H.
  apply andb_prop in H as [Hc Hs]. apply negb_true_iff in Hc.
  simpl. destruct s as [|c' s']; [reflexivity|]. rewrite Hc. simpl. by apply IH.
Qed.

Lemma allDigits_noP s : allDigits s = true → noP s = true.
Proof.
  induction s as [|c s IH]; [reflexivity|]. intros H.
  change (isDigit c && allDigits s = true) in H.
  apply andb_prop in H as [Hc Hs].
  change (negb (Ascii.eqb c "P") && noP s = true). rewrite (IH Hs), andb_true_r.
  destruct (Ascii.eqb_spec c "P") as [->|_]; [discriminate|reflexivity].
Qed.

Lemma noP_isoUnit (n : N) (u : ascii) :
  Ascii.eqb u "P" = false → noP (isoUnit n (String u "")) = true.
Proof.
  intros Hu. unfold isoUnit. destruct (n =? 0)%N; [reflexivity|].
  rewrite noP_app, allDigits_noP by apply pretty_spec.
  simpl. by rewrite Hu.
Qed.

(** X16. The length of a video of a day or more, which has its days before
    the ["T"], parses to zero seconds: the text holds no ["PT"]. *)
Theorem parseYouTubeDuration_of_a_day_is_zero (d h m s : N) :
  parseYouTubeDuration (isoDays d h m s) = 0%N.
Proof.
  unfold parseYouTubeDuration, isoDays.
  assert (afterPT ("P" +:+ pretty d +:+ "DT" +:+ isoUnit h "H" +:+ isoUnit m "M" +:+
                   isoUnit s "S") = None) as ->; [|reflexivity].
  destruct (pretty_spec d) as (Hall & _ & Hne).
  assert (noP (pretty d +:+ "DT" +:+ isoUnit h "H" +:+ isoUnit m "M" +:+ isoUnit s "S")
          = true) as HnoP.
  { rewrite !noP_app, (allDigits_noP _ Hall), !noP_isoUnit by reflexivity. reflexivity. }
  revert HnoP Hall Hne.
  generalize (isoUnit h "H" +:+ isoUnit m "M" +:+ isoUnit s "S"). intros rest.
  destruct (pretty d) as [|c ds]; [done|]. intros HnoP Hall _.
  change (afterPT (String "P" (String c (ds +:+ "DT" +:+ rest))) = None).
  change (isDigit c && allDigits ds = true) in Hall.
  apply andb_prop in Hall as [Hc _].
  cbn [afterPT]. 
  destruct (Ascii.eqb_spec c "T") as [->|_]; [discriminate|].
  cbn [Ascii.eqb Bool.eqb andb].
  apply (noP_afterPT (String c (ds +:+ "DT" +:+ rest))). exact HnoP.
Qed.

(** ** The YouTube search, the route and the token *)

Lemma durationMap_from videoDetails :
  ∀ (m : gmap string N) id d,
    fold_left
      (λ (m : gmap string N) video,
         let durationSeconds := parseYouTubeDuration (default "" (contentDuration video)) in
         if (0 <? durationSeconds)%N then <[video_id video := durationSeconds]> m else m)
      videoDetails m !! id = Some d →
    m !! id = Some d ∨
    ∃ video, In video videoDetails ∧ video_id video = id ∧
             parseYouTubeDuration (default "" (contentDuration video)) = d ∧ (0 < d)%N.
Proof.
  induction videoDetails as [|v vs IH]; intros m id d H; [by left|].
  simpl in H. apply IH in H as [H|(video & Hin & Hid & Hd & Hpos)].
  - destruct (N.ltb_spec 0 (parseYouTubeDuration (default "" (contentDuration v))))
      as [Hpos|_]; [|by left].
    destruct (decide (video_id v = id)) as [Hid|Hne].
    + subst id. rewrite lookup_insert_eq in H. injection H as <-.
      right. exists v. repeat split; [by left|exact Hpos].
    + rewrite lookup_insert_ne in H by exact Hne. by left.
  - right. exists video. repeat split; [by right|exact Hid|exact Hd|exact Hpos].
Qed.

(** X17. Every track of a YouTube search is a YouTube track addressed by its
    video id, and its duration is either absent or the positive number of
    seconds parsed from an entry of the details answer for that video: a
    duration of zero is never passed on, so the scheduler times the track
    by that duration or, when it is absent, by its 240 seconds. *)
Theorem youtube_durations_are_positive_or_absent
  (key : option string) (api : YouTubeApi) (query : string) :
  Forall (λ tr,
      source tr = Some youtube ∧
      uri tr = "https://www.youtube.com/watch?v=" +:+ track_id tr ∧
      startTime tr = None ∧
      match duration tr with
      | None => effectiveDuration tr = 240
      | Some d =>
          0 < d ∧ effectiveDuration tr = d ∧
          ∃ videoIds details video,
            youtubeVideos api videoIds = Some details ∧ In video details ∧
            video_id video = track_id tr ∧
            Z.of_N (parseYouTubeDuration (default "" (contentDuration video))) = d
      end)
    (searchYouTubeVideos key api query).
Proof.
  unfold searchYouTubeVideos. destruct (negb (truthy key)); [constructor|].
  destruct (youtubeSearch api query) as [items|]; [|constructor].
  cbv zeta. set (videoIds := join "," (List.map videoId items)).
  apply List.Forall_forall. intros tr Htr.
  apply List.in_map_iff in Htr as (item & <- & _).
  repeat split. unfold effectiveDuration, lacksDuration.
  cbn [duration youtubeTrack track_id]. unfold durationOf.
  destruct (durationMap _ !! videoId item) as [d|] eqn:E; [|reflexivity].
  destruct (N.eqb_spec d 0) as [->|Hd]; [reflexivity|].
  apply durationMap_from in E as [E|(video & Hin & Hid & Hdur & Hpos)];
    [by rewrite lookup_empty in E|].
  split; [lia|]. split.
  { destruct (Z.leb_spec (Z.of_N d) 0); [lia|reflexivity]. }
  destruct (youtubeVideos api videoIds) as [details|] eqn:Ev; [|destruct Hin].
  exists videoIds, details, video. repeat split; try assumption. by rewrite Hdur.
Qed.

Lemma isNil_nil {A} (xs : list A) : isNil xs = true ↔ xs = [].
Proof. destruct xs; split; intros H; try reflexivity; discriminate. Qed.

(** X19. The route [/search] answers with the results or with the warnings,
    never with both: whenever an adapter it asks has a result, the answer
    is the bare array of the results of YouTube, Spotify (tagged with
    their source) and SoundCloud in that order, and what was found out
    about the adapters that are not configured is dropped. Without a
    query the answer is the status 400. *)
Theorem search_answers_results_or_warnings
  (env : Env) (net : Providers) (q source : option string) :
  let src := default "youtube" (orElse source None) in
  match search env net q source with
  | BadRequest _ => truthy q = false
  | Results results =>
      truthy q = true ∧ results ≠ [] ∧ results = found env net (default "" q) src
  | NoResults warnings message =>
      truthy q = true ∧ found env net (default "" q) src = [] ∧
      (message = None ↔ warnings = [])
  end.
Proof.
  intros src. unfold search, found. fold src.
  destruct (truthy q); [|reflexivity]. cbn [negb].
  set (query := default "" q).
  generalize (searchYouTubeVideos (YOUTUBE_API_KEY env) (youtubeApi net) query).
  generalize (List.map (withSource spotify) (spotifySearch net query)).
  generalize (searchSoundCloudTracks (numberText net) (SOUNDCLOUD_CLIENT_ID env)
                (soundcloudApi net) query).
  intros sc sp yt.
  destruct (wants "youtube" src), (wants "spotify" src), (wants "soundcloud" src);
    destruct yt as [|y yt], sp as [|p sp], sc as [|c sc];
    destruct (truthy (YOUTUBE_API_KEY env)), (truthy (SOUNDCLOUD_CLIENT_ID env));
    simpl; repeat split; intros;
    first [reflexivity|discriminate
          |by rewrite <- ?List.app_assoc, ?List.app_nil_r].
Qed.

(** X20. A search on YouTube (the source asked for, or the default when
    none is given) whose request fails or comes back without an item
    while the API key is configured is answered with the message that no
    API is configured. *)
Theorem search_blames_the_configuration
  (key : string) (env : Env) (net : Providers) (q source : option string) :
  YOUTUBE_API_KEY env = Some key → truthy (Some key) = true → truthy q = true →
  default "youtube" (orElse source None) = "youtube" →
  youtubeSearch (youtubeApi net) (default "" q) = None ∨
  youtubeSearch (youtubeApi net) (default "" q) = Some [] →
  search env net q source =
    NoResults
      ["YouTube: Nenhum resultado encontrado. Verifique se a API key está válida e se a API está habilitada no Google Cloud Console."]
      (Some "Nenhuma API configurada. Configure pelo menos uma API key no arquivo .env").
Proof.
  intros Hkey Hk Hq Hsrc Hnet.
  assert (searchYouTubeVideos (Some key) (youtubeApi net) (default "" q) = []) as Hnone.
  { unfold searchYouTubeVideos. rewrite Hk. by destruct Hnet as [-> | ->]. }
  unfold search. rewrite Hq, Hsrc, Hkey, Hk, Hnone. reflexivity.
Qed.

(** X20, for a key that YouTube does not answer to. *)
Lemma search_blames_witness :
  search (mkEnv (Some "AIzaSyA-key") None) (mkProviders silentYouTube (λ _, []) (λ _, None) (λ _, ""))
    (Some "lofi") None =
  NoResults
    ["YouTube: Nenhum resultado encontrado. Verifique se a API key está válida e se a API está habilitada no Google Cloud Console."]
    (Some "Nenhuma API configurada. Configure pelo menos uma API key no arquivo .env").
Proof.
  exact (search_blames_the_configuration "AIzaSyA-key"
           (mkEnv (Some "AIzaSyA-key") None)
           (mkProviders silentYouTube (λ _, []) (λ _, None) (λ _, "")) (Some "lofi") None
           eq_refl eq_refl eq_refl eq_refl (or_introl eq_refl)).
Defined.



(** ** The SoundCloud search *)

(** X18. Every track of a SoundCloud search is a SoundCloud track, has the
    title of the answer, an artist (the placeholder when the answer names
    none) and no duration, so that the scheduler times it by its 240
    seconds; its stream address, if any, ends in the client id; and when
    the number of the track is a safe integer (below [2 ^ 53]) its id is
    that number in decimal, which [parseInt] reads back. Without a client
    id the search finds nothing. *)
Theorem soundcloud_tracks_have_an_artist_and_no_duration
  (beyond : N → string) (clientId : option string)
  (api : string → option (list SoundCloudTrack)) (query : string) :
  (truthy clientId = false → searchSoundCloudTracks beyond clientId api query = []) ∧
  Forall (λ tr,
      source tr = Some soundcloud ∧ artist tr ≠ "" ∧
      (∃ track collection,
         api query = Some collection ∧ In track collection ∧
         ((sc_id track < 2 ^ 53)%N →
            track_id tr = pretty (sc_id track) ∧ parseInt (track_id tr) = sc_id track) ∧
         title tr = sc_title track ∧
         (truthy (sc_username track) = true → Some (artist tr) = sc_username track)) ∧
      duration tr = None ∧ effectiveDuration tr = 240 ∧
      match streamUrl tr with
      | Some u => ∃ base, u = base +:+ "?client_id=" +:+ default "" clientId
      | None => True
      end)
    (searchSoundCloudTracks beyond clientId api query).
Proof.
  unfold searchSoundCloudTracks. split; [by intros ->|].
  destruct (negb (truthy clientId)); [constructor|].
  destruct (api query) as [collection|] eqn:Ea; [|constructor].
  apply List.Forall_forall. intros tr Htr.
  apply List.in_map_iff in Htr as (track & <- & Hin).
  split; [reflexivity|]. split.
  { simpl. unfold orElse. destruct (sc_username track) as [[|c n]|]; simpl; discriminate. }
  split.
  { exists track, collection. split; [reflexivity|]. split; [exact Hin|].
    split.
    { intros Hsafe. apply N.ltb_lt in Hsafe.
      cbn [track_id soundcloudTrack]. unfold Number_toString. rewrite Hsafe.
      split; [reflexivity|exact (proj1 (proj2 (pretty_spec (sc_id track))))]. }
    split; [reflexivity|].
    simpl. unfold orElse.
    destruct (sc_username track) as [[|c n]|]; simpl; intros;
      first [discriminate|reflexivity]. }
  split; [reflexivity|]. split; [reflexivity|].
  simpl. destruct (truthy (sc_stream_url track)); [|exact I]. by eexists.
Qed.

(** ** Joining a lobby *)

(** X22. [entrar_lobby] with an id and a name that are not blank, the
    trimmed id being that of a registered lobby: the newcomer, under the
    trimmed name, goes to the end of the users of that lobby, as a dj when
    the lobby has fewer than two and as a spectator otherwise; no other
    lobby, no timer and no lock changes; the newcomer is sent the lobby
    with itself in it. The others are told through the room named by the
    id as it was received, which is the room of the lobby only when the
    id came without white space around it. *)
Theorem entrar_lobby_joins_under_the_trimmed_id
  (socketId lobbyId userName : string) (w : World) (L : Lobby) :
  blank lobbyId = false → blank userName = false →
  findLobby (trim lobbyId) w = Some L →
  let newUser :=
    mkUser socketId (trim userName) (if Nat.ltb (djCount L) 2 then dj else spectator) in
  let L' := mkLobby (lobby_id L) (users L ++ [newUser]) (queue L) in
  let w' := entrar_lobby socketId lobbyId userName w in
  lobby_id L = trim lobbyId ∧
  findLobby (trim lobbyId) w' = Some L' ∧
  (∀ l, l ≠ trim lobbyId → findLobby l w' = findLobby l w) ∧
  outbox w' =
    outbox w ++ [(ToRoomExcept lobbyId socketId, usuario_entrou newUser);
                 (ToSocket socketId, lobby_entrou L')] ∧
  lobbyAdvanceTimers w' = lobbyAdvanceTimers w ∧
  lobbyProcessingLocks w' = lobbyProcessingLocks w ∧
  pending w' = pending w.
Proof.
  intros Hid Hname Hfind newUser L' w'. subst w'.
  pose proof (findLobby_id _ _ _ Hfind) as HL.
  unfold entrar_lobby. rewrite Hid, Hname, Hfind. cbv zeta.
  fold (djCount L). fold newUser.
  split; [exact HL|]. split; [|split].
  - change (findLobby (trim lobbyId)
              (updateLobby (lobby_id L) (withUsers (λ us, us ++ [newUser])) w) = Some L').
    rewrite findLobby_update by reflexivity. rewrite Hfind. simpl.
    assert (hasId (lobby_id L) L = true) as -> by (by apply hasId_eq).
    reflexivity.
  - intros l Hne.
    change (findLobby l
              (updateLobby (lobby_id L) (withUsers (λ us, us ++ [newUser])) w) =
            findLobby l w).
    rewrite findLobby_update by reflexivity.
    destruct (findLobby l w) as [L0|] eqn:E; [|reflexivity]. simpl.
    apply findLobby_id in E.
    destruct (hasId (lobby_id L) L0) eqn:E0; [|reflexivity].
    apply hasId_eq in E0. congruence.
  - cbn [outbox emit updateLobby setLobbies]. rewrite <- app_assoc.
    by repeat split.
Qed.

(** X22, for Carol, who joins Alice and Bob with the padded id: what the
    others are sent goes to a room that is not the one of the lobby. *)
Lemma entrar_lobby_witness :
  lobby_id (mkLobby sala [alice; bob] [withStartTime (t0 + 1000) (faixa "T1" (Some 30))]) =
    trim salaPadded ∧
  outbox (entrar_lobby carolId salaPadded "Carol" duo) =
    outbox duo ++
      [(ToRoomExcept salaPadded carolId, usuario_entrou (mkUser carolId (trim "Carol") spectator));
       (ToSocket carolId,
        lobby_entrou
          (mkLobby sala ([alice; bob] ++ [mkUser carolId (trim "Carol") spectator])
             [withStartTime (t0 + 1000) (faixa "T1" (Some 30))]))].
Proof.
  pose proof (entrar_lobby_joins_under_the_trimmed_id carolId salaPadded "Carol" duo
                (mkLobby sala [alice; bob]
                   [withStartTime (t0 + 1000) (faixa "T1" (Some 30))])
                eq_refl eq_refl eq_refl) as (H1 & _ & _ & H4 & _).
  split; [exact H1|exact H4].
Defined.
